(** * GraphQL-LD-M: mutation compiler, client, endpoint driver and result cache

    A shallow embedding of
      - [MutationConverter]           (src/mutation/MutationConverter.ts),
      - [Client]                      (src/client/Client.ts),
      - [QueryEngineSparqlEndpoint]   (src/engine/QueryEngineSparqlEndpoint.ts),
      - [IriValidator], [GraphQLInputValidator], [SparqlValidator]
                                      (src/shared/validation/InputValidator.ts),
      - [QueryCache]                  (src/infrastructure/cache/QueryCache.ts),
      - [Logger]                      (src/shared/monitoring/Logger.ts),
    followed by the properties of the specification that concern them and by
    further properties of the code.

    Conventions of the embedding.
      - A JavaScript string is a [string] (a sequence of 8-bit characters);
        the code only inspects ASCII characters of its inputs.
      - [getContextRaw()] is an object literal, given by the finite map of
        its own properties. A key that is no own property reads as
        [undefined], but for the names of [Object.prototype], which read as
        inherited members: truthy values that are no term definitions. The
        same holds of the table of the inverse relationships.
      - The capacity of the cache is a JavaScript number, whole or not; the
        times are whole milliseconds.
      - [validateMutationInput], which calls itself without a bound of its
        own, runs on a call stack of a given room and throws [RangeError]
        beyond it.
      - A function that may throw returns an [Outcome]; the visitor of
        [convert], which mutates local variables, is a state-passing function. *)

From Stdlib Require Import String Ascii List ZArith NArith QArith Lia Bool DecimalString HexadecimalString.
From stdpp Require Import base option list strings gmap.

Import ListNotations.
Set Warnings "-register-all".
Local Open Scope string_scope.
Local Open Scope list_scope.

(* ===================================================================== *)
(** ** JavaScript string primitives used by the sources *)
(* ===================================================================== *)

Module Js.

(** [s.startsWith(p)] *)
Definition startsWith (p s : string) : bool := String.prefix p s.

(** [s.endsWith(suf)] *)
Definition endsWith (suf s : string) : bool :=
  (String.length suf <=? String.length s)%nat &&
  String.eqb (String.substring (String.length s - String.length suf)
                               (String.length suf) s) suf.

(** [s.slice(0, -n)] *)
Definition dropLast (n : nat) (s : string) : string :=
  String.substring 0 (String.length s - n) s.

(** [s.substring(n)] and [s.slice(n)] for [n >= 0] *)
Definition substringFrom (n : nat) (s : string) : string :=
  String.substring n (String.length s - n) s.

(** [s.includes(sub)] *)
Fixpoint includes (sub s : string) : bool :=
  String.prefix sub s ||
  match s with
  | EmptyString => false
  | String _ s' => includes sub s'
  end.

Definition isUpper (c : ascii) : bool :=
  let n := nat_of_ascii c in (65 <=? n)%nat && (n <=? 90)%nat.
Definition isLower (c : ascii) : bool :=
  let n := nat_of_ascii c in (97 <=? n)%nat && (n <=? 122)%nat.

Definition toLowerChar (c : ascii) : ascii :=
  if isUpper c then ascii_of_nat (nat_of_ascii c + 32) else c.
Definition toUpperChar (c : ascii) : ascii :=
  if isLower c then ascii_of_nat (nat_of_ascii c - 32) else c.

(** [s.toLowerCase()], [s.toUpperCase()] on ASCII letters *)
Fixpoint toLowerCase (s : string) : string :=
  match s with
  | EmptyString => EmptyString
  | String c s' => String (toLowerChar c) (toLowerCase s')
  end.
Fixpoint toUpperCase (s : string) : string :=
  match s with
  | EmptyString => EmptyString
  | String c s' => String (toUpperChar c) (toUpperCase s')
  end.

(** [s.charAt(0).toUpperCase() + s.slice(1)] *)
Definition capitalize (s : string) : string :=
  match s with
  | EmptyString => EmptyString
  | String c s' => String (toUpperChar c) s'
  end.

(** A one-character string *)
Definition chr (n : nat) : string := String (ascii_of_nat n) EmptyString.

Definition LF : string := chr 10.
Definition CR : string := chr 13.

(** JSON values, as found in a JSON-LD context *)
Inductive Json : Type :=
| JNull
| JBool (b : bool)
| JNum (z : Z)
| JStr (s : string)
| JArr (items : list Json)
| JObj (props : list (string * Json)).

(** [!!v] *)
Definition truthy (v : option Json) : bool :=
  match v with
  | None | Some JNull | Some (JBool false) => false
  | Some (JNum z) => negb (z =? 0)%Z
  | Some (JStr s) => negb (String.eqb s "")
  | Some _ => true
  end.

(** [o[k]] on the properties of an object literal; a later duplicate of a
    key overrides an earlier one, so the property list is kept without
    duplicates and read by its first match. *)
Fixpoint prop (k : string) (props : list (string * Json)) : option Json :=
  match props with
  | [] => None
  | (k', v) :: rest => if String.eqb k k' then Some v else prop k rest
  end.

(** The names that an object literal inherits from [Object.prototype]. Read
    through [o[key]] without an own property of the name, each gives a
    function, and [__proto__] the prototype itself: a truthy value that is
    neither a string nor an object with a member ['@id'] or ['@type']. *)
Definition OBJECT_PROTOTYPE_NAMES : list string :=
  ["constructor"; "hasOwnProperty"; "isPrototypeOf"; "propertyIsEnumerable";
   "toLocaleString"; "toString"; "valueOf"; "__defineGetter__";
   "__defineSetter__"; "__lookupGetter__"; "__lookupSetter__"; "__proto__"].

Definition inherited (key : string) : bool :=
  existsb (String.eqb key) OBJECT_PROTOTYPE_NAMES.

(** [String(o[key])] for an inherited member, which is what it becomes
    when it is used as a property key: the text of a built-in function as
    Node.js prints it, and that of a plain object for [__proto__] *)
Definition inheritedText (key : string) : string :=
  if String.eqb key "__proto__" then "[object Object]"
  else "function " +:+ (if String.eqb key "constructor" then "Object" else key) +:+
       "() { [native code] }".

(** [s.every(p)] on the characters of a string *)
Fixpoint every (p : ascii -> bool) (s : string) : bool :=
  match s with
  | EmptyString => true
  | String c s' => p c && every p s'
  end.

Definition isLetter (c : ascii) : bool := isUpper c || isLower c.
Definition isDigit (c : ascii) : bool :=
  let n := nat_of_ascii c in (48 <=? n)%nat && (n <=? 57)%nat.

(** The white space and the line terminators below U+0100: TAB, LF, VT,
    FF, CR, SP and NBSP *)
Definition isWhiteSpace (c : ascii) : bool :=
  existsb (Nat.eqb (nat_of_ascii c)) [9; 10; 11; 12; 13; 32; 160]%nat.

Fixpoint trimStart (s : string) : string :=
  match s with
  | EmptyString => EmptyString
  | String c s' => if isWhiteSpace c then trimStart s' else s
  end.

Fixpoint trimEnd (s : string) : string :=
  match s with
  | EmptyString => EmptyString
  | String c s' =>
      let t := trimEnd s' in
      if isWhiteSpace c && String.eqb t "" then EmptyString else String c t
  end.

(** [s.trim()] *)
Definition trim (s : string) : string := trimEnd (trimStart s).

(** The double quote, for the messages that hold one *)
Definition DQUOTE : string := chr 34.

(** JavaScript values, as the validators and the client receive them under
    the type [unknown]. A number is given by what the code reads of it,
    [Number.isInteger(value)] and [value.toString()]; a function by
    [String(value)]. *)
Inductive JsValue : Type :=
| VUndefined
| VNull
| VBool (b : bool)
| VNum (isInteger : bool) (str : string)
| VStr (s : string)
| VArr (items : list JsValue)
| VObj (entries : list (string * JsValue))
| VDate
| VFunction (str : string).

(** A JavaScript number, where the code does arithmetic on one that need
    not be whole: a rational (every finite double is one), an infinity or
    [NaN] *)
Inductive JsNumber : Type :=
| Rational (q : Q)
| Infinity
| MinusInfinity
| NaN.

(** [!!x] on a number *)
Definition truthyNumber (x : JsNumber) : bool :=
  match x with
  | Rational q => negb (Qeq_bool q 0)
  | NaN => false
  | Infinity | MinusInfinity => true
  end.

(** [Math.max(a, b)] *)
Definition mathMax (a b : JsNumber) : JsNumber :=
  match a, b with
  | NaN, _ | _, NaN => NaN
  | Infinity, _ | _, Infinity => Infinity
  | MinusInfinity, x | x, MinusInfinity => x
  | Rational p, Rational q => if Qle_bool p q then Rational q else Rational p
  end.

(** [n >= x] for a whole number [n] *)
Definition geNumber (n : Z) (x : JsNumber) : bool :=
  match x with
  | Rational q => Qle_bool q (inject_Z n)
  | MinusInfinity => true
  | Infinity | NaN => false
  end.

End Js.

Import Js.

(* ===================================================================== *)
(** ** RDF terms, quads and the SPARQL algebra subset *)
(* ===================================================================== *)

Inductive Term : Type :=
| NamedNode (value : string)
| Literal (value : string) (datatype : string)
| VariableTerm (value : string)
| BlankNode (value : string)
| DefaultGraph.

Record Quad : Type := mkQuad {
  q_subject : Term;
  q_predicate : Term;
  q_object : Term;
  q_graph : Term
}.

(** [Algebra.Pattern] *)
Record Pattern : Type := mkPattern {
  subject : Term;
  predicate : Term;
  object : Term;
  graph : Term
}.

(** [Algebra.Bgp] *)
Record Bgp : Type := mkBgp { patterns : list Pattern }.

(** [Algebra.DeleteInsert]; an omitted member is [None] *)
Record DeleteInsert : Type := mkDeleteInsert {
  di_delete : option (list Pattern);
  di_insert : option (list Pattern);
  di_where : option Bgp
}.

(** [Algebra.CompositeUpdate] *)
Record CompositeUpdate : Type := mkCompositeUpdate { updates : list DeleteInsert }.

Definition XSD_STRING : string := "http://www.w3.org/2001/XMLSchema#string".
Definition XSD_INTEGER : string := "http://www.w3.org/2001/XMLSchema#integer".
Definition XSD_DOUBLE : string := "http://www.w3.org/2001/XMLSchema#double".
Definition XSD_BOOLEAN : string := "http://www.w3.org/2001/XMLSchema#boolean".
Definition RDF_TYPE : string := "http://www.w3.org/1999/02/22-rdf-syntax-ns#type".

(** The data factory: [quad(s, p, o)] lies in the default graph *)
Definition quad (s p o : Term) : Quad := mkQuad s p o DefaultGraph.

(** Variables of a term and of a pattern *)
Definition termVars (t : Term) : list string :=
  match t with
  | VariableTerm v => [v]
  | _ => []
  end.

Definition patternVars (p : Pattern) : list string :=
  termVars (subject p) ++ termVars (predicate p) ++
  termVars (object p) ++ termVars (graph p).

(** The variables of a list of patterns *)
Definition variablesOf (ps : list Pattern) : list string :=
  flat_map patternVars ps.

(* ===================================================================== *)
(** ** GraphQL abstract syntax (the part of [parse]'s result that is read) *)
(* ===================================================================== *)

Inductive ValueNode : Type :=
| VariableValue (name : string)
| IntValue (value : string)
| FloatValue (value : string)
| StringValue (value : string)
| BooleanValue (value : bool)
| NullValue
| EnumValue (value : string)
| ListValue (values : list ValueNode)
| ObjectValue (fields : list (string * ValueNode)).

(** [valueNode.kind] *)
Definition kind (v : ValueNode) : string :=
  match v with
  | VariableValue _ => "Variable"
  | IntValue _ => "IntValue"
  | FloatValue _ => "FloatValue"
  | StringValue _ => "StringValue"
  | BooleanValue _ => "BooleanValue"
  | NullValue => "NullValue"
  | EnumValue _ => "EnumValue"
  | ListValue _ => "ListValue"
  | ObjectValue _ => "ObjectValue"
  end.

(** A field with its arguments [(name, value)]; alias, directives and
    selection set are never read by the converter, whose [Field] visitor
    returns [false]. *)
Record FieldNode : Type := mkField {
  name : string;
  arguments : list (string * ValueNode)
}.

Inductive OperationTypeNode : Type := OpQuery | OpMutation | OpSubscription.

(** An operation definition with the fields of its selection set. The
    documents of the embedding are lists of operation definitions whose
    root selections are fields: fragment definitions, fragment spreads and
    inline fragments at the root are left out. *)
Record OperationDefinitionNode : Type := mkOperation {
  operation : OperationTypeNode;
  selections : list FieldNode
}.

Definition DocumentNode : Type := list OperationDefinitionNode.

(** [xs.find(x => x.name.value === k)] on arguments and on object fields *)
Fixpoint find (k : string) (xs : list (string * ValueNode)) : option ValueNode :=
  match xs with
  | [] => None
  | (k', v) :: rest => if String.eqb k' k then Some v else find k rest
  end.

(* ===================================================================== *)
(** ** Errors and outcomes *)
(* ===================================================================== *)

(** A thrown [Error]: [code] is [None] for a plain [new Error(message)],
    and the code of the class for a [GraphQLLDError] or [QueryEngineError]. *)
Record JsError : Type := mkError {
  err_name : string;
  err_message : string;
  err_code : option string
}.

Definition Error (message : string) : JsError := mkError "Error" message None.

(** [ValidationError] of src/shared/errors/GraphQLLDError.ts *)
Definition ValidationError (message : string) : JsError :=
  mkError "ValidationError" message (Some "VALIDATION_ERROR").

(** What the run of a function has done besides computing its result:
    how many times [Math.random()] was called and how many nodes the
    SPARQL algebra factory has constructed. *)
Record Effects : Type := mkEffects {
  randomCalls : nat;
  algebraNodes : nat
}.

Definition noEffects : Effects := mkEffects 0 0.

Inductive Outcome (A : Type) : Type :=
| Ok (a : A) (fx : Effects)
| Throw (e : JsError) (fx : Effects).
Arguments Ok {A} a fx.
Arguments Throw {A} e fx.

Definition M (A : Type) : Type := Effects -> Outcome A.

Definition ret {A} (a : A) : M A := fun fx => Ok a fx.
Definition throw {A} (e : JsError) : M A := fun fx => Throw e fx.
Definition bind {A B} (m : M A) (k : A -> M B) : M B :=
  fun fx => match m fx with
            | Ok a fx' => k a fx'
            | Throw e fx' => Throw e fx'
            end.
(** [try { m } catch (error) { h }] *)
Definition tryCatch {A} (m : M A) (h : JsError -> M A) : M A :=
  fun fx => match m fx with
            | Ok a fx' => Ok a fx'
            | Throw e fx' => h e fx'
            end.

Declare Scope js_scope.
Delimit Scope js_scope with js.
Notation "x <- m ;; k" := (bind m (fun x => k))
  (at level 100, m at next level, right associativity) : js_scope.

(** A computation that neither throws nor has an effect *)
Definition pureM {A} (m : M A) (a : A) : Prop := forall fx, m fx = Ok a fx.

(** A computation that leaves the effects as they are when it returns and
    when it throws, and throws only errors without a code *)
Definition quiet {A} (m : M A) : Prop :=
  forall fx, (exists a, m fx = Ok a fx) \/
             (exists e, m fx = Throw e fx /\ err_code e = None).

(** [xs.forEach(x => body)] where the body updates the captured state [S] *)
Fixpoint forEach {A S : Type} (body : A -> S -> M S) (xs : list A) (s : S) : M S :=
  match xs with
  | [] => ret s
  | x :: rest => bind (body x s) (fun s' => forEach body rest s')
  end.

(* ===================================================================== *)
(** ** MutationConverter (src/mutation/MutationConverter.ts) *)
(* ===================================================================== *)

Module MutationConverter.

Local Open Scope js_scope.

(** What the visitor has decided at the first field *)
Inductive OperationType : Type := create | update | delete.

Definition operationTypeName (t : OperationType) : string :=
  match t with
  | create => "create"
  | update => "update"
  | delete => "delete"
  end.

(** The local variables of [convert] that its visitor reads and writes *)
Record Locals : Type := mkLocals {
  operationType : option OperationType;
  entityTypeName : option string;
  subjectHint : option Term;
  createQuads : list Quad;
  updateDeleteQuads : list Quad;
  updateInsertQuads : list Quad;
  updateWherePatterns : list Pattern;
  deleteQuads : list Quad;
  deleteWherePatterns : list Pattern
}.

Definition initialLocals : Locals :=
  mkLocals None None None [] [] [] [] [] [].

(** Assignments to the local variables *)
Definition setOperation (opType : OperationType) (entity : string)
    (hint : option Term) (st : Locals) : Locals :=
  mkLocals (Some opType) (Some entity) hint
           (createQuads st) (updateDeleteQuads st) (updateInsertQuads st)
           (updateWherePatterns st) (deleteQuads st) (deleteWherePatterns st).

Definition setCreateQuads (quads : list Quad) (st : Locals) : Locals :=
  mkLocals (operationType st) (entityTypeName st) (subjectHint st)
           quads (updateDeleteQuads st) (updateInsertQuads st)
           (updateWherePatterns st) (deleteQuads st) (deleteWherePatterns st).

Definition setUpdateArrays (deletes inserts : list Quad) (wheres : list Pattern)
    (st : Locals) : Locals :=
  mkLocals (operationType st) (entityTypeName st) (subjectHint st)
           (createQuads st) deletes inserts wheres
           (deleteQuads st) (deleteWherePatterns st).

Definition setDeleteArrays (deletes : list Quad) (wheres : list Pattern)
    (st : Locals) : Locals :=
  mkLocals (operationType st) (entityTypeName st) (subjectHint st)
           (createQuads st) (updateDeleteQuads st) (updateInsertQuads st)
           (updateWherePatterns st) deletes wheres.

(** The test [iriValue.includes('\n') || iriValue.includes('\r') ||
    iriValue.includes('>') || iriValue.includes('<')] *)
Definition hasIllegalIriChar (iriValue : string) : bool :=
  includes LF iriValue || includes CR iriValue ||
  includes ">" iriValue || includes "<" iriValue.

(** [v.toString(16)] *)
Definition toString16 (v : N) : string :=
  HexadecimalString.NilZero.string_of_uint (N.to_hex_uint v).

Definition UUID_TEMPLATE : string := "xxxxxxxx-xxxx-4xxx-yxxx-xxxxxxxxxxxx".

Section WithContext.

(** [this.context.getContextRaw()] *)
Variable context : gmap string Json.

(** The value of [(Math.random() * 16) | 0] at the n-th call of
    [Math.random()]; in the source it lies in 0..15. *)
Variable random16 : nat -> N.

Definition nextRandom16 : M N :=
  fun fx => Ok (random16 (randomCalls fx))
               (mkEffects (S (randomCalls fx)) (algebraNodes fx)).

(** [this.sparqlAlgebraFactory.createPattern(s, p, o, g)] *)
Definition createPattern (s p o g : Term) : M Pattern :=
  fun fx => Ok (mkPattern s p o g)
               (mkEffects (randomCalls fx) (S (algebraNodes fx))).

Definition createBgp (ps : list Pattern) : M Bgp :=
  fun fx => Ok (mkBgp ps) (mkEffects (randomCalls fx) (S (algebraNodes fx))).

Definition createDeleteInsert (d i : option (list Pattern)) (w : option Bgp)
  : M DeleteInsert :=
  fun fx => Ok (mkDeleteInsert d i w)
               (mkEffects (randomCalls fx) (S (algebraNodes fx))).

Definition createCompositeUpdate (us : list DeleteInsert) : M CompositeUpdate :=
  fun fx => Ok (mkCompositeUpdate us)
               (mkEffects (randomCalls fx) (S (algebraNodes fx))).

Definition quadToAlgebraPattern (q : Quad) : M Pattern :=
  createPattern (q_subject q) (q_predicate q) (q_object q) (q_graph q).

(** [quads.map(quad => this.quadToAlgebraPattern(quad))] *)
Fixpoint mapQuadToAlgebraPattern (qs : list Quad) : M (list Pattern) :=
  match qs with
  | [] => ret []
  | q :: rest =>
      p <- quadToAlgebraPattern q ;;
      ps <- mapQuadToAlgebraPattern rest ;;
      ret (p :: ps)
  end.

(** [base.endsWith] is called on whatever ['@base'] holds once it is
    truthy: a string by the contract of the context parser, a [TypeError]
    on any other value. *)
Definition expandIri (iri : string) : M string :=
  if startsWith "http://" iri || startsWith "https://" iri then ret iri
  else
    let base := context !! "@base" in
    if negb (truthy base) then ret iri
    else
      match base with
      | Some (JStr base) =>
          let cleanBase := if endsWith "/" base then dropLast 1 base else base in
          ret (cleanBase +:+ "/" +:+ iri)
      | _ => throw (mkError "TypeError" "base.endsWith is not a function" None)
      end.

(** One replacement of [/[xy]/g]: the callback of [generateUUID] *)
Definition uuidChar (c : ascii) : M string :=
  if Ascii.eqb c "x"%char || Ascii.eqb c "y"%char then
    r <- nextRandom16 ;;
    let v := if Ascii.eqb c "x"%char then r else N.lor (N.land r 3) 8 in
    ret (toString16 v)
  else ret (String c EmptyString).

Fixpoint replaceXY (template : string) : M string :=
  match template with
  | EmptyString => ret EmptyString
  | String c rest =>
      d <- uuidChar c ;;
      ds <- replaceXY rest ;;
      ret (d +:+ ds)
  end.

Definition generateUUID : M string := replaceXY UUID_TEMPLATE.

Definition parseValueNode (valueNode : ValueNode) : M Term :=
  match valueNode with
  | StringValue v => ret (Literal v XSD_STRING)
  | IntValue v => ret (Literal v XSD_INTEGER)
  | FloatValue v => ret (Literal v XSD_DOUBLE)
  | BooleanValue b => ret (Literal (if b then "true" else "false") XSD_BOOLEAN)
  | _ => throw (Error ("Unsupported GraphQL value kind: " +:+ kind valueNode))
  end.

(** The two accepted shapes of a term definition: a string, or an object
    with a string-valued ['@id'] *)
Definition termIri (term : option Json) : option string :=
  match term with
  | Some (JStr s) => Some s
  | Some (JObj props) =>
      match prop "@id" props with
      | Some (JStr s) => Some s
      | _ => None
      end
  | _ => None
  end.

Definition getPredicateIri (fieldName : string) : M Term :=
  match termIri (context !! fieldName) with
  | Some iri => ret (NamedNode iri)
  | None =>
      throw (Error ("No IRI mapping found for predicate: " +:+ fieldName +:+
                    " in the JSON-LD context."))
  end.

(** [!!getContextRaw()[key]]: the raw context is an object literal, so a
    name of [Object.prototype] that is no property of its own reads as an
    inherited member, which is truthy *)
Definition hasTruthy (key : string) : bool :=
  match context !! key with
  | Some v => truthy (Some v)
  | None => inherited key
  end.

(** [getTypeIri]. The capitalized name is tried when the exact name reads
    as a falsy value. An inherited member is no term definition, so the
    term that is then examined is that of the own property, if any. *)
Definition getTypeIri (typeName : string) : M Term :=
  let term :=
    if hasTruthy typeName then context !! typeName
    else context !! capitalize typeName in
  match termIri term with
  | Some iri => ret (NamedNode iri)
  | None =>
      match context !! "@vocab" with
      | Some (JStr vocab) => ret (NamedNode (vocab +:+ typeName))
      | _ =>
          throw (Error ("No IRI mapping found for type: " +:+ typeName +:+
                        " in the JSON-LD context."))
      end
  end.

(** The table [inversePatterns] *)
Definition inversePatterns (relationshipName : string) : option string :=
  if String.eqb relationshipName "product" then Some "reviews"
  else if String.eqb relationshipName "review" then Some "product"
  else if String.eqb relationshipName "user" then Some "posts"
  else if String.eqb relationshipName "post" then Some "user"
  else if String.eqb relationshipName "author" then Some "works"
  else if String.eqb relationshipName "work" then Some "author"
  else None.

(** [inversePatterns[relationshipName]] when it is truthy, as the property
    key it is used as: a name of the table, or the text of a member that
    the table, an object literal, inherits *)
Definition inverseNameOf (relationshipName : string) : option string :=
  match inversePatterns relationshipName with
  | Some inverseName => Some inverseName
  | None =>
      if inherited relationshipName then Some (inheritedText relationshipName)
      else None
  end.

Definition getInversePredicateIri (relationshipName : string) : M (option Term) :=
  match inverseNameOf relationshipName with
  | Some inverseName =>
      tryCatch (t <- getPredicateIri inverseName ;; ret (Some t))
               (fun _ => ret None)
  | None => ret None
  end.

Definition relationshipFields : list string :=
  ["product"; "review"; "user"; "author"; "owner"; "creator"; "parent"; "child"].

Definition isRelationshipField (fieldName : string) : bool :=
  match context !! fieldName with
  | Some (JObj props) =>
      match prop "@type" props with
      | Some (JStr "@id") => true
      | _ => existsb (String.eqb (toLowerCase fieldName)) relationshipFields
      end
  | _ => existsb (String.eqb (toLowerCase fieldName)) relationshipFields
  end.

Definition RDF_TYPE_NODE : Term := NamedNode RDF_TYPE.

(** The subject of a create: [input.id] expanded, or a minted [urn:uuid:] *)
Definition createSubject (fields : list (string * ValueNode)) : M Term :=
  match find "id" fields with
  | Some idValue =>
      match idValue with
      | StringValue iriValue =>
          if hasIllegalIriChar iriValue then
            throw (Error "Invalid IRI: contains illegal characters that could cause injection")
          else
            expandedIri <- expandIri iriValue ;;
            ret (NamedNode expandedIri)
      | _ => throw (Error "Input 'id' field must be a String for create.")
      end
  | None =>
      uuid <- generateUUID ;;
      ret (NamedNode ("urn:uuid:" +:+ uuid))
  end.

(** The callback of [inputObject.fields.forEach] in [handleCreate] *)
Definition createField (localSubject : Term) (field : string * ValueNode)
    (quads : list Quad) : M (list Quad) :=
  let fieldName := fst field in
  if String.eqb fieldName "id" then ret quads
  else
    predicateIri <- getPredicateIri fieldName ;;
    match snd field with
    | StringValue v =>
        if endsWith "Id" fieldName || isRelationshipField fieldName then
          let relationshipName :=
            if endsWith "Id" fieldName then dropLast 2 fieldName else fieldName in
          relationshipPredicateIri <- getPredicateIri relationshipName ;;
          relatedEntityIri <- expandIri v ;;
          let relatedEntityNode := NamedNode relatedEntityIri in
          let quads1 :=
            quads ++ [quad localSubject relationshipPredicateIri relatedEntityNode] in
          tryCatch
            (inversePredicateIri <- getInversePredicateIri relationshipName ;;
             match inversePredicateIri with
             | Some q => ret (quads1 ++ [quad relatedEntityNode q localSubject])
             | None => ret quads1
             end)
            (fun _ => ret quads1)
        else
          objectValue <- parseValueNode (snd field) ;;
          ret (quads ++ [quad localSubject predicateIri objectValue])
    | _ =>
        objectValue <- parseValueNode (snd field) ;;
        ret (quads ++ [quad localSubject predicateIri objectValue])
    end.

Definition handleCreate (node : FieldNode) (entityName : string)
    (quads : list Quad) : M (list Quad) :=
  match find "input" (arguments node) with
  | Some (ObjectValue fields) =>
      entityTypeIri <- getTypeIri entityName ;;
      localSubject <- createSubject fields ;;
      let quads1 := quads ++ [quad localSubject RDF_TYPE_NODE entityTypeIri] in
      forEach (createField localSubject) fields quads1
  | _ =>
      throw (Error ("Create mutation for " +:+ entityName +:+
                    " must have an 'input' object argument."))
  end.

(** The three arrays that [handleUpdate] fills *)
Record UpdateArrays : Type := mkUpdateArrays {
  insertQuads : list Quad;
  deleteQuads_ : list Quad;
  wherePatterns : list Pattern
}.

(** The callback of [inputObject.fields.forEach] in [handleUpdate] *)
Definition updateField (subject : Term) (field : string * ValueNode)
    (arrays : UpdateArrays) : M UpdateArrays :=
  let fieldName := fst field in
  if String.eqb fieldName "id" then
    throw (Error "'id' field cannot be updated via input object in update mutation.")
  else
    predicateIri <- getPredicateIri fieldName ;;
    newObjectValue <- parseValueNode (snd field) ;;
    let oldObjectVar := VariableTerm ("old_" +:+ fieldName) in
    p <- quadToAlgebraPattern (quad subject predicateIri oldObjectVar) ;;
    ret (mkUpdateArrays
           (insertQuads arrays ++ [quad subject predicateIri newObjectValue])
           (deleteQuads_ arrays ++ [quad subject predicateIri oldObjectVar])
           (wherePatterns arrays ++ [p])).

Definition handleUpdate (node : FieldNode) (subject : Term) (entityName : string)
    (arrays : UpdateArrays) : M UpdateArrays :=
  match find "input" (arguments node) with
  | Some (ObjectValue fields) =>
      arrays' <- forEach (updateField subject) fields arrays ;;
      if (length (insertQuads arrays') =? 0)%nat then
        throw (Error "Update operation has no fields to update in 'input'.")
      else ret arrays'
  | _ =>
      throw (Error ("Update mutation for " +:+ entityName +:+
                    " must have an 'input' object argument."))
  end.

Definition handleDelete (subject : Term) (deleteQuads : list Quad)
    (wherePatterns : list Pattern) : M (list Quad * list Pattern) :=
  let pVar := VariableTerm "p_del" in
  let oVar := VariableTerm "o_del" in
  patternToDelete <- quadToAlgebraPattern (quad subject pVar oVar) ;;
  ret (deleteQuads ++ [quad subject pVar oVar], wherePatterns ++ [patternToDelete]).

(** The prefix test on the mutation name *)
Definition classify (mutationName : string) : option (OperationType * string) :=
  if startsWith "create" mutationName then
    Some (create, substringFrom (String.length "create") mutationName)
  else if startsWith "update" mutationName then
    Some (update, substringFrom (String.length "update") mutationName)
  else if startsWith "delete" mutationName then
    Some (delete, substringFrom (String.length "delete") mutationName)
  else None.

(** The body of [if (!operationType) { ... }] in the [Field] visitor *)
Definition identifyOperation (node : FieldNode) (st : Locals) : M Locals :=
  match classify (name node) with
  | None =>
      throw (Error ("Unsupported mutation operation: " +:+ name node +:+
                    ". Must start with create, update, or delete."))
  | Some (create, entity) => ret (setOperation create entity (subjectHint st) st)
  | Some (opType, entity) =>
      match find "id" (arguments node) with
      | Some (StringValue iriValue) =>
          if hasIllegalIriChar iriValue then
            throw (Error "Invalid IRI: contains illegal characters that could cause injection")
          else
            expandedIri <- expandIri iriValue ;;
            ret (setOperation opType entity (Some (NamedNode expandedIri)) st)
      | _ =>
          throw (Error (operationTypeName opType +:+
                        " mutations require an 'id' argument of type String."))
      end
  end.

(** [entityTypeName!] inside a template literal *)
Definition entityNameOf (st : Locals) : string :=
  match entityTypeName st with
  | Some e => e
  | None => "null"
  end.

(** The part of the [Field] visitor that follows the identification *)
Definition processField (node : FieldNode) (st : Locals) : M Locals :=
  match operationType st, subjectHint st with
  | Some create, _ =>
      quads <- handleCreate node (entityNameOf st) (createQuads st) ;;
      ret (setCreateQuads quads st)
  | Some update, Some subject =>
      arrays <- handleUpdate node subject (entityNameOf st)
                  (mkUpdateArrays (updateInsertQuads st) (updateDeleteQuads st)
                                  (updateWherePatterns st)) ;;
      ret (setUpdateArrays (deleteQuads_ arrays) (insertQuads arrays)
                           (wherePatterns arrays) st)
  | Some delete, Some subject =>
      r <- handleDelete subject (deleteQuads st) (deleteWherePatterns st) ;;
      ret (setDeleteArrays (fst r) (snd r) st)
  | _, _ => ret st
  end.

(** The [Field] visitor; it returns [false], so nested fields are not visited *)
Definition visitField (node : FieldNode) (st : Locals) : M Locals :=
  st1 <- match operationType st with
         | None => identifyOperation node st
         | Some _ => ret st
         end ;;
  processField node st1.

(** The [OperationDefinition] visitor, then the fields of the operation *)
Definition visitOperation (op : OperationDefinitionNode) (st : Locals) : M Locals :=
  match operation op with
  | OpMutation => forEach visitField (selections op) st
  | _ => throw (Error "Only mutation operations are supported.")
  end.

Definition visit (ast : DocumentNode) (st : Locals) : M Locals :=
  forEach visitOperation ast st.

Definition nonEmpty {A} (l : list A) : bool := negb (length l =? 0)%nat.

(** The construction of the operation that follows [visit] in [convert] *)
Definition buildOperation (st : Locals) : M CompositeUpdate :=
  let failed :=
    throw (Error "Failed to convert mutation to SPARQL algebra. Operation type might be unhandled or input was empty.") in
  match operationType st with
  | Some create =>
      if nonEmpty (createQuads st) then
        ins <- mapQuadToAlgebraPattern (createQuads st) ;;
        insertOperation <- createDeleteInsert None (Some ins) None ;;
        createCompositeUpdate [insertOperation]
      else failed
  | Some update =>
      if nonEmpty (updateInsertQuads st) || nonEmpty (updateDeleteQuads st) then
        if negb (nonEmpty (updateInsertQuads st)) && negb (nonEmpty (updateDeleteQuads st)) then
          throw (Error "Update operation resulted in no changes. Input might be empty or invalid.")
        else
          whereBgp <- createBgp (updateWherePatterns st) ;;
          del <- (if nonEmpty (updateDeleteQuads st)
                  then (ps <- mapQuadToAlgebraPattern (updateDeleteQuads st) ;; ret (Some ps))
                  else ret None) ;;
          ins <- (if nonEmpty (updateInsertQuads st)
                  then (ps <- mapQuadToAlgebraPattern (updateInsertQuads st) ;; ret (Some ps))
                  else ret None) ;;
          updateOperation <- createDeleteInsert del ins (Some whereBgp) ;;
          createCompositeUpdate [updateOperation]
      else failed
  | Some delete =>
      if nonEmpty (deleteQuads st) then
        whereBgp <- createBgp (deleteWherePatterns st) ;;
        del <- mapQuadToAlgebraPattern (deleteQuads st) ;;
        deleteOperation <- createDeleteInsert (Some del) None (Some whereBgp) ;;
        createCompositeUpdate [deleteOperation]
      else failed
  | None => failed
  end.

(** [convert], on the document that [parse(mutationString)] returns *)
Definition convert (ast : DocumentNode) : M CompositeUpdate :=
  st <- visit ast initialLocals ;;
  buildOperation st.

(** [toSparql] of sparqlalgebrajs *)
Variable toSparql : CompositeUpdate -> string.

(** [convertToSparql], on the parsed mutation string and the number of
    keys of [variables] (0 when it is omitted) *)
Definition convertToSparql (ast : DocumentNode) (variableCount : nat) : M string :=
  if (0 <? variableCount)%nat then
    throw (Error "Variable substitution is not yet implemented in mutation conversion")
  else
    algebra <- convert ast ;;
    ret (toSparql algebra).

End WithContext.

End MutationConverter.

(* ===================================================================== *)
(** ** The validators (src/shared/validation/InputValidator.ts) *)
(* ===================================================================== *)

Module IriValidator.

(** A member of the character class of [DISALLOWED_CHARS]: U+0000 to
    U+0020, the angle brackets, the double quote, the braces, the bar, the
    backslash, the caret and the backquote *)
Definition isDisallowedChar (c : ascii) : bool :=
  let n := nat_of_ascii c in
  (n <=? 32)%nat ||
  existsb (Nat.eqb n) [60; 62; 34; 123; 125; 124; 92; 94; 96]%nat.

(** [DISALLOWED_CHARS.test(iri)] *)
Fixpoint DISALLOWED_CHARS_test (iri : string) : bool :=
  match iri with
  | EmptyString => false
  | String c rest => isDisallowedChar c || DISALLOWED_CHARS_test rest
  end.

(** [[a-z0-9+.-]] under the flag [i] *)
Definition isSchemeChar (c : ascii) : bool :=
  isLetter c || isDigit c || existsb (Ascii.eqb c) ["+"; "."; "-"]%char.

(** What follows [[a-z0-9+.-]*:] at the start of [s]. The class holds no
    colon, so the colon of a match is the first colon of [s]. *)
Fixpoint afterSchemeChars (s : string) : option string :=
  match s with
  | EmptyString => None
  | String c rest =>
      if Ascii.eqb c ":" then Some rest
      else if isSchemeChar c then afterSchemeChars rest
      else None
  end.

(** What follows [^[a-z][a-z0-9+.-]*:] *)
Definition afterScheme (iri : string) : option string :=
  match iri with
  | EmptyString => None
  | String c rest => if isLetter c then afterSchemeChars rest else None
  end.

(** [SCHEME_PATTERN.test(iri)] *)
Definition SCHEME_PATTERN_test (iri : string) : bool :=
  match afterScheme iri with
  | Some _ => true
  | None => false
  end.

(** [GENERAL_IRI_PATTERN.test(iri)] *)
Definition GENERAL_IRI_PATTERN_test (iri : string) : bool :=
  match afterScheme iri with
  | Some rest => negb (DISALLOWED_CHARS_test rest)
  | None => false
  end.

(** A literal prefix under the flag [i], and what follows it *)
Fixpoint afterLiteral (literal s : string) : option string :=
  match literal, s with
  | EmptyString, _ => Some s
  | String a literal', String b s' =>
      if Ascii.eqb (toLowerChar a) (toLowerChar b) then afterLiteral literal' s'
      else None
  | String _ _, EmptyString => None
  end.

(** [[a-z0-9-]] and [[a-z0-9()+,\-.:=@;$_!*'%/?#]] under the flag [i] *)
Definition isNidChar (c : ascii) : bool :=
  isLetter c || isDigit c || Ascii.eqb c "-".

Definition isNssChar (c : ascii) : bool :=
  isLetter c || isDigit c ||
  existsb (Ascii.eqb c) (list_ascii_of_string "()+,-.:=@;$_!*'%/?#").

(** What follows [[a-z0-9-]{0,n}:] at the start of [s]; the class holds no
    colon, so the run ends at the first colon *)
Fixpoint afterNid (n : nat) (s : string) : option string :=
  match s with
  | EmptyString => None
  | String c rest =>
      if Ascii.eqb c ":" then Some rest
      else if isNidChar c then
        match n with
        | O => None
        | S n' => afterNid n' rest
        end
      else None
  end.

(** The test of
    [/^urn:[a-z0-9][a-z0-9-]{0,31}:[a-z0-9()+,\-.:=@;$_!*'%/?#]+$/i] *)
Definition URN_PATTERN_test (iri : string) : bool :=
  match afterLiteral "urn:" iri with
  | Some (String c rest) =>
      (isLetter c || isDigit c) &&
      match afterNid 31 rest with
      | Some nss => negb (String.eqb nss "") && every isNssChar nss
      | None => false
      end
  | _ => false
  end.

(** The test of [/^file:\/\/\/[^<>...\x00-\x20]+$/], the class being the
    complement of [DISALLOWED_CHARS] *)
Definition FILE_PATTERN_test (iri : string) : bool :=
  startsWith "file:///" iri &&
  let rest := substringFrom 8 iri in
  negb (String.eqb rest "") && negb (DISALLOWED_CHARS_test rest).

Section WithUrl.

(** [new URL(iri).hostname], or [None] when the constructor throws *)
Variable urlHostname : string -> option string.

(** [validateIri]: [inl] is the thrown [ValidationError], [inr tt] a
    normal return *)
Definition validateIri (iri : string) : JsError + unit :=
  if String.eqb iri "" || String.eqb (trim iri) "" then
    inl (ValidationError "Invalid IRI: must be a non-empty string")
  else if DISALLOWED_CHARS_test iri then
    inl (ValidationError "Invalid IRI: contains disallowed characters")
  else if negb (SCHEME_PATTERN_test iri) then
    inl (ValidationError "Invalid IRI: missing or invalid scheme")
  else if startsWith "urn:" iri then
    if negb (URN_PATTERN_test iri) then inl (ValidationError "Invalid URN format")
    else inr tt
  else if startsWith "file:" iri then
    if negb (FILE_PATTERN_test iri) then
      inl (ValidationError "Invalid file URI format")
    else inr tt
  else if startsWith "http://" iri || startsWith "https://" iri then
    match urlHostname iri with
    | Some hostname =>
        if String.eqb hostname "" then
          inl (ValidationError "Invalid HTTP(S) URI format")
        else inr tt
    | None => inl (ValidationError "Invalid HTTP(S) URI format")
    end
  else if negb (GENERAL_IRI_PATTERN_test iri) then
    inl (ValidationError "Invalid IRI format")
  else if includes "//" iri && negb (startsWith "file:" iri) then
    inl (ValidationError
           "Invalid IRI: double slashes only allowed in HTTP(S) and file URIs")
  else inr tt.

End WithUrl.

End IriValidator.

Module GraphQLInputValidator.

(** [error instanceof ValidationError] *)
Definition isValidationError (error : JsError) : bool :=
  String.eqb (err_name error) "ValidationError".

(** [try { ... } catch (error) { ... }] around a nested validation: a
    [ValidationError] is thrown again under a longer message, any other
    error as it is *)
Definition rethrow (prefix : string) (r : JsError + unit) : JsError + unit :=
  match r with
  | inl error =>
      if isValidationError error then
        inl (ValidationError (prefix +:+ err_message error))
      else inl error
  | inr tt => inr tt
  end.

(** [item && typeof item === 'object'] *)
Definition isObjectLike (v : JsValue) : bool :=
  match v with
  | VArr _ | VObj _ | VDate => true
  | _ => false
  end.

Definition showNat (n : nat) : string :=
  DecimalString.NilZero.string_of_uint (Nat.to_uint n).

(** What the engine throws at a call for which the call stack has no room *)
Definition RangeError : JsError :=
  mkError "RangeError" "Maximum call stack size exceeded" None.

Section WithUrl.

Variable urlHostname : string -> option string.

(** [validateMutationInput] on a call stack with room for [stack] nested
    calls of the function, each with the calls it makes besides. The
    function calls itself on every object among the values and among the
    items of the arrays, and keeps no count of the depth, so the call that
    finds no room throws the [RangeError] of the engine. An input that
    holds itself behaves on such a stack as an unfolding of it that nests
    deeper than the stack has room, which is a [JsValue].
    The entries of a [Date] are none. The test on a key lowers its ASCII
    letters: the letters above U+007F that [toLowerCase()] lowers besides
    give neither [i] nor [d]. *)
Fixpoint validateMutationInput (stack : nat) (input : JsValue) : JsError + unit :=
  match stack with
  | O => inl RangeError
  | S room =>
      match input with
      | VObj entries =>
          (fix eachEntry (es : list (string * JsValue)) : JsError + unit :=
             match es with
             | [] => inr tt
             | (key, value) :: rest =>
                 let iriChecked :=
                   match value with
                   | VStr s =>
                       if includes "id" (toLowerCase key) then
                         rethrow ("Invalid IRI in field " +:+ DQUOTE +:+ key +:+ DQUOTE +:+ ": ")
                                 (IriValidator.validateIri urlHostname s)
                       else inr tt
                   | _ => inr tt
                   end in
                 match iriChecked with
                 | inl error => inl error
                 | inr _ =>
                     let nestedChecked :=
                       match value with
                       | VArr items =>
                           (fix eachItem (items : list JsValue) (index : nat)
                              : JsError + unit :=
                              match items with
                              | [] => inr tt
                              | item :: more =>
                                  let itemChecked :=
                                    if isObjectLike item then
                                      rethrow ("Invalid array item at index " +:+ showNat index +:+
                                               " in field " +:+ DQUOTE +:+ key +:+ DQUOTE +:+ ": ")
                                              (validateMutationInput room item)
                                    else inr tt in
                                  match itemChecked with
                                  | inl error => inl error
                                  | inr _ => eachItem more (S index)
                                  end
                              end) items O
                       | VObj _ | VDate =>
                           rethrow ("Invalid nested object in field " +:+ DQUOTE +:+ key +:+
                                    DQUOTE +:+ ": ")
                                   (validateMutationInput room value)
                       | _ => inr tt
                       end in
                     match nestedChecked with
                     | inl error => inl error
                     | inr _ =>
                         match value with
                         | VDate | VFunction _ =>
                             inl (ValidationError ("Invalid value type at key " +:+ DQUOTE +:+
                                                   key +:+ DQUOTE))
                         | _ => eachEntry rest
                         end
                     end
                 end
             end) entries
      | VDate => inr tt
      | _ => inl (ValidationError "Invalid input: must be a non-null object")
      end
  end.

End WithUrl.

End GraphQLInputValidator.

Module SparqlValidator.

Definition MAX_QUERY_LENGTH : N := 10000.

Definition FORBIDDEN_OPERATIONS : list string :=
  ["DROP"; "CREATE"; "LOAD"; "CLEAR"; "DELETE"; "INSERT"; "UPDATE"].

(** The loop over the characters: [None] when the count went negative *)
Fixpoint countBraces (query : string) (braceCount : Z) : option Z :=
  match query with
  | EmptyString => Some braceCount
  | String c rest =>
      let b1 := if Ascii.eqb c "{"%char then (braceCount + 1)%Z else braceCount in
      let b2 := if Ascii.eqb c "}"%char then (b1 - 1)%Z else b1 in
      if (b2 <? 0)%Z then None else countBraces rest b2
  end.

(** [validateQuery]: [inl] is the thrown [ValidationError], [inr tt] a
    normal return *)
Definition validateQuery (query : string) : JsError + unit :=
  if String.eqb query "" then
    inl (ValidationError "Invalid query: must be a non-empty string")
  else if (MAX_QUERY_LENGTH <? N.of_nat (String.length query))%N then
    inl (ValidationError "Query exceeds maximum length")
  else
    let upperQuery := toUpperCase query in
    match List.find (fun operation => includes operation upperQuery)
                    FORBIDDEN_OPERATIONS with
    | Some operation =>
        inl (ValidationError ("Query contains forbidden operation: " +:+ operation))
    | None =>
        if negb (startsWith "SELECT" upperQuery) &&
           negb (startsWith "CONSTRUCT" upperQuery) then
          inl (ValidationError "Query must start with SELECT or CONSTRUCT")
        else if negb (includes "WHERE" upperQuery) then
          inl (ValidationError "Query must contain WHERE clause")
        else
          match countBraces query 0 with
          | None => inl (ValidationError "Query has unbalanced braces")
          | Some braceCount =>
              if negb (braceCount =? 0)%Z then
                inl (ValidationError "Query has unbalanced braces")
              else inr tt
          end
    end.

End SparqlValidator.

(* ===================================================================== *)
(** ** Thrown values and settled promises *)
(* ===================================================================== *)

(** A value caught by [catch (error)], by the tests the code applies to it *)
Inductive Thrown : Type :=
| QueryEngineError (message code : string)   (* instanceof QueryEngineError *)
| OtherError (e : JsError)                   (* another instance of Error *)
| NonError (str : string).                   (* not an Error; [String(error)] *)

(** [error instanceof Error ? error.message : String(error)] *)
Definition messageOf (error : Thrown) : string :=
  match error with
  | QueryEngineError message _ => message
  | OtherError e => err_message e
  | NonError str => str
  end.

(** The outcome of awaiting a promise *)
Inductive Settled (A : Type) : Type :=
| Resolved (a : A)
| Rejected (error : Thrown).
Arguments Resolved {A} a.
Arguments Rejected {A} error.

(** [QueryEngineOptions]; [None] is an absent member *)
Record QueryEngineOptions : Type := mkOptions {
  timeout : option Z;
  maxResults : option Z;
  validateQuery : option bool
}.

Definition showZ (z : Z) : string :=
  DecimalString.NilZero.string_of_int (Z.to_int z).

(* ===================================================================== *)
(** ** QueryEngineSparqlEndpoint (src/engine/QueryEngineSparqlEndpoint.ts) *)
(* ===================================================================== *)

Module QueryEngineSparqlEndpoint.

Record Request : Type := mkRequest {
  url : string;
  method : string;
  headers : list (string * string);
  body : string
}.

(** A [Response]: [text] and [json] are what awaiting [response.text()]
    and [response.json()] gives *)
Record Response : Type := mkResponse {
  ok : bool;
  status : Z;
  statusText : string;
  text : Settled string;
  json : Settled Json
}.

Definition defaultOptions : QueryEngineOptions :=
  mkOptions (Some 30000%Z) (Some 1000%Z) (Some true).

Definition orElse {A} (a b : option A) : option A :=
  match a with
  | Some _ => a
  | None => b
  end.

(** [{ ...this.defaultOptions, ...options }] *)
Definition mergeOptions (options : option QueryEngineOptions) : QueryEngineOptions :=
  match options with
  | None => defaultOptions
  | Some o =>
      mkOptions (orElse (timeout o) (timeout defaultOptions))
                (orElse (maxResults o) (maxResults defaultOptions))
                (orElse (validateQuery o) (validateQuery defaultOptions))
  end.

(** [typeof v === 'object'] and [v] truthy *)
Definition isObject (v : option Json) : bool :=
  match v with
  | Some (JObj _) | Some (JArr _) => true
  | _ => false
  end.

(** [r[k]] where [r] is any object *)
Definition member (k : string) (v : option Json) : option Json :=
  match v with
  | Some (JObj props) => prop k props
  | _ => None
  end.

Definition isArray (v : option Json) : bool :=
  match v with
  | Some (JArr _) => true
  | _ => false
  end.

Definition isSparqlQueryResult (result : Json) : bool :=
  isObject (Some result) &&
  isObject (member "head" (Some result)) &&
  isArray (member "vars" (member "head" (Some result))) &&
  isObject (member "results" (Some result)) &&
  isArray (member "bindings" (member "results" (Some result))).

(** [o[k] = v] on an existing property *)
Fixpoint assign (k : string) (v : Json) (props : list (string * Json))
  : list (string * Json) :=
  match props with
  | [] => [(k, v)]
  | (k', v') :: rest =>
      if String.eqb k k' then (k, v) :: rest else (k', v') :: assign k v rest
  end.

(** [xs.slice(0, n)] *)
Definition slice0 {A} (n : Z) (xs : list A) : list A :=
  if (0 <=? n)%Z then firstn (Z.to_nat n) xs
  else firstn (length xs - Z.to_nat (- n)) xs.

(** The truncation of [result.results.bindings] to [maxResults] *)
Definition applyMaxResults (maxResults : option Z) (result : Json) : Json :=
  match maxResults, result with
  | Some n, JObj props =>
      match prop "results" props with
      | Some (JObj rprops) =>
          match prop "bindings" rprops with
          | Some (JArr bindings) =>
              if negb (n =? 0)%Z && (n <? Z.of_nat (length bindings))%Z then
                JObj (assign "results"
                        (JObj (assign "bindings" (JArr (slice0 n bindings)) rprops))
                        props)
              else result
          | _ => result
          end
      | _ => result
      end
  | _, _ => result
  end.

Section WithEndpoint.

(** The algebra handed to [query], and [toSparql] of sparqlalgebrajs on
    it: the query string, or what the serializer throws *)
Variable Operation : Type.
Variable toSparql : Operation -> Thrown + string.

Variable endpointUrl : string.

(** [fetch(url, init)] under an abort signal that fires after the given
    delay: the network's answer, or the rejection of the promise *)
Variable fetch : Request -> Z -> Settled Response.

Definition timeoutOf (mergedOptions : QueryEngineOptions) : Z :=
  match timeout mergedOptions with
  | Some t => t
  | None => 0%Z
  end.

(** The [catch] block of [query] *)
Definition queryCatch (mergedOptions : QueryEngineOptions) (error : Thrown)
  : Settled Json :=
  match error with
  | QueryEngineError _ _ => Rejected error
  | OtherError e =>
      if String.eqb (err_name e) "AbortError" then
        Rejected (QueryEngineError
                    ("Query timed out after " +:+ showZ (timeoutOf mergedOptions) +:+ "ms")
                    "TIMEOUT")
      else
        Rejected (QueryEngineError ("Query execution failed: " +:+ err_message e)
                                   "EXECUTION_ERROR")
  | NonError _ =>
      Rejected (QueryEngineError "Unknown error occurred during query execution"
                                 "UNKNOWN_ERROR")
  end.

(** The [try] block of [query], from the response on *)
Definition queryResponse (mergedOptions : QueryEngineOptions) (response : Response)
  : Settled Json :=
  if negb (ok response) then
    match text response with
    | Resolved errorText =>
        Rejected (QueryEngineError
                    ("SPARQL query failed: " +:+ statusText response +:+ " - " +:+ errorText)
                    ("HTTP_" +:+ showZ (status response)))
    | Rejected error => Rejected error
    end
  else
    match json response with
    | Resolved result =>
        if negb (isSparqlQueryResult result) then
          Rejected (QueryEngineError "Invalid SPARQL JSON response structure"
                                     "INVALID_RESPONSE_FORMAT")
        else Resolved (applyMaxResults (maxResults mergedOptions) result)
    | Rejected error => Rejected error
    end.

(** [query]. The algebra is serialized before the [try] block is entered,
    so what [toSparql] throws rejects the promise as it is. *)
Definition query (sparqlAlgebra : Operation) (options : option QueryEngineOptions)
  : Settled Json :=
  let mergedOptions := mergeOptions options in
  match toSparql sparqlAlgebra with
  | inl error => Rejected error
  | inr sparql =>
      let attempt :=
        match fetch (mkRequest endpointUrl "POST"
                       [("Content-Type", "application/sparql-query");
                        ("Accept", "application/sparql-results+json")]
                       sparql)
                    (timeoutOf mergedOptions) with
        | Resolved response => queryResponse mergedOptions response
        | Rejected error => Rejected error
        end in
      match attempt with
      | Resolved result => Resolved result
      | Rejected error => queryCatch mergedOptions error
      end
  end.

End WithEndpoint.

Arguments query {Operation} toSparql endpointUrl fetch sparqlAlgebra options.

(** [SparqlUpdateResult] *)
Record SparqlUpdateResult : Type := mkUpdateResult {
  ur_success : bool;
  ur_message : string
}.

Section WithUpdateEndpoint.

(** The arguments of the constructor, the second one optional *)
Variable endpointUrl : string.
Variable updateEndpointUrlArg : option string.

Variable fetch : Request -> Z -> Settled Response.

(** [this.updateEndpointUrl = updateEndpointUrl || endpointUrl] *)
Definition updateEndpointUrl : string :=
  match updateEndpointUrlArg with
  | Some u => if String.eqb u "" then endpointUrl else u
  | None => endpointUrl
  end.

(** The [catch] block of [update] *)
Definition updateCatch (mergedOptions : QueryEngineOptions) (error : Thrown)
  : Settled SparqlUpdateResult :=
  match error with
  | QueryEngineError _ _ => Rejected error
  | OtherError e =>
      if String.eqb (err_name e) "AbortError" then
        Rejected (QueryEngineError
                    ("Update operation timed out after " +:+
                     showZ (timeoutOf mergedOptions) +:+ "ms")
                    "TIMEOUT")
      else
        Rejected (QueryEngineError ("Update operation failed: " +:+ err_message e)
                                   "EXECUTION_ERROR")
  | NonError _ =>
      Rejected (QueryEngineError "Unknown error occurred during update operation"
                                 "UNKNOWN_ERROR")
  end.

(** The [try] block of [update], from the response on *)
Definition updateResponse (response : Response) : Settled SparqlUpdateResult :=
  if negb (ok response) then
    match text response with
    | Resolved errorText =>
        Rejected (QueryEngineError
                    ("SPARQL UPDATE failed: " +:+ statusText response +:+ " - " +:+ errorText)
                    ("HTTP_" +:+ showZ (status response)))
    | Rejected error => Rejected error
    end
  else Resolved (mkUpdateResult true "Update operation completed successfully.").

Definition update (sparqlUpdate : string) (options : option QueryEngineOptions)
  : Settled SparqlUpdateResult :=
  let mergedOptions := mergeOptions options in
  let attempt :=
    match fetch (mkRequest updateEndpointUrl "POST"
                   [("Content-Type", "application/sparql-update")]
                   sparqlUpdate)
                (timeoutOf mergedOptions) with
    | Resolved response => updateResponse response
    | Rejected error => Rejected error
    end in
  match attempt with
  | Resolved result => Resolved result
  | Rejected error => updateCatch mergedOptions error
  end.

End WithUpdateEndpoint.

End QueryEngineSparqlEndpoint.

(* ===================================================================== *)
(** ** Client (src/client/Client.ts) *)
(* ===================================================================== *)

Module Client.

(** [new GraphQLError(message, ..., originalError, extensions)] *)
Record GraphQLError : Type := mkGraphQLError {
  gql_message : string;
  originalError : option JsError;
  extensions : list (string * string)
}.

(** [ExecutionResult] *)
Record ExecutionResult (D : Type) : Type := mkExecutionResult {
  data : option D;
  errors : option (list GraphQLError)
}.
Arguments mkExecutionResult {D} data errors.
Arguments data {D} e.
Arguments errors {D} e.

(** [error instanceof Error ? error : undefined] *)
Definition asError (error : Thrown) : option JsError :=
  match error with
  | QueryEngineError message code => Some (mkError "QueryEngineError" message (Some code))
  | OtherError e => Some e
  | NonError _ => None
  end.

(** [valueToValueNode]: the entries of a [Date] are none, and what is
    neither null, a string, a number, a boolean, an array nor an object
    becomes the string that [String(value)] gives *)
Fixpoint valueToValueNode (value : JsValue) : ValueNode :=
  match value with
  | VNull => NullValue
  | VStr s => StringValue s
  | VNum isInteger str => if isInteger then IntValue str else FloatValue str
  | VBool b => BooleanValue b
  | VArr items => ListValue (map valueToValueNode items)
  | VObj entries =>
      ObjectValue (map (fun entry => (fst entry, valueToValueNode (snd entry))) entries)
  | VDate => ObjectValue []
  | VUndefined => StringValue "undefined"
  | VFunction str => StringValue str
  end.

(** [convertVariablesToValueNodes] *)
Definition convertVariablesToValueNodes (variables : list (string * JsValue))
  : list (string * ValueNode) :=
  map (fun entry => (fst entry, valueToValueNode (snd entry))) variables.

Section WithEngine.

(** The types of the collaborators *)
Variable Source : Type.          (* [string | DocumentNode] *)
Variable Operation : Type.       (* [Algebra.Operation] *)
Variable Singularize : Type.     (* [ISingularizeVariables] *)
Variable SparqlJson : Type.      (* [SparqlQueryResult] *)
Variable UpdateResult : Type.    (* [SparqlUpdateResult] *)
Variable Tree : Type.            (* the result of [sparqlJsonResultsToTree] *)

(** [QueryEngine]; [update] is optional *)
Record QueryEngine : Type := mkQueryEngine {
  query_ : Operation -> option QueryEngineOptions -> Settled SparqlJson;
  update_ : option (string -> option QueryEngineOptions -> Settled UpdateResult)
}.

Inductive QueryArgs : Type :=
| QueryArgsRaw (query : Source) (variables : option (list (string * Json)))
               (queryEngineOptions : option QueryEngineOptions)
| QueryArgsSparql (sparqlAlgebra : Operation) (singularizeVariables : Singularize)
                  (queryEngineOptions : option QueryEngineOptions).

(** The fields of the client and the libraries it calls *)
Variable context : gmap string Json.
Variable queryEngine : QueryEngine.
Variable random16 : nat -> N.
(** [parse] of graphql on the printed source: a syntax error or a document *)
Variable parse : Source -> JsError + DocumentNode.
Variable toSparql : CompositeUpdate -> string.
(** [graphqlToSparqlAlgebra] of graphql-to-sparql with the singularize map
    it fills, on the query and the variables turned into value nodes *)
Variable graphqlToSparqlAlgebra :
  Source -> list (string * Json) -> Settled (Operation * Singularize).
(** [sparqlJsonResultsToTree] of sparqljson-to-tree *)
Variable sparqlJsonResultsToTree : SparqlJson -> Singularize -> Thrown + Tree.

(** [{ success: true, details }] under [data.mutate] *)
Record MutateData : Type := mkMutateData {
  success : bool;
  details : UpdateResult
}.

Definition variableCount (variables : option (list (string * Json))) : nat :=
  match variables with
  | Some vs => length vs
  | None => 0
  end.

(** The [try]/[catch] that ends [mutate] *)
Definition executeUpdate
    (update : string -> option QueryEngineOptions -> Settled UpdateResult)
    (sparqlUpdate : string) (queryEngineOptions : option QueryEngineOptions)
  : Settled (ExecutionResult MutateData) :=
  match update sparqlUpdate queryEngineOptions with
  | Resolved sparqlJsonResult =>
      Resolved (mkExecutionResult (Some (mkMutateData true sparqlJsonResult)) None)
  | Rejected error =>
      match error with
      | QueryEngineError _ _ => Rejected error
      | _ =>
          Resolved (mkExecutionResult None
            (Some [mkGraphQLError ("Mutation failed: " +:+ messageOf error)
                                  (asError error)
                                  [("code", "MUTATION_ERROR")]]))
      end
  end.

Definition mutate (args : QueryArgs) : Settled (ExecutionResult MutateData) :=
  match args with
  | QueryArgsRaw query variables queryEngineOptions =>
      if (0 <? variableCount variables)%nat then
        Rejected (QueryEngineError
                    "GraphQL variables in mutations are not yet fully supported."
                    "UNSUPPORTED_FEATURE")
      else
        match parse query with
        | inl syntaxError => Rejected (OtherError syntaxError)
        | inr ast =>
            match MutationConverter.convertToSparql context random16 toSparql
                    ast (variableCount variables) noEffects with
            | Throw e _ => Rejected (OtherError e)
            | Ok sparqlUpdate _ =>
                match update_ queryEngine with
                | None =>
                    Rejected (QueryEngineError
                                "Mutations are not supported by the current query engine."
                                "UNSUPPORTED_OPERATION")
                | Some update => executeUpdate update sparqlUpdate queryEngineOptions
                end
            end
        end
  | QueryArgsSparql _ _ _ =>
      Rejected (QueryEngineError
                  "Only GraphQL mutation string input is supported for mutations in this client."
                  "INVALID_INPUT")
  end.

Definition graphQlToSparql (query : Source) (variables : list (string * Json))
  : Settled (Operation * Singularize) :=
  match graphqlToSparqlAlgebra query variables with
  | Resolved r => Resolved r
  | Rejected error =>
      Rejected (QueryEngineError
                  ("GraphQL to SPARQL conversion failed: " +:+ messageOf error)
                  "CONVERSION_ERROR")
  end.

(** The [catch] block of [query] *)
Definition queryCatch {A} (error : Thrown) : Settled A :=
  match error with
  | QueryEngineError _ _ => Rejected error
  | _ =>
      Rejected (QueryEngineError ("Query execution failed: " +:+ messageOf error)
                                 "EXECUTION_ERROR")
  end.

(** The [try] block of [query] once the algebra is at hand *)
Definition executeQuery (sparqlAlgebra : Operation) (singularizeVariables : Singularize)
    (queryEngineOptions : option QueryEngineOptions)
  : Settled (ExecutionResult Tree) :=
  match query_ queryEngine sparqlAlgebra queryEngineOptions with
  | Resolved sparqlJsonResult =>
      match sparqlJsonResultsToTree sparqlJsonResult singularizeVariables with
      | inr tree => Resolved (mkExecutionResult (Some tree) None)
      | inl error => queryCatch error
      end
  | Rejected error => queryCatch error
  end.

Definition query (args : QueryArgs) : Settled (ExecutionResult Tree) :=
  match args with
  | QueryArgsRaw query variables queryEngineOptions =>
      match graphQlToSparql query (default [] variables) with
      | Resolved (sparqlAlgebra, singularizeVariables) =>
          executeQuery sparqlAlgebra singularizeVariables queryEngineOptions
      | Rejected error => queryCatch error
      end
  | QueryArgsSparql sparqlAlgebra singularizeVariables queryEngineOptions =>
      executeQuery sparqlAlgebra singularizeVariables queryEngineOptions
  end.

End WithEngine.

Arguments mkQueryEngine {Operation SparqlJson UpdateResult} query_ update_.
Arguments query_ {Operation SparqlJson UpdateResult} q.
Arguments update_ {Operation SparqlJson UpdateResult} q.
Arguments QueryArgsRaw {Source Operation Singularize} query variables queryEngineOptions.
Arguments QueryArgsSparql {Source Operation Singularize}
  sparqlAlgebra singularizeVariables queryEngineOptions.
Arguments mkMutateData {UpdateResult} success details.
Arguments executeUpdate {UpdateResult} update sparqlUpdate queryEngineOptions.
Arguments mutate {Source Operation Singularize SparqlJson UpdateResult}
  context queryEngine random16 parse toSparql args.
Arguments graphQlToSparql {Source Operation Singularize}
  graphqlToSparqlAlgebra query variables.
Arguments executeQuery {Operation Singularize SparqlJson UpdateResult Tree}
  queryEngine sparqlJsonResultsToTree sparqlAlgebra singularizeVariables
  queryEngineOptions.
Arguments query {Source Operation Singularize SparqlJson UpdateResult Tree}
  queryEngine graphqlToSparqlAlgebra sparqlJsonResultsToTree args.

End Client.

(* ===================================================================== *)
(** ** QueryCache (src/infrastructure/cache/QueryCache.ts) *)
(* ===================================================================== *)

Module QueryCache.

Section WithValue.

Variable T : Type.

Record CacheEntry : Type := mkEntry {
  value : T;
  timestamp : Z;
  expiresAt : Z
}.

(** [maxEntries] is any number; the times are counted in whole
    milliseconds, as [Date.now()] gives them *)
Record CacheConfig : Type := mkConfig {
  cfg_maxEntries : option JsNumber;
  cfg_defaultTtl : option Z;
  cfg_cleanupInterval : option Z
}.

(** The fields of a [QueryCache]; the logger and the timer hold no state
    of the cache *)
Record QueryCache : Type := mkCache {
  cache : gmap string CacheEntry;
  maxEntries : JsNumber;
  defaultTtl : Z;
  cleanupInterval : Z;
  accessOrder : list string
}.

(** [x || d] on an optional number *)
Definition orDefault (x : option Z) (d : Z) : Z :=
  match x with
  | Some n => if (n =? 0)%Z then d else n
  | None => d
  end.

Definition orDefaultNumber (x : option JsNumber) (d : JsNumber) : JsNumber :=
  match x with
  | Some n => if truthyNumber n then n else d
  | None => d
  end.

(** [new QueryCache(config)]: the capacity is kept as it is given, without
    rounding *)
Definition new (config : option CacheConfig) : QueryCache :=
  mkCache ∅
    (mathMax (Rational 1)
             (orDefaultNumber (config ≫= cfg_maxEntries) (Rational 1000)))
    (Z.max 1000 (orDefault (config ≫= cfg_defaultTtl) 300000))
    (Z.max 1000 (orDefault (config ≫= cfg_cleanupInterval) 60000))
    [].

(** [const index = xs.indexOf(key); if (index !== -1) xs.splice(index, 1)] *)
Fixpoint removeFirst (key : string) (xs : list string) : list string :=
  match xs with
  | [] => []
  | x :: rest => if String.eqb x key then rest else x :: removeFirst key rest
  end.

Definition isExpired (now : Z) (entry : CacheEntry) : bool :=
  (expiresAt entry <? now)%Z.

Definition updateAccessOrder (key : string) (c : QueryCache) : QueryCache :=
  mkCache (cache c) (maxEntries c) (defaultTtl c) (cleanupInterval c)
          (removeFirst key (accessOrder c) ++ [key]).

Definition delete (key : string) (c : QueryCache) : QueryCache :=
  mkCache (base.delete key (cache c)) (maxEntries c) (defaultTtl c)
          (cleanupInterval c) (removeFirst key (accessOrder c)).

Definition evictOldest (c : QueryCache) : QueryCache :=
  match accessOrder c with
  | oldestKey :: _ => delete oldestKey c
  | [] => c
  end.

(** [get] at time [now]: the value returned and the cache afterwards *)
Definition get (key : string) (now : Z) (c : QueryCache) : option T * QueryCache :=
  match cache c !! key with
  | None => (None, c)
  | Some entry =>
      if isExpired now entry then (None, delete key c)
      else (Some (value entry), updateAccessOrder key c)
  end.

(** [set] at time [now] *)
Definition set (key : string) (v : T) (ttl : option Z) (now : Z) (c : QueryCache)
  : QueryCache :=
  let c1 :=
    if geNumber (Z.of_nat (size (cache c))) (maxEntries c) then evictOldest c else c in
  let entry := mkEntry v now (now + Z.max 1000 (orDefault ttl (defaultTtl c1)))%Z in
  updateAccessOrder key
    (mkCache (<[key := entry]> (cache c1)) (maxEntries c1) (defaultTtl c1)
             (cleanupInterval c1) (accessOrder c1)).

Definition clear (c : QueryCache) : QueryCache :=
  mkCache ∅ (maxEntries c) (defaultTtl c) (cleanupInterval c) [].

(** [cleanup] at time [now]: every expired entry is deleted *)
Definition cleanup (now : Z) (c : QueryCache) : QueryCache :=
  fold_left (fun c' kv => if isExpired now (snd kv) then delete (fst kv) c' else c')
            (map_to_list (cache c)) c.

(** [getStats().size] *)
Definition statsSize (c : QueryCache) : Z := Z.of_nat (size (cache c)).

(** The operations a client or the timer can apply to a cache *)
Inductive Op : Type :=
| OpGet (key : string) (now : Z)
| OpSet (key : string) (v : T) (ttl : option Z) (now : Z)
| OpDelete (key : string)
| OpClear
| OpCleanup (now : Z).

Definition apply (op : Op) (c : QueryCache) : QueryCache :=
  match op with
  | OpGet key now => snd (get key now c)
  | OpSet key v ttl now => set key v ttl now c
  | OpDelete key => delete key c
  | OpClear => clear c
  | OpCleanup now => cleanup now c
  end.

(** A cache as a program can hold it: constructed, then operated on *)
Inductive reachable : QueryCache -> Prop :=
| reachable_new : forall config, reachable (new config)
| reachable_apply : forall op c, reachable c -> reachable (apply op c).

End WithValue.

Arguments mkEntry {T} value timestamp expiresAt.
Arguments mkCache {T} cache maxEntries defaultTtl cleanupInterval accessOrder.
Arguments value {T} c.
Arguments timestamp {T} c.
Arguments expiresAt {T} c.
Arguments isExpired {T} now entry.
Arguments cache {T} q.
Arguments maxEntries {T} q.
Arguments defaultTtl {T} q.
Arguments cleanupInterval {T} q.
Arguments accessOrder {T} q.
Arguments new {T} config.
Arguments delete {T} key c.
Arguments evictOldest {T} c.
Arguments updateAccessOrder {T} key c.
Arguments get {T} key now c.
Arguments set {T} key v ttl now c.
Arguments clear {T} c.
Arguments cleanup {T} now c.
Arguments statsSize {T} c.
Arguments apply {T} op c.
Arguments reachable {T} c.
Arguments OpGet {T} key now.
Arguments OpSet {T} key v ttl now.
Arguments OpDelete {T} key.
Arguments OpClear {T}.
Arguments OpCleanup {T} now.

End QueryCache.

(* ===================================================================== *)
(** ** Logger (src/shared/monitoring/Logger.ts) *)
(* ===================================================================== *)

Module Logger.

Inductive LogLevel : Type := DEBUG | INFO | WARN | ERROR.

(** The values of the enumeration *)
Definition levelValue (level : LogLevel) : string :=
  match level with
  | DEBUG => "debug"
  | INFO => "info"
  | WARN => "warn"
  | ERROR => "error"
  end.

(** [Object.values(LogLevel)] *)
Definition levels : list LogLevel := [DEBUG; INFO; WARN; ERROR].

(** [xs.indexOf(x)] from the index [i] on *)
Fixpoint indexOfFrom (x : LogLevel) (xs : list LogLevel) (i : Z) : Z :=
  match xs with
  | [] => (-1)%Z
  | y :: rest =>
      if String.eqb (levelValue y) (levelValue x) then i
      else indexOfFrom x rest (i + 1)%Z
  end.

Definition indexOf (x : LogLevel) (xs : list LogLevel) : Z := indexOfFrom x xs 0.

(** [LoggerConfig] as the constructor leaves it *)
Record LoggerConfig : Type := mkLoggerConfig {
  minLevel : LogLevel;
  enableConsole : bool;
  enableMetrics : bool;
  metricsEndpoint : option string
}.

(** [Partial<LoggerConfig>]; [None] is an absent member *)
Record PartialConfig : Type := mkPartialConfig {
  p_minLevel : option LogLevel;
  p_enableConsole : option bool;
  p_enableMetrics : option bool;
  p_metricsEndpoint : option string
}.

(** [{ ...base, ...config }] *)
Definition spread (base : LoggerConfig) (config : PartialConfig) : LoggerConfig :=
  mkLoggerConfig
    (default (minLevel base) (p_minLevel config))
    (default (enableConsole base) (p_enableConsole config))
    (default (enableMetrics base) (p_enableMetrics config))
    (match p_metricsEndpoint config with
     | Some endpoint => Some endpoint
     | None => metricsEndpoint base
     end).

(** The fields of a [Logger] *)
Record Logger : Type := mkLogger {
  config : LoggerConfig;
  metrics : gmap string Z
}.

(** [new Logger(config)] *)
Definition new (config : PartialConfig) : Logger :=
  mkLogger (spread (mkLoggerConfig INFO true false None) config) ∅.

(** [getInstance(config)] on the static field [Logger.instance], which
    holds the returned logger afterwards *)
Definition getInstance (config : option PartialConfig) (instance : option Logger)
  : Logger :=
  match instance with
  | None => new (default (mkPartialConfig None None None None) config)
  | Some logger =>
      match config with
      | Some config => mkLogger (spread (Logger.config logger) config) (metrics logger)
      | None => logger
      end
  end.

(** [incrementMetric(name, value = 1)] *)
Definition incrementMetric (name : string) (value : option Z) (logger : Logger)
  : Logger :=
  if negb (enableMetrics (config logger)) then logger
  else
    let current := default 0%Z (metrics logger !! name) in
    mkLogger (config logger)
             (<[name := (current + default 1%Z value)%Z]> (metrics logger)).

(** [getMetrics()], the entries of the map as an object *)
Definition getMetrics (logger : Logger) : gmap string Z := metrics logger.

Definition resetMetrics (logger : Logger) : Logger := mkLogger (config logger) ∅.

Definition shouldLog (level : LogLevel) (logger : Logger) : bool :=
  let minLevelIndex := indexOf (minLevel (config logger)) levels in
  let currentLevelIndex := indexOf level levels in
  (minLevelIndex <=? currentLevelIndex)%Z.

(** The [error] of an entry, by its message and its stack *)
Record ErrorValue : Type := mkErrorValue {
  error_message : string;
  error_stack : option string
}.

Section WithStringify.

(** [Record<string, unknown>] and
    [JSON.stringify(context, getCircularReplacer(), 2)], which is [None]
    when it throws *)
Variable Context_ : Type.
Variable stringify : Context_ -> option string.

Record LogEntry : Type := mkLogEntry {
  timestamp : string;
  level : LogLevel;
  message : string;
  context : option Context_;
  error : option ErrorValue
}.

(** The text that [writeToConsole] hands to the console *)
Definition output (entry : LogEntry) : string :=
  let output :=
    timestamp entry +:+ " [" +:+ toUpperCase (levelValue (level entry)) +:+ "] " +:+
    message entry in
  let output :=
    match context entry with
    | Some context =>
        match stringify context with
        | Some text => output +:+ LF +:+ "Context: " +:+ text
        | None => output +:+ LF +:+ "Context: [Unable to stringify context]"
        end
    | None => output
    end in
  match error entry with
  | Some error =>
      let output := output +:+ LF +:+ "Error: " +:+ error_message error in
      match error_stack error with
      | Some stack => if String.eqb stack "" then output else output +:+ LF +:+ stack
      | None => output
      end
  | None => output
  end.

(** The calls of [console.debug], [console.info], [console.warn] and
    [console.error] so far, each with its argument *)
Definition Console : Type := list (LogLevel * string).

Definition writeToConsole (entry : LogEntry) (console : Console) : Console :=
  console ++ [(level entry, output entry)].

(** [log] at the time whose [toISOString()] is [now] *)
Definition log (level : LogLevel) (message : string) (context : option Context_)
    (error : option ErrorValue) (now : string) (state : Logger * Console)
  : Logger * Console :=
  let (logger, console) := state in
  if shouldLog level logger then
    let entry := mkLogEntry now level message context error in
    let console :=
      if enableConsole (config logger) then writeToConsole entry console
      else console in
    let logger :=
      match level with
      | ERROR => incrementMetric "errors_total" None logger
      | _ => logger
      end in
    (logger, console)
  else (logger, console).

Definition debug (message : string) (context : option Context_) :=
  log DEBUG message context None.

Definition info (message : string) (context : option Context_) :=
  log INFO message context None.

Definition warn (message : string) (context : option Context_) :=
  log WARN message context None.

Definition error_ (message : string) (error : option ErrorValue)
    (context : option Context_) :=
  log ERROR message context error.

End WithStringify.

Arguments mkLogEntry {Context_} timestamp level message context error.
Arguments timestamp {Context_} l.
Arguments level {Context_} l.
Arguments message {Context_} l.
Arguments context {Context_} l.
Arguments error {Context_} l.
Arguments output {Context_} stringify entry.
Arguments writeToConsole {Context_} stringify entry console.
Arguments log {Context_} stringify level message context error now state.
Arguments debug {Context_} stringify message context now state.
Arguments info {Context_} stringify message context now state.
Arguments warn {Context_} stringify message context now state.
Arguments error_ {Context_} stringify message error context now state.

End Logger.

(* ===================================================================== *)
(** ** Notions used by the statements *)
(* ===================================================================== *)

Import MutationConverter.

(** *** The resolver in the words of the specification *)

(** The ['@base'] entry is absent, [null] or a string, as the context
    parser leaves it *)
Definition baseWellTyped (context : gmap string Json) : Prop :=
  match context !! "@base" with
  | None | Some JNull | Some (JStr _) => True
  | Some _ => False
  end.

(** The base that the context defines: the code takes a base as defined
    when it is truthy, so the empty string defines none *)
Definition definedBase (context : gmap string Json) : option string :=
  match context !! "@base" with
  | Some (JStr base) => if String.eqb base "" then None else Some base
  | _ => None
  end.

(** [expand_iri] in the words of the specification *)
Definition expand_iri_spec (context : gmap string Json) (v : string) : string :=
  if startsWith "http://" v || startsWith "https://" v then v
  else
    match definedBase context with
    | Some base =>
        (if endsWith "/" base then dropLast 1 base else base) +:+ "/" +:+ v
    | None => v
    end.

(** [type_iri] in the words of the specification: the term of the exact
    name, else the term of the capitalized name, else ['@vocab'] followed
    by the name; a term is a string or an object with a string ['@id'] *)
Definition type_iri_spec (context : gmap string Json) (name : string) : option string :=
  match termIri (context !! name) with
  | Some iri => Some iri
  | None =>
      match termIri (context !! capitalize name) with
      | Some iri => Some iri
      | None =>
          match context !! "@vocab" with
          | Some (JStr vocab) => Some (vocab +:+ name)
          | _ => None
          end
      end
  end.

(** What the context holds under a name is a term or nothing: it is truthy
    exactly when it is a term. This leaves out a name that the context
    only inherits, a truthy value that is no term, and the empty string. *)
Definition termOrNothing (context : gmap string Json) (name : string) : Prop :=
  hasTruthy context name = true <-> is_Some (termIri (context !! name)).

(** The relationship that an input field of a create names: the field
    without its suffix [Id], or the field *)
Definition relationshipNameOf (fieldName : string) : string :=
  if endsWith "Id" fieldName then dropLast 2 fieldName else fieldName.

(** The field ends in [Id] or is a relationship field *)
Definition isRelationshipInput (context : gmap string Json) (fieldName : string) : bool :=
  endsWith "Id" fieldName || isRelationshipField context fieldName.

(** *** Documents and compiled operations *)

(** The root fields of a document, in the order of the visit *)
Definition rootFields (ast : DocumentNode) : list FieldNode :=
  flat_map selections ast.

(** A mutation document with one operation and one root field *)
Definition singleMutation (node : FieldNode) : DocumentNode :=
  [mkOperation OpMutation [node]].


(** The members of a [DeleteInsert] as lists of patterns *)
Definition deletePatterns (di : DeleteInsert) : list Pattern :=
  default [] (di_delete di).

Definition insertPatterns (di : DeleteInsert) : list Pattern :=
  default [] (di_insert di).

Definition wherePatternsOf (di : DeleteInsert) : list Pattern :=
  match di_where di with
  | Some bgp => patterns bgp
  | None => []
  end.

(** The operation and the effects of a compilation from [noEffects] *)
Definition compiled (context : gmap string Json) (random16 : nat -> N)
    (ast : DocumentNode) : CompositeUpdate :=
  match convert context random16 ast noEffects with
  | Ok operation _ => operation
  | Throw _ _ => mkCompositeUpdate []
  end.

Definition effectsOf (context : gmap string Json) (random16 : nat -> N)
    (ast : DocumentNode) : Effects :=
  match convert context random16 ast noEffects with
  | Ok _ fx1 => fx1
  | Throw _ fx1 => fx1
  end.

(** A character of the class [[0-9a-f-]] *)
Definition isUuidClassChar (c : ascii) : bool :=
  let n := nat_of_ascii c in
  ((48 <=? n)%nat && (n <=? 57)%nat) || ((97 <=? n)%nat && (n <=? 102)%nat) ||
  (n =? 45)%nat.

Fixpoint allChars (P : ascii -> bool) (s : string) : bool :=
  match s with
  | EmptyString => true
  | String c rest => P c && allChars P rest
  end.

(** A match of [[0-9a-f-]{36}] *)
Definition matchesUuidPattern (u : string) : bool :=
  (String.length u =? 36)%nat && allChars isUuidClassChar u.

(** *** What the visitor maintains *)

(** [quadToAlgebraPattern] without the count of the nodes *)
Definition quadPattern (q : Quad) : Pattern :=
  mkPattern (q_subject q) (q_predicate q) (q_object q) (q_graph q).

Definition quadVars (q : Quad) : list string := patternVars (quadPattern q).

(** Quads without variables *)
Definition ground (quads : list Quad) : Prop :=
  Forall (fun q => quadVars q = []) quads.

(** On the local variables of [convert]: the quads to insert hold no
    variable, every where pattern is the pattern of the delete quad pushed
    with it, and the subject is a named node *)
Definition wellFormedLocals (st : Locals) : Prop :=
  ground (createQuads st) /\
  ground (updateInsertQuads st) /\
  updateWherePatterns st = map quadPattern (updateDeleteQuads st) /\
  deleteWherePatterns st = map quadPattern (deleteQuads st) /\
  (forall s, subjectHint st = Some s -> exists iri, s = NamedNode iri).

(** The delete quad of an update for the input field [f] *)
Definition oldValueQuad (subject : Term) (iri f : string) : Quad :=
  quad subject (NamedNode iri) (VariableTerm ("old_" +:+ f)).

(** The arrays of an update before and after a sequence of input fields *)
Definition extendsUpdate (subject : Term) (arrays arrays1 : UpdateArrays) : Prop :=
  exists ins del,
    insertQuads arrays1 = insertQuads arrays ++ ins /\
    deleteQuads_ arrays1 = deleteQuads_ arrays ++ del /\
    wherePatterns arrays1 = wherePatterns arrays ++ map quadPattern del /\
    ground ins.

(** The quads that [handleCreate] pushes for one input field when it does
    not throw: nothing for [id]; the forward quad and, when the inverse
    table and the context give an inverse predicate, the inverse quad for a
    string-valued relationship field; a literal quad otherwise. *)
Inductive fieldEmits (context : gmap string Json) (localSubject : Term)
  : string * ValueNode -> list Quad -> Prop :=
| emits_id v : fieldEmits context localSubject ("id", v) []
| emits_relationship f v p0 p inv :
    f <> "id" ->
    isRelationshipInput context f = true ->
    termIri (context !! f) = Some p0 ->
    termIri (context !! relationshipNameOf f) = Some p ->
    pureM (getInversePredicateIri context (relationshipNameOf f)) inv ->
    fieldEmits context localSubject (f, StringValue v)
      (quad localSubject (NamedNode p) (NamedNode (expand_iri_spec context v)) ::
       match inv with
       | Some q => [quad (NamedNode (expand_iri_spec context v)) q localSubject]
       | None => []
       end)
| emits_literal f val p objectValue :
    f <> "id" ->
    (forall v, val = StringValue v -> isRelationshipInput context f = false) ->
    termIri (context !! f) = Some p ->
    pureM (parseValueNode val) objectValue ->
    fieldEmits context localSubject (f, val)
      [quad localSubject (NamedNode p) objectValue].

(** The triples that a create emits for one root field: the type triple,
    then the triples of the input fields, among which those with the
    predicate [rdf:type] belong to fields that the context maps, by the
    field, its relationship or the inverse of it, to [rdf:type] *)
Definition typedBlock (context : gmap string Json) (random16 : nat -> N)
    (typeIri : Term) (node : FieldNode) (block : list Pattern) : Prop :=
  exists fields localSubject others fxa fxb,
    find "input" (arguments node) = Some (ObjectValue fields) /\
    createSubject context random16 fields fxa = Ok localSubject fxb /\
    block = mkPattern localSubject RDF_TYPE_NODE typeIri DefaultGraph :: others /\
    forall t, In t others -> predicate t = RDF_TYPE_NODE ->
      exists f v termName,
        In (f, v) fields /\ f <> "id" /\
        (termName = f \/ termName = relationshipNameOf f \/
         inverseNameOf (relationshipNameOf f) = Some termName) /\
        termIri (context !! termName) = Some RDF_TYPE.

(** *** The cache *)

(** The access order lists the keys of the map, each once *)
Definition consistent {T} (c : QueryCache.QueryCache T) : Prop :=
  NoDup (QueryCache.accessOrder c) /\
  forall k, k ∈ QueryCache.accessOrder c <-> is_Some (QueryCache.cache c !! k).

(** [n <= x] and [n < x + 1] for a whole number [n] and a number [x] *)
Definition atLeast (n : Z) (x : JsNumber) : Prop :=
  match x with
  | Rational q => (inject_Z n <= q)%Q
  | Infinity => True
  | MinusInfinity | NaN => False
  end.

Definition underCapacity (n : Z) (x : JsNumber) : Prop :=
  match x with
  | Rational q => (inject_Z n < q + 1)%Q
  | Infinity => True
  | MinusInfinity | NaN => False
  end.

(** The number [x] is the whole number [m] *)
Definition isWhole (x : JsNumber) (m : Z) : Prop :=
  match x with
  | Rational q => (q == inject_Z m)%Q
  | _ => False
  end.

(** The capacity is a number from 1 on, and the size is less than one
    above it *)
Definition withinCapacity {T} (c : QueryCache.QueryCache T) : Prop :=
  atLeast 1 (QueryCache.maxEntries c) /\
  underCapacity (QueryCache.statsSize c) (QueryCache.maxEntries c).

(** *** The client *)




(** *** Inputs of the examples *)

(** The context of the scenarios: the terms of S1, those of S7 with a term
    for the field [productId] besides, and a term [kind] mapped to
    [rdf:type] *)
Definition exampleContext : gmap string Json :=
  list_to_map
    [("@base", JStr "http://example.org/");
     ("User", JStr "http://example.org/User");
     ("Review", JStr "http://schema.org/Review");
     ("name", JStr "http://xmlns.com/foaf/0.1/name");
     ("age", JObj [("@id", JStr "http://example.org/age");
                   ("@type", JStr "http://www.w3.org/2001/XMLSchema#integer")]);
     ("kind", JStr RDF_TYPE);
     ("productId", JStr "http://schema.org/productId");
     ("product", JObj [("@id", JStr "http://schema.org/itemReviewed");
                       ("@type", JStr "@id")]);
     ("reviews", JObj [("@id", JStr "http://schema.org/review");
                       ("@type", JStr "@id")])].

(** The context of S7: [product] and [reviews] are relationships, which
    the inverse table pairs; [productId] is no term of it *)
Definition reviewContext : gmap string Json :=
  list_to_map
    [("Review", JStr "http://schema.org/Review");
     ("rating", JStr "http://schema.org/ratingValue");
     ("reviewer", JStr "http://schema.org/author");
     ("product", JObj [("@id", JStr "http://schema.org/itemReviewed");
                       ("@type", JStr "@id")]);
     ("reviews", JObj [("@id", JStr "http://schema.org/review");
                       ("@type", JStr "@id");
                       ("@container", JStr "@set")])].

(** S1: [createUser(input: {id: "ex:user1", name: "Alice", age: 30})] *)
Definition createUserField : FieldNode :=
  mkField "createUser"
    [("input", ObjectValue [("id", StringValue "ex:user1");
                            ("name", StringValue "Alice");
                            ("age", IntValue "30")])].

Definition createUserMutation : DocumentNode := singleMutation createUserField.

(** S3: [updateUser(id: "ex:user1", input: {name: "Alicia", age: 31})] *)
Definition updateUserField : FieldNode :=
  mkField "updateUser"
    [("id", StringValue "ex:user1");
     ("input", ObjectValue [("name", StringValue "Alicia");
                            ("age", IntValue "31")])].

Definition updateUserMutation : DocumentNode := singleMutation updateUserField.

(** S4: [deleteUser(id: "ex:user1")] *)
Definition deleteUserMutation : DocumentNode :=
  singleMutation (mkField "deleteUser" [("id", StringValue "ex:user1")]).

(** S7 with an explicit id:
    [createReview(input: {id: "ex:r1", productId: "ex:p1"})] *)
Definition createReviewField : FieldNode :=
  mkField "createReview"
    [("input", ObjectValue [("id", StringValue "ex:r1");
                            ("productId", StringValue "ex:p1")])].

Definition createReviewMutation : DocumentNode := singleMutation createReviewField.






(** S7: [createReview(input: {productId: "ex:p1", rating: 5,
    reviewer: "a@b"})] *)
Definition createProductReviewMutation : DocumentNode :=
  singleMutation
    (mkField "createReview"
       [("input", ObjectValue [("productId", StringValue "ex:p1");
                               ("rating", IntValue "5");
                               ("reviewer", StringValue "a@b")])]).

(** A create with a field that the context maps to [rdf:type] *)
Definition createKindMutation : DocumentNode :=
  singleMutation
    (mkField "createUser"
       [("input", ObjectValue [("id", StringValue "ex:user1");
                               ("kind", StringValue "Person")])]).

(** A mutation with two root fields, [createUser] and [createReview] *)
Definition createUserAndReviewMutation : DocumentNode :=
  [mkOperation OpMutation
     [mkField "createUser"
        [("input", ObjectValue [("id", StringValue "ex:user1");
                                ("name", StringValue "Alice")])];
      mkField "createReview"
        [("input", ObjectValue [("id", StringValue "ex:r1")])]]].

(** A context with a term [Constructor] and a vocabulary, and the create
    of an entity named [constructor] *)
Definition constructorContext : gmap string Json :=
  list_to_map
    [("@vocab", JStr "http://schema.org/");
     ("Constructor", JStr "http://example.org/Constructor")].

Definition createConstructorMutation : DocumentNode :=
  singleMutation
    (mkField "createconstructor"
       [("input", ObjectValue [("id", StringValue "http://example.org/c1")])]).

(** A cache of capacity 2 holding [a] (the older) and [b] *)
Definition fullCache : QueryCache.QueryCache nat :=
  QueryCache.apply (QueryCache.OpSet "b" 2 None 0%Z)
    (QueryCache.apply (QueryCache.OpSet "a" 1 None 0%Z)
       (QueryCache.new (Some (QueryCache.mkConfig (Some (Rational 2)) None None)))).

(** A cache of capacity 1.5, after the writes of [a] and of [b] *)
Definition fractionalCache : QueryCache.QueryCache nat :=
  QueryCache.apply (QueryCache.OpSet "b" 2 None 0%Z)
    (QueryCache.apply (QueryCache.OpSet "a" 1 None 0%Z)
       (QueryCache.new (Some (QueryCache.mkConfig (Some (Rational (3 # 2))) None None)))).

(** An engine whose calls fail with [new Error('Network error')] *)
Definition networkError : Thrown := OtherError (Error "Network error").


(** An endpoint that answers every request with the same JSON document *)
Definition answering (result : Json)
  : QueryEngineSparqlEndpoint.Request -> Z -> Settled QueryEngineSparqlEndpoint.Response :=
  fun _ _ =>
    Resolved (QueryEngineSparqlEndpoint.mkResponse true 200 "OK"
                (Resolved "") (Resolved result)).

Definition emptyResult : Json :=
  JObj [("head", JObj [("vars", JArr [])]);
        ("results", JObj [("bindings", JArr [])])].

(** *** The validators *)

(** The number of occurrences of a character *)
Fixpoint occurrences (c : ascii) (s : string) : Z :=
  match s with
  | EmptyString => 0
  | String d rest => (if Ascii.eqb d c then 1 else 0) + occurrences c rest
  end%Z.

(** As many closing braces as opening ones, and no prefix with more
    closing than opening ones *)
Definition balancedBraces (query : string) : Prop :=
  occurrences "{" query = occurrences "}" query /\
  forall p rest, query = p +:+ rest -> (occurrences "}" p <= occurrences "{" p)%Z.

(** A string of characters below U+0080, on which [toUpperCase] and
    [length] are those of the embedding *)
Definition isAscii (s : string) : bool :=
  every (fun c => (nat_of_ascii c <? 128)%nat) s.

(** The messages of [validateIri] other than that of the general pattern *)
Definition IRI_MESSAGES : list string :=
  ["Invalid IRI: must be a non-empty string";
   "Invalid IRI: contains disallowed characters";
   "Invalid IRI: missing or invalid scheme";
   "Invalid URN format";
   "Invalid file URI format";
   "Invalid HTTP(S) URI format";
   "Invalid IRI: double slashes only allowed in HTTP(S) and file URIs"].

(** The entries that [validateMutationInput] visits in an input: those of
    the object, of the objects among its values, and of the objects among
    the items of the arrays among its values *)
Inductive entryOf : JsValue -> string -> JsValue -> Prop :=
| entry_here entries key value :
    In (key, value) entries -> entryOf (VObj entries) key value
| entry_nested entries field nested key value :
    In (field, nested) entries -> entryOf nested key value ->
    entryOf (VObj entries) key value
| entry_item entries field items item key value :
    In (field, VArr items) entries -> In item items -> entryOf item key value ->
    entryOf (VObj entries) key value.

(** The checks of one entry in [validateMutationInput]: of a string under
    a key that holds [id], of the items of an array, of a nested object *)
Definition iriChecked (urlHostname : string -> option string) (key : string)
    (value : JsValue) : JsError + unit :=
  match value with
  | VStr s =>
      if includes "id" (toLowerCase key) then
        GraphQLInputValidator.rethrow
          ("Invalid IRI in field " +:+ DQUOTE +:+ key +:+ DQUOTE +:+ ": ")
          (IriValidator.validateIri urlHostname s)
      else inr tt
  | _ => inr tt
  end.

Definition itemsChecked (urlHostname : string -> option string) (room : nat)
    (key : string) : list JsValue -> nat -> JsError + unit :=
  fix eachItem (items : list JsValue) (index : nat) : JsError + unit :=
    match items with
    | [] => inr tt
    | item :: more =>
        match (if GraphQLInputValidator.isObjectLike item then
                 GraphQLInputValidator.rethrow
                   ("Invalid array item at index " +:+
                    GraphQLInputValidator.showNat index +:+
                    " in field " +:+ DQUOTE +:+ key +:+ DQUOTE +:+ ": ")
                   (GraphQLInputValidator.validateMutationInput urlHostname room item)
               else inr tt) with
        | inl error => inl error
        | inr _ => eachItem more (S index)
        end
    end.

Definition nestedChecked (urlHostname : string -> option string) (room : nat)
    (key : string) (value : JsValue) : JsError + unit :=
  match value with
  | VArr items => itemsChecked urlHostname room key items O
  | VObj _ | VDate =>
      GraphQLInputValidator.rethrow
        ("Invalid nested object in field " +:+ DQUOTE +:+ key +:+ DQUOTE +:+ ": ")
        (GraphQLInputValidator.validateMutationInput urlHostname room value)
  | _ => inr tt
  end.

(** How deep a value nests values: 1 for a value that holds none *)
Fixpoint nesting (v : JsValue) : nat :=
  match v with
  | VArr items => S (fold_right (fun item n => Nat.max (nesting item) n) 0%nat items)
  | VObj entries =>
      S (fold_right (fun entry n => Nat.max (nesting (snd entry)) n) 0%nat entries)
  | _ => 1
  end.

(** An error that [validateMutationInput] may throw on an input with a
    stack: a [ValidationError], or the [RangeError] where the input nests
    deeper than the stack has room *)
Definition validationOrOverflow (stack : nat) (input : JsValue) (error : JsError) : Prop :=
  (exists message, error = ValidationError message) \/
  (error = GraphQLInputValidator.RangeError /\ (stack < nesting input)%nat).

(** *** The endpoint and the values of the client *)

(** [result.results.bindings] when it is an array, and [result.head] *)
Definition bindingsOf (result : Json) : option (list Json) :=
  match QueryEngineSparqlEndpoint.member "bindings"
          (QueryEngineSparqlEndpoint.member "results" (Some result)) with
  | Some (JArr bindings) => Some bindings
  | _ => None
  end.

Definition headOf (result : Json) : option Json :=
  QueryEngineSparqlEndpoint.member "head" (Some result).

(** The values of JSON: null, booleans, numbers, strings, and the arrays
    and objects of such *)
Fixpoint isJsonValue (v : JsValue) : bool :=
  match v with
  | VNull | VBool _ | VNum _ _ | VStr _ => true
  | VArr items => forallb isJsonValue items
  | VObj entries => forallb (fun entry => isJsonValue (snd entry)) entries
  | VUndefined | VDate | VFunction _ => false
  end.

(** *** The logger *)

(** The order of the levels *)
Definition severity (level : Logger.LogLevel) : nat :=
  match level with
  | Logger.DEBUG => 0
  | Logger.INFO => 1
  | Logger.WARN => 2
  | Logger.ERROR => 3
  end.

(** *** More on documents and compiled operations *)

(** Every operation of the document is a mutation *)
Definition onlyMutations (ast : DocumentNode) : Prop :=
  Forall (fun op => operation op = OpMutation) ast.

(** The pattern that matches every triple of a subject *)
Definition anyTripleOf (subject : Term) : Pattern :=
  mkPattern subject (VariableTerm "p_del") (VariableTerm "o_del") DefaultGraph.

(** The values that [parseValueNode] turns into literals *)
Definition supportedValue (v : ValueNode) : bool :=
  match v with
  | StringValue _ | IntValue _ | FloatValue _ | BooleanValue _ => true
  | _ => false
  end.

(** The number of characters [x] and [y] of a template *)
Fixpoint placeholders (template : string) : nat :=
  match template with
  | EmptyString => 0
  | String c rest =>
      (if Ascii.eqb c "x" || Ascii.eqb c "y" then 1 else 0) + placeholders rest
  end.

(** *** More inputs of the examples *)

(** A [URL] constructor that refuses every string *)
Definition noUrl : string -> option string := fun _ => None.

(** A result with three bindings *)
Definition threeBindings : Json :=
  JObj [("head", JObj [("vars", JArr [JStr "s"])]);
        ("results", JObj [("bindings", JArr [JNum 1; JNum 2; JNum 3])])].

(** A query document, which the converter refuses *)
Definition queryDocument : DocumentNode :=
  [mkOperation OpQuery [mkField "users" []]].

(** A create with a field that the context of the examples does not map *)
Definition createNicknameField : FieldNode :=
  mkField "createUser"
    [("input", ObjectValue [("id", StringValue "ex:user1");
                            ("nickname", StringValue "Al")])].

(** A logger that writes nothing below WARN and nothing to the console,
    and counts *)
Definition quietCountingLogger : Logger.Logger :=
  Logger.new (Logger.mkPartialConfig (Some Logger.WARN) (Some false) (Some true) None).

(* ===================================================================== *)
(** * Properties *)
(* ===================================================================== *)

(* --------------------------------------------------------------------- *)
(** ** The scenarios of the specification, run on the embedding *)
(* --------------------------------------------------------------------- *)

(** S1: create with an explicit id *)
Example scenario_create_with_id :
  exists fx1,
    convert exampleContext (fun _ => 7%N) createUserMutation noEffects
      = Ok (mkCompositeUpdate
              [mkDeleteInsert None
                 (Some [mkPattern (NamedNode "http://example.org/ex:user1") RDF_TYPE_NODE
                                  (NamedNode "http://example.org/User") DefaultGraph;
                        mkPattern (NamedNode "http://example.org/ex:user1")
                                  (NamedNode "http://xmlns.com/foaf/0.1/name")
                                  (Literal "Alice" XSD_STRING) DefaultGraph;
                        mkPattern (NamedNode "http://example.org/ex:user1")
                                  (NamedNode "http://example.org/age")
                                  (Literal "30" XSD_INTEGER) DefaultGraph])
                 None])
           fx1.
Proof. eexists. reflexivity. Qed.

(** S3: update *)
Example scenario_update :
  exists fx1,
    convert exampleContext (fun _ => 7%N) updateUserMutation noEffects
      = Ok (mkCompositeUpdate
              [mkDeleteInsert
                 (Some [mkPattern (NamedNode "http://example.org/ex:user1")
                                  (NamedNode "http://xmlns.com/foaf/0.1/name")
                                  (VariableTerm "old_name") DefaultGraph;
                        mkPattern (NamedNode "http://example.org/ex:user1")
                                  (NamedNode "http://example.org/age")
                                  (VariableTerm "old_age") DefaultGraph])
                 (Some [mkPattern (NamedNode "http://example.org/ex:user1")
                                  (NamedNode "http://xmlns.com/foaf/0.1/name")
                                  (Literal "Alicia" XSD_STRING) DefaultGraph;
                        mkPattern (NamedNode "http://example.org/ex:user1")
                                  (NamedNode "http://example.org/age")
                                  (Literal "31" XSD_INTEGER) DefaultGraph])
                 (Some (mkBgp
                    [mkPattern (NamedNode "http://example.org/ex:user1")
                               (NamedNode "http://xmlns.com/foaf/0.1/name")
                               (VariableTerm "old_name") DefaultGraph;
                     mkPattern (NamedNode "http://example.org/ex:user1")
                               (NamedNode "http://example.org/age")
                               (VariableTerm "old_age") DefaultGraph]))])
           fx1.
Proof. eexists. reflexivity. Qed.

(** S4: delete *)
Example scenario_delete :
  exists fx1,
    convert exampleContext (fun _ => 7%N) deleteUserMutation noEffects
      = Ok (mkCompositeUpdate
              [mkDeleteInsert
                 (Some [mkPattern (NamedNode "http://example.org/ex:user1")
                                  (VariableTerm "p_del") (VariableTerm "o_del")
                                  DefaultGraph])
                 None
                 (Some (mkBgp
                    [mkPattern (NamedNode "http://example.org/ex:user1")
                               (VariableTerm "p_del") (VariableTerm "o_del")
                               DefaultGraph]))])
           fx1.
Proof. eexists. reflexivity. Qed.

(** The subject minted for a create without id, on the draws 0, 1, 2, ... *)
Example scenario_minted_subject :
  createSubject exampleContext (fun i => (N.of_nat i mod 16)%N)
                [("name", StringValue "Bob")] noEffects
    = Ok (NamedNode "urn:uuid:01234567-89ab-4cde-b012-3456789abcde") (mkEffects 31 0).
Proof. reflexivity. Qed.

(** The least recently used key goes when a third key enters a cache of
    capacity 2, as the tests of the cache expect *)
Example scenario_eviction :
  let c := QueryCache.set "c" 3 None 0%Z fullCache in
  QueryCache.cache c !! "a" = None /\
  QueryCache.value <$> (QueryCache.cache c !! "b") = Some 2 /\
  QueryCache.value <$> (QueryCache.cache c !! "c") = Some 3 /\
  QueryCache.accessOrder c = ["b"; "c"].
Proof. vm_compute. repeat split. Qed.

(* --------------------------------------------------------------------- *)
(** ** expand_iri *)
(* --------------------------------------------------------------------- *)

Lemma expandIri_ok context v fx :
  baseWellTyped context ->
  expandIri context v fx = Ok (expand_iri_spec context v) fx.
Proof.
  unfold baseWellTyped, expandIri, expand_iri_spec, definedBase.
  intros Hwf.
  destruct (startsWith "http://" v || startsWith "https://" v); [reflexivity|].
  destruct (context !! "@base") as [[| b | z | s | items | props]|];
    simpl in *; try reflexivity; try contradiction.
  destruct (String.eqb s ""); reflexivity.
Qed.

(** C5. [expandIri] returns its argument when it starts with http:// or
    https://; otherwise, when the context defines a base, the base without
    its trailing slash, a slash and the argument, whatever the argument
    contains; otherwise its argument. *)
Theorem expandIri_refines_expand_iri (context : gmap string Json) (v : string)
    (fx : Effects) :
  baseWellTyped context ->
  expandIri context v fx = Ok (expand_iri_spec context v) fx /\
  (startsWith "http://" v || startsWith "https://" v = true ->
   expand_iri_spec context v = v) /\
  (startsWith "http://" v || startsWith "https://" v = false ->
   forall base, definedBase context = Some base ->
   expand_iri_spec context v =
     (if endsWith "/" base then dropLast 1 base else base) +:+ "/" +:+ v) /\
  (startsWith "http://" v || startsWith "https://" v = false ->
   definedBase context = None -> expand_iri_spec context v = v).
Proof.
  intros Hwf. split; [apply expandIri_ok; assumption|].
  unfold expand_iri_spec. repeat split.
  - intros ->. reflexivity.
  - intros -> base ->. reflexivity.
  - intros -> ->. reflexivity.
Qed.

Lemma expandIri_refines_expand_iri_witness :
  baseWellTyped exampleContext /\
  expandIri exampleContext "ex:user1" noEffects =
    Ok "http://example.org/ex:user1" noEffects.
Proof.
  split; [exact I|].
  exact (proj1 (expandIri_refines_expand_iri exampleContext "ex:user1" noEffects I)).
Defined.

(* --------------------------------------------------------------------- *)
(** ** QueryCache: the access order and the capacity *)
(* --------------------------------------------------------------------- *)

Section CacheProperties.

Context {T : Type}.
Implicit Types (c : QueryCache.QueryCache T) (l : list string) (k key : string).

Import QueryCache.

Lemma removeFirst_elem l key x :
  NoDup l -> x ∈ removeFirst key l <-> x ∈ l /\ x <> key.
Proof.
  induction l as [|y l IH]; simpl; intros Hnd.
  - split; [intros H; inversion H | intros [H _]; inversion H].
  - apply NoDup_cons in Hnd as [Hy Hnd].
    destruct (String.eqb_spec y key) as [->|Hne].
    + split.
      * intros Hx. split; [right; exact Hx|]. intros ->. contradiction.
      * intros [Hx Hxk]. apply elem_of_cons in Hx as [->|Hx]; [contradiction|exact Hx].
    + rewrite !elem_of_cons, IH by exact Hnd. split.
      * intros [->|[Hx Hxk]]; split; auto.
      * intros [[->|Hx] Hxk]; auto.
Qed.

Lemma removeFirst_NoDup l key : NoDup l -> NoDup (removeFirst key l).
Proof.
  induction l as [|y l IH]; simpl; intros Hnd; [constructor|].
  apply NoDup_cons in Hnd as [Hy Hnd].
  destruct (String.eqb_spec y key) as [->|Hne]; [exact Hnd|].
  apply NoDup_cons. split; [|apply IH; exact Hnd].
  intros Hin. apply removeFirst_elem in Hin as [Hin _]; [contradiction|exact Hnd].
Qed.

Lemma consistent_size c : consistent c -> size (cache c) = length (accessOrder c).
Proof.
  intros [Hnd Hkeys].
  rewrite <- (size_dom (D := gset string)).
  rewrite <- (size_list_to_set (C := gset string) _ Hnd).
  f_equal. apply set_eq. intros k.
  rewrite elem_of_dom, elem_of_list_to_set. symmetry. apply Hkeys.
Qed.

Lemma consistent_new config : consistent (new (T := T) config).
Proof.
  split; simpl; [constructor|].
  intros k. rewrite lookup_empty. split; [intros H; inversion H | intros [? H]; discriminate].
Qed.

Lemma consistent_delete key c : consistent c -> consistent (delete key c).
Proof.
  intros [Hnd Hkeys]. split; simpl.
  - apply removeFirst_NoDup, Hnd.
  - intros k. rewrite removeFirst_elem by exact Hnd. rewrite Hkeys.
    destruct (decide (k = key)) as [->|Hne].
    + rewrite lookup_delete_eq. split; [intros [_ H]; contradiction | intros [? H]; discriminate].
    + rewrite lookup_delete_ne by auto. tauto.
Qed.

Lemma consistent_touch key c :
  consistent c -> is_Some (cache c !! key) -> consistent (updateAccessOrder key c).
Proof.
  intros [Hnd Hkeys] Hkey. split; simpl.
  - apply NoDup_app. split; [apply removeFirst_NoDup, Hnd|]. split.
    + intros x Hx Hx'. apply removeFirst_elem in Hx as [_ Hx]; [|exact Hnd].
      apply list_elem_of_singleton in Hx'. contradiction.
    + apply NoDup_singleton.
  - intros k. rewrite elem_of_app, removeFirst_elem, list_elem_of_singleton by exact Hnd.
    rewrite <- Hkeys. split.
    + intros [[H _]| ->]; [exact H|]. apply Hkeys, Hkey.
    + intros H. destruct (decide (k = key)); auto.
Qed.

Lemma consistent_insert key entry c :
  consistent c ->
  consistent (updateAccessOrder key
                (mkCache (<[key := entry]> (cache c)) (maxEntries c) (defaultTtl c)
                         (cleanupInterval c) (accessOrder c))).
Proof.
  intros [Hnd Hkeys]. split; simpl.
  - apply NoDup_app. split; [apply removeFirst_NoDup, Hnd|]. split.
    + intros x Hx Hx'. apply removeFirst_elem in Hx as [_ Hx]; [|exact Hnd].
      apply list_elem_of_singleton in Hx'. contradiction.
    + apply NoDup_singleton.
  - intros k. rewrite elem_of_app, removeFirst_elem, list_elem_of_singleton by exact Hnd.
    destruct (decide (k = key)) as [->|Hne].
    + rewrite lookup_insert_eq. split; [eauto | auto].
    + rewrite lookup_insert_ne by auto. rewrite <- Hkeys. split.
      * intros [[H _]|H]; [exact H | contradiction].
      * intros H. left. auto.
Qed.

Lemma consistent_evictOldest c : consistent c -> consistent (evictOldest c).
Proof.
  intros H. unfold evictOldest. destruct (accessOrder c); [exact H|].
  apply consistent_delete, H.
Qed.

Lemma consistent_set key v ttl now c : consistent c -> consistent (set key v ttl now c).
Proof.
  intros H. unfold set.
  destruct (geNumber (Z.of_nat (size (cache c))) (maxEntries c)).
  - apply (consistent_insert key _ (evictOldest c)), consistent_evictOldest, H.
  - apply (consistent_insert key _ c), H.
Qed.

Lemma consistent_get key now c : consistent c -> consistent (snd (get key now c)).
Proof.
  intros H. unfold get. destruct (cache c !! key) as [entry|] eqn:Hk; [|exact H].
  destruct (isExpired now entry); simpl.
  - apply consistent_delete, H.
  - apply consistent_touch; [exact H | rewrite Hk; eauto].
Qed.

Lemma consistent_clear c : consistent (clear c).
Proof.
  split; simpl; [constructor|].
  intros k. rewrite lookup_empty. split; [intros H; inversion H | intros [? H]; discriminate].
Qed.

(** A fold of deletions keeps what every deletion keeps *)
Lemma cleanup_preserves (P : QueryCache T -> Prop) now c :
  (forall key c', P c' -> P (delete key c')) -> P c -> P (cleanup now c).
Proof.
  intros Hdel. unfold cleanup. generalize (map_to_list (cache c)) as kvs.
  intros kvs. revert c. induction kvs as [|kv kvs IH]; simpl; intros c Hc; [exact Hc|].
  apply IH. destruct (isExpired now (snd kv)); [apply Hdel|]; exact Hc.
Qed.

Lemma consistent_apply op c : consistent c -> consistent (apply op c).
Proof.
  intros H. destruct op; simpl.
  - apply consistent_get, H.
  - apply consistent_set, H.
  - apply consistent_delete, H.
  - apply consistent_clear.
  - apply cleanup_preserves; [intros; apply consistent_delete; assumption | exact H].
Qed.

Lemma size_delete_le key c : (statsSize (delete key c) <= statsSize c)%Z.
Proof.
  unfold statsSize. simpl. rewrite map_size_delete.
  destruct (cache c !! key); simpl; lia.
Qed.

Lemma maxEntries_delete key c : maxEntries (delete key c) = maxEntries c.
Proof. reflexivity. Qed.

(** The comparisons of a size with the capacity *)
Lemma underCapacity_mono (n n' : Z) (x : JsNumber) :
  (n' <= n)%Z -> underCapacity n x -> underCapacity n' x.
Proof.
  intros Hle. destruct x as [q| | |]; simpl; auto.
  intros H. eapply Qle_lt_trans; [|exact H]. rewrite <- Zle_Qle. exact Hle.
Qed.

Lemma geNumber_atLeast (n m : Z) (x : JsNumber) :
  atLeast m x -> geNumber n x = true -> (m <= n)%Z.
Proof.
  destruct x as [q| | |]; simpl; try discriminate; try contradiction.
  intros Hm Hn. apply Qle_bool_iff in Hn. rewrite Zle_Qle.
  eapply Qle_trans; eassumption.
Qed.

Lemma geNumber_room (n : Z) (x : JsNumber) :
  atLeast 1 x -> geNumber n x = false -> underCapacity (n + 1) x.
Proof.
  destruct x as [q| | |]; simpl; try discriminate; try contradiction; auto.
  intros _ Hn. rewrite inject_Z_plus. apply Qplus_lt_l.
  apply Qnot_le_lt. intros Hle. apply Qle_bool_iff in Hle. congruence.
Qed.

Lemma underCapacity_not_full (n : Z) (x : JsNumber) :
  underCapacity n x -> geNumber (n - 1) x = false.
Proof.
  destruct x as [q| | |]; simpl; try contradiction; auto.
  intros Hn. destruct (Qle_bool q (inject_Z (n - 1))) eqn:Hle; [|reflexivity].
  apply Qle_bool_iff in Hle. exfalso.
  apply (Qlt_irrefl (inject_Z n)).
  eapply Qlt_le_trans; [exact Hn|].
  replace n with ((n - 1) + 1)%Z at 1 by lia. rewrite inject_Z_plus.
  apply Qplus_le_l. exact Hle.
Qed.

Lemma isWhole_bounds (n m : Z) (x : JsNumber) :
  isWhole x m ->
  (underCapacity n x -> (n <= m)%Z) /\ (geNumber n x = true -> (m <= n)%Z).
Proof.
  destruct x as [q| | |]; simpl; try contradiction.
  intros Hq. split.
  - intros Hn. rewrite Hq in Hn.
    assert (Hlt : (inject_Z n < inject_Z (m + 1))%Q)
      by (rewrite inject_Z_plus; exact Hn).
    rewrite <- Zlt_Qlt in Hlt. lia.
  - intros Hn. apply Qle_bool_iff in Hn. rewrite Hq in Hn.
    rewrite <- Zle_Qle in Hn. exact Hn.
Qed.

Lemma withinCapacity_delete key c : withinCapacity c -> withinCapacity (delete key c).
Proof.
  intros [H1 H2]. split; [exact H1|].
  eapply underCapacity_mono; [apply size_delete_le | exact H2].
Qed.

(** At capacity the access order is not empty, and its head is a key *)
Lemma full_has_oldest c :
  consistent c -> atLeast 1 (maxEntries c) ->
  geNumber (statsSize c) (maxEntries c) = true ->
  exists oldest rest,
    accessOrder c = oldest :: rest /\ is_Some (cache c !! oldest).
Proof.
  intros Hc H1 Hfull. pose proof (consistent_size c Hc) as Hsize.
  pose proof (geNumber_atLeast _ _ _ H1 Hfull) as Hone.
  unfold statsSize in Hone.
  destruct (accessOrder c) as [|oldest rest] eqn:Hl; simpl in Hsize; [lia|].
  exists oldest, rest. split; [reflexivity|].
  apply (proj2 Hc). rewrite Hl. left.
Qed.

Lemma withinCapacity_set key v ttl now c :
  consistent c -> withinCapacity c -> withinCapacity (set key v ttl now c).
Proof.
  intros Hc [H1 H2]. unfold withinCapacity, set.
  fold (statsSize c).
  destruct (geNumber (statsSize c) (maxEntries c)) eqn:Hfull.
  - destruct (full_has_oldest c Hc H1 Hfull) as (oldest & rest & Hl & Hold).
    unfold evictOldest. rewrite Hl. simpl. split; [exact H1|].
    eapply underCapacity_mono; [|exact H2].
    unfold statsSize. simpl. rewrite map_size_insert, map_size_delete.
    destruct Hold as [e He]. rewrite He. simpl.
    assert (size (cache c) <> 0).
    { intros H0. apply map_size_empty_inv in H0. rewrite H0, lookup_empty in He.
      discriminate. }
    destruct (base.delete oldest (cache c) !! key); simpl; lia.
  - simpl. split; [exact H1|].
    eapply underCapacity_mono; [|apply geNumber_room; [exact H1 | exact Hfull]].
    unfold statsSize. simpl. rewrite map_size_insert.
    destruct (cache c !! key); simpl; lia.
Qed.

Lemma withinCapacity_apply op c :
  consistent c -> withinCapacity c -> withinCapacity (apply op c).
Proof.
  intros Hc H. destruct op; simpl.
  - unfold get. destruct (cache c !! key); [|exact H].
    destruct (isExpired now c0); simpl; [apply withinCapacity_delete, H | exact H].
  - apply withinCapacity_set; assumption.
  - apply withinCapacity_delete, H.
  - destruct H as [H1 H2]. split; [exact H1|].
    eapply underCapacity_mono; [|exact H2].
    unfold statsSize. simpl. rewrite map_size_empty. lia.
  - apply cleanup_preserves; [intros; apply withinCapacity_delete; assumption | exact H].
Qed.

Lemma atLeast_one_new (config : option CacheConfig) :
  atLeast 1 (maxEntries (new (T := T) config)).
Proof.
  simpl. destruct (orDefaultNumber _ _) as [q| | |] eqn:Hq; simpl; auto.
  - destruct (Qle_bool 1 q) eqn:Hle; simpl.
    + apply Qle_bool_iff, Hle.
    + apply Qle_refl.
  - apply Qle_refl.
  - unfold orDefaultNumber in Hq.
    destruct (config ≫= cfg_maxEntries) as [[p| | |]|]; simpl in Hq;
      try discriminate.
    destruct (negb (Qeq_bool p 0)); discriminate.
Qed.

Lemma reachable_invariant c : reachable c -> consistent c /\ withinCapacity c.
Proof.
  induction 1 as [config | op c Hr [Hc Hw]].
  - split; [apply consistent_new|]. split; [apply atLeast_one_new|].
    pose proof (atLeast_one_new config) as H1.
    unfold statsSize. cbn [cache new]. rewrite map_size_empty.
    destruct (maxEntries (new config)) as [q| | |]; simpl in *; auto.
    eapply Qlt_le_trans with (y := (1 + 0)%Q); [reflexivity|].
    rewrite (Qplus_comm q 1). apply Qplus_le_r.
    eapply Qle_trans; [|exact H1]. discriminate.
  - split; [apply consistent_apply, Hc | apply withinCapacity_apply; assumption].
Qed.

End CacheProperties.

Lemma set_full_unfold {T} (c : QueryCache.QueryCache T) key v ttl now oldest rest :
  QueryCache.accessOrder c = oldest :: rest ->
  geNumber (QueryCache.statsSize c) (QueryCache.maxEntries c) = true ->
  QueryCache.set key v ttl now c =
  QueryCache.updateAccessOrder key
    (QueryCache.mkCache
       (<[key := QueryCache.mkEntry v now
                   (now + Z.max 1000 (QueryCache.orDefault ttl (QueryCache.defaultTtl c)))%Z]>
          (base.delete oldest (QueryCache.cache c)))
       (QueryCache.maxEntries c) (QueryCache.defaultTtl c)
       (QueryCache.cleanupInterval c)
       (QueryCache.removeFirst oldest (QueryCache.accessOrder c))).
Proof.
  intros Hl Hfull. unfold QueryCache.set, QueryCache.statsSize in *.
  rewrite Hfull.
  unfold QueryCache.evictOldest. destruct c as [m mx dt ci order].
  simpl in *. subst order. reflexivity.
Qed.

(** C10 (amended). In a cache built by the constructor and the operations,
    the size stays below [maxEntries + 1]: it never exceeds a [maxEntries]
    that is a whole number, while a fractional one, which the constructor
    keeps as it is, is exceeded by less than one entry. When the size has
    reached [maxEntries], [set] first deletes the head of the access order,
    the least recently accessed key, and then inserts, whether or not its
    key is present: overwriting a key other than the oldest one removes the
    oldest entry and leaves one entry less ([maxEntries - 1] entries for a
    whole [maxEntries]), while overwriting the oldest key itself removes no
    other entry. *)
Theorem set_at_capacity_evicts_oldest {T} (c : QueryCache.QueryCache T)
    (key : string) (v : T) (ttl : option Z) (now : Z) :
  QueryCache.reachable c ->
  underCapacity (QueryCache.statsSize c) (QueryCache.maxEntries c) /\
  (forall m, isWhole (QueryCache.maxEntries c) m -> (QueryCache.statsSize c <= m)%Z) /\
  (geNumber (QueryCache.statsSize c) (QueryCache.maxEntries c) = true ->
   exists oldest rest,
     QueryCache.accessOrder c = oldest :: rest /\
     is_Some (QueryCache.cache c !! oldest) /\
     QueryCache.set key v ttl now c =
       QueryCache.set key v ttl now (QueryCache.delete oldest c) /\
     QueryCache.value <$> (QueryCache.cache (QueryCache.set key v ttl now c) !! key)
       = Some v /\
     (key <> oldest ->
      QueryCache.cache (QueryCache.set key v ttl now c) !! oldest = None) /\
     (key <> oldest -> is_Some (QueryCache.cache c !! key) ->
      QueryCache.statsSize (QueryCache.set key v ttl now c)
        = (QueryCache.statsSize c - 1)%Z /\
      forall m, isWhole (QueryCache.maxEntries c) m ->
        QueryCache.statsSize (QueryCache.set key v ttl now c) = (m - 1)%Z) /\
     (key = oldest ->
      forall k, is_Some (QueryCache.cache c !! k) ->
                is_Some (QueryCache.cache (QueryCache.set key v ttl now c) !! k))).
Proof.
  intros Hr. destruct (reachable_invariant c Hr) as [Hc [H1 H2]].
  split; [exact H2|]. split.
  { intros m Hm. apply (proj1 (isWhole_bounds _ _ _ Hm)), H2. }
  intros Hfull.
  destruct (full_has_oldest c Hc H1 Hfull) as (oldest & rest & Hl & Hold).
  exists oldest, rest. split; [exact Hl|]. split; [exact Hold|].
  pose proof (set_full_unfold c key v ttl now oldest rest Hl Hfull) as Hset.
  assert (Hdel : size (base.delete oldest (QueryCache.cache c))
                 = pred (size (QueryCache.cache c))).
  { apply map_size_delete_Some, Hold. }
  assert (Hpos : size (QueryCache.cache c) <> 0).
  { intros H0. apply map_size_empty_inv in H0. destruct Hold as [e He].
    rewrite H0, lookup_empty in He. discriminate. }
  assert (Hsize : QueryCache.statsSize
                    (QueryCache.updateAccessOrder key
                       (QueryCache.mkCache
                          (<[key := QueryCache.mkEntry v now
                                      (now + Z.max 1000
                                               (QueryCache.orDefault ttl
                                                  (QueryCache.defaultTtl c)))%Z]>
                             (base.delete oldest (QueryCache.cache c)))
                          (QueryCache.maxEntries c) (QueryCache.defaultTtl c)
                          (QueryCache.cleanupInterval c)
                          (QueryCache.removeFirst oldest (QueryCache.accessOrder c))))
                  = (QueryCache.statsSize c - 1)%Z ->
                  QueryCache.statsSize (QueryCache.set key v ttl now c)
                  = (QueryCache.statsSize c - 1)%Z).
  { rewrite Hset. auto. }
  split; [|split; [|split; [|split]]].
  - rewrite Hset. unfold QueryCache.set. simpl.
    assert (Hroom : geNumber (Z.of_nat (size (base.delete oldest (QueryCache.cache c))))
                             (QueryCache.maxEntries c) = false).
    { rewrite Hdel.
      replace (Z.of_nat (pred (size (QueryCache.cache c))))
        with (QueryCache.statsSize c - 1)%Z
        by (unfold QueryCache.statsSize; lia).
      apply underCapacity_not_full, H2. }
    rewrite Hroom. reflexivity.
  - rewrite Hset. simpl. rewrite lookup_insert_eq. reflexivity.
  - intros Hne. rewrite Hset. simpl.
    rewrite lookup_insert_ne by auto. apply lookup_delete_eq.
  - intros Hne Hkey.
    assert (Hless : QueryCache.statsSize (QueryCache.set key v ttl now c)
                    = (QueryCache.statsSize c - 1)%Z).
    { apply Hsize. unfold QueryCache.statsSize. simpl.
      rewrite map_size_insert_Some.
      - rewrite Hdel. lia.
      - rewrite lookup_delete_ne by auto. exact Hkey. }
    split; [exact Hless|].
    intros m Hm. rewrite Hless.
    destruct (isWhole_bounds (QueryCache.statsSize c) m _ Hm) as [Hle Hge].
    specialize (Hle H2). specialize (Hge Hfull). lia.
  - intros -> k Hk. rewrite Hset. simpl.
    destruct (decide (k = oldest)) as [->|Hne].
    + rewrite lookup_insert_eq. eauto.
    + rewrite lookup_insert_ne, lookup_delete_ne by auto. exact Hk.
Qed.

Lemma fullCache_reachable : QueryCache.reachable fullCache.
Proof. unfold fullCache. repeat constructor. Qed.

Lemma set_at_capacity_evicts_oldest_witness :
  QueryCache.reachable fullCache /\
  geNumber (QueryCache.statsSize fullCache) (QueryCache.maxEntries fullCache) = true /\
  QueryCache.statsSize (QueryCache.set "b" 3 None 1%Z fullCache) = (2 - 1)%Z.
Proof.
  assert (Hfull : geNumber (QueryCache.statsSize fullCache)
                           (QueryCache.maxEntries fullCache) = true)
    by (vm_compute; reflexivity).
  split; [exact fullCache_reachable|]. split; [exact Hfull|].
  destruct (proj2 (proj2 (set_at_capacity_evicts_oldest fullCache "b" 3 None 1%Z
                            fullCache_reachable)) Hfull)
    as (oldest & rest & Horder & _ & _ & _ & _ & Hsize & _).
  apply Hsize.
  - vm_compute in Horder. inversion Horder. discriminate.
  - vm_compute. eauto.
  - vm_compute. reflexivity.
Defined.

(** C10, as stated, fails twice. The cache of capacity 2 is at capacity,
    the key [a] is present, and setting [a] again removes no other entry:
    [b] is kept and two entries remain. And the cache built with
    [maxEntries: 1.5] holds two entries after two writes, more than its
    [maxEntries]. *)
Lemma capacity_claim_fails :
  (let c' := QueryCache.set "a" 3 None 1%Z fullCache in
   QueryCache.maxEntries fullCache = Rational 2 /\
   QueryCache.statsSize fullCache = 2%Z /\
   QueryCache.value <$> (QueryCache.cache fullCache !! "a") = Some 1 /\
   QueryCache.value <$> (QueryCache.cache fullCache !! "b") = Some 2 /\
   QueryCache.value <$> (QueryCache.cache c' !! "a") = Some 3 /\
   QueryCache.value <$> (QueryCache.cache c' !! "b") = Some 2 /\
   QueryCache.statsSize c' = 2%Z) /\
  (QueryCache.maxEntries fractionalCache = Rational (3 # 2) /\
   QueryCache.statsSize fractionalCache = 2%Z /\
   (3 # 2 < inject_Z 2)%Q).
Proof. vm_compute. repeat split. Qed.

(* --------------------------------------------------------------------- *)
(** ** Client: failures of the engine *)
(* --------------------------------------------------------------------- *)





(* --------------------------------------------------------------------- *)
(** ** QueryEngineSparqlEndpoint: the option validateQuery *)
(* --------------------------------------------------------------------- *)

(** C9. The result of [query] does not depend on the member
    [validateQuery] of its options, present or absent, true or false; and
    a query that [SparqlValidator.validateQuery] rejects is sent all the
    same, under [validateQuery: true] too: when the endpoint answers it
    with a well-formed result, that result is returned. *)
Theorem query_ignores_validateQuery {Operation : Type}
    (toSparql : Operation -> Thrown + string) (endpointUrl : string)
    (fetch : QueryEngineSparqlEndpoint.Request -> Z ->
             Settled QueryEngineSparqlEndpoint.Response)
    (sparqlAlgebra : Operation) (options : QueryEngineOptions)
    (v1 v2 : option bool) :
  QueryEngineSparqlEndpoint.query toSparql endpointUrl fetch sparqlAlgebra
      (Some (mkOptions (timeout options) (maxResults options) v1))
    = QueryEngineSparqlEndpoint.query toSparql endpointUrl fetch sparqlAlgebra
        (Some (mkOptions (timeout options) (maxResults options) v2)) /\
  QueryEngineSparqlEndpoint.query toSparql endpointUrl fetch sparqlAlgebra
      (Some (mkOptions None None v1))
    = QueryEngineSparqlEndpoint.query toSparql endpointUrl fetch sparqlAlgebra None /\
  (forall (sparql : string) (e : JsError) (result : Json),
     toSparql sparqlAlgebra = inr sparql ->
     SparqlValidator.validateQuery sparql = inl e ->
     QueryEngineSparqlEndpoint.isSparqlQueryResult result = true ->
     QueryEngineSparqlEndpoint.query toSparql endpointUrl (answering result)
         sparqlAlgebra (Some (mkOptions (timeout options) (maxResults options) (Some true)))
       = Resolved (QueryEngineSparqlEndpoint.applyMaxResults
                     (maxResults (QueryEngineSparqlEndpoint.mergeOptions (Some options)))
                     result)).
Proof.
  split; [reflexivity|]. split; [reflexivity|].
  intros sparql e result Hsparql _ Hshape.
  unfold QueryEngineSparqlEndpoint.query, answering,
    QueryEngineSparqlEndpoint.queryResponse. rewrite Hsparql. simpl.
  rewrite Hshape. reflexivity.
Qed.

Lemma query_ignores_validateQuery_witness :
  SparqlValidator.validateQuery "DROP ALL"
    = inl (ValidationError "Query contains forbidden operation: DROP") /\
  QueryEngineSparqlEndpoint.query (fun s : string => inr s) "http://localhost:3030/ds"
      (answering emptyResult) "DROP ALL"
      (Some (mkOptions None None (Some true)))
    = Resolved emptyResult.
Proof.
  split; [reflexivity|].
  exact (proj2 (proj2 (query_ignores_validateQuery (fun s : string => inr s)
                         "http://localhost:3030/ds" (answering emptyResult)
                         "DROP ALL" (mkOptions None None None) None None))
           "DROP ALL" _ emptyResult eq_refl eq_refl eq_refl).
Defined.

(* --------------------------------------------------------------------- *)
(** ** MutationConverter: the pieces of a compilation *)
(* --------------------------------------------------------------------- *)

Lemma bind_Ok {A B} (m : M A) (k : A -> M B) fx b fx2 :
  bind m k fx = Ok b fx2 ->
  exists a fx1, m fx = Ok a fx1 /\ k a fx1 = Ok b fx2.
Proof.
  unfold bind. destruct (m fx) as [a fx1|e fx1]; [|discriminate].
  intros H. exists a, fx1. split; [reflexivity | exact H].
Qed.

Lemma bind_Throw {A B} (m : M A) (k : A -> M B) fx e fx2 :
  bind m k fx = Throw e fx2 ->
  m fx = Throw e fx2 \/ exists a fx1, m fx = Ok a fx1 /\ k a fx1 = Throw e fx2.
Proof.
  unfold bind. destruct (m fx) as [a fx1|e1 fx1]; intros H.
  - right. exists a, fx1. split; [reflexivity | exact H].
  - left. inversion H. reflexivity.
Qed.

Lemma quiet_ret {A} (a : A) : quiet (ret a).
Proof. intros fx. left. exists a. reflexivity. Qed.

Lemma quiet_throw {A} msg : quiet (throw (A := A) (Error msg)).
Proof. intros fx. right. exists (Error msg). split; reflexivity. Qed.

Lemma quiet_bind {A B} (m : M A) (k : A -> M B) :
  quiet m -> (forall a, quiet (k a)) -> quiet (bind m k).
Proof.
  intros Hm Hk fx. unfold bind.
  destruct (Hm fx) as [[a Ha]|[e [He Hc]]]; rewrite ?Ha, ?He.
  - apply Hk.
  - right. exists e. split; [reflexivity | exact Hc].
Qed.

Section ConverterPieces.

Variable context : gmap string Json.
Variable random16 : nat -> N.


Lemma expandIri_Ok v fx r fx1 :
  expandIri context v fx = Ok r fx1 -> r = expand_iri_spec context v /\ fx1 = fx.
Proof.
  unfold expandIri, expand_iri_spec, definedBase.
  destruct (startsWith "http://" v || startsWith "https://" v).
  { intros H. inversion H. auto. }
  destruct (context !! "@base") as [[| b | z | s | items | props]|]; simpl;
    try (intros H; inversion H; auto; fail).
  - destruct b; simpl; intros H; inversion H; auto.
  - destruct (z =? 0)%Z; simpl; intros H; inversion H; auto.
  - destruct (String.eqb s ""); simpl; intros H; inversion H; auto.
Qed.


Lemma getPredicateIri_Ok f fx t fx1 :
  getPredicateIri context f fx = Ok t fx1 ->
  fx1 = fx /\ exists iri, termIri (context !! f) = Some iri /\ t = NamedNode iri.
Proof.
  unfold getPredicateIri. destruct (termIri (context !! f)) as [iri|];
    [|discriminate].
  intros H. inversion H. split; [reflexivity|]. exists iri. auto.
Qed.

Lemma getTypeIri_quiet entity : quiet (getTypeIri context entity).
Proof.
  unfold getTypeIri.
  destruct (termIri _); [apply quiet_ret|].
  destruct (context !! "@vocab") as [[| b | z | s | items | props]|];
    try apply quiet_throw. apply quiet_ret.
Qed.

Lemma getTypeIri_Ok entity fx t fx1 :
  getTypeIri context entity fx = Ok t fx1 ->
  fx1 = fx /\ exists iri, t = NamedNode iri.
Proof.
  intros H. destruct (getTypeIri_quiet entity fx) as [[a Ha]|[e [He _]]];
    rewrite H in *; [|discriminate].
  inversion Ha; subst. split; [reflexivity|].
  revert H. unfold getTypeIri.
  destruct (termIri _) as [iri|].
  { intros H. inversion H. eauto. }
  destruct (context !! "@vocab") as [[| b | z | s | items | props]|];
    try discriminate.
  intros H. inversion H. eauto.
Qed.


Lemma parseValueNode_pure v fx t fx1 :
  parseValueNode v fx = Ok t fx1 -> pureM (parseValueNode v) t.
Proof.
  destruct v; simpl; try discriminate; intros H; inversion H; intros fx0; reflexivity.
Qed.

Lemma parseValueNode_Ok v fx t fx1 :
  parseValueNode v fx = Ok t fx1 ->
  fx1 = fx /\ exists lexical datatype, t = Literal lexical datatype.
Proof.
  destruct v; simpl; try discriminate; intros H; inversion H; eauto.
Qed.

(** [getInversePredicateIri] never throws: a missing inverse is [null] *)
Lemma getInversePredicateIri_pure r :
  exists inv, pureM (getInversePredicateIri context r) inv /\
    (forall q, inv = Some q ->
       exists inverseName iri,
         inverseNameOf r = Some inverseName /\
         termIri (context !! inverseName) = Some iri /\ q = NamedNode iri).
Proof.
  unfold getInversePredicateIri, pureM.
  destruct (inverseNameOf r) as [inverseName|] eqn:Hinv.
  - unfold tryCatch, bind, getPredicateIri.
    destruct (termIri (context !! inverseName)) as [iri|] eqn:Hiri.
    + exists (Some (NamedNode iri)). split; [reflexivity|].
      intros q Hq. inversion Hq. exists inverseName, iri. auto.
    + exists None. split; [reflexivity|]. discriminate.
  - exists None. split; [reflexivity|]. discriminate.
Qed.

End ConverterPieces.

Section CreateFields.

Variable context : gmap string Json.
Variable random16 : nat -> N.

Lemma createField_Ok localSubject field quads fx quads1 fx1 :
  createField context localSubject field quads fx = Ok quads1 fx1 ->
  fx1 = fx /\
  exists block, fieldEmits context localSubject field block /\ quads1 = quads ++ block.
Proof.
  destruct field as [f val]. unfold createField. simpl.
  destruct (String.eqb_spec f "id") as [->|Hid].
  { intros H. inversion H. split; [reflexivity|]. exists []. split; [constructor|].
    symmetry. apply app_nil_r. }
  intros H. apply bind_Ok in H as (predicateIri & fxa & Hp & H).
  apply getPredicateIri_Ok in Hp as (-> & p0 & Hp0 & ->).
  assert (Hlit :
    (forall v, val = StringValue v -> isRelationshipInput context f = false) ->
    bind (parseValueNode val)
         (fun objectValue => ret (quads ++ [quad localSubject (NamedNode p0) objectValue]))
         fx = Ok quads1 fx1 ->
    fx1 = fx /\
    exists block, fieldEmits context localSubject (f, val) block /\ quads1 = quads ++ block).
  { intros Hnot Hb. apply bind_Ok in Hb as (lit & fxb & Hl & Hb).
    pose proof (parseValueNode_pure _ _ _ _ Hl) as Hpure.
    apply parseValueNode_Ok in Hl as (-> & _).
    inversion Hb. split; [reflexivity|].
    eexists. split; [|reflexivity]. apply emits_literal; assumption. }
  destruct val as [n | n | n | v | b | | n | vs | fs];
    try (apply Hlit; [intros v Hv; discriminate | exact H]).
  fold (isRelationshipInput context f) in H.
  destruct (isRelationshipInput context f) eqn:Hrel.
  - fold (relationshipNameOf f) in H.
    apply bind_Ok in H as (relPred & fxb & Hr & H).
    apply getPredicateIri_Ok in Hr as (-> & p & Hp & ->).
    apply bind_Ok in H as (related & fxc & He & H).
    apply expandIri_Ok in He as (-> & ->).
    destruct (getInversePredicateIri_pure context (relationshipNameOf f))
      as (inv & Hinv & _).
    unfold tryCatch, bind in H. rewrite (Hinv fx) in H.
    split; [destruct inv; inversion H; reflexivity|].
    eexists. split; [apply (emits_relationship _ _ f v p0 p inv); assumption|].
    destruct inv; inversion H; simpl; rewrite <- ?app_assoc; reflexivity.
  - apply Hlit; [|exact H]. intros v0 _. reflexivity.
Qed.

Lemma forEach_createField_Ok localSubject fields quads fx quads1 fx1 :
  forEach (createField context localSubject) fields quads fx = Ok quads1 fx1 ->
  fx1 = fx /\
  exists blocks,
    Forall2 (fieldEmits context localSubject) fields blocks /\
    quads1 = quads ++ concat blocks.
Proof.
  revert quads fx. induction fields as [|field fields IH]; simpl; intros quads fx H.
  - inversion H. split; [reflexivity|]. exists []. split; [constructor|].
    symmetry. apply app_nil_r.
  - apply bind_Ok in H as (quads0 & fx0 & Hf & H).
    apply createField_Ok in Hf as (-> & block & Hblock & ->).
    apply IH in H as (-> & blocks & Hblocks & ->).
    split; [reflexivity|]. exists (block :: blocks). split; [constructor; assumption|].
    simpl. rewrite app_assoc. reflexivity.
Qed.

End CreateFields.

Section Uuid.

Variable random16 : nat -> N.
Hypothesis random16_range : forall i, (random16 i < 16)%N.

Lemma toString16_digit (v : N) :
  (v < 16)%N ->
  exists d, toString16 v = String d EmptyString /\ isUuidClassChar d = true.
Proof.
  intros Hv.
  assert (Hcases : List.In v [0; 1; 2; 3; 4; 5; 6; 7; 8; 9; 10; 11; 12; 13; 14; 15]%N).
  { simpl. lia. }
  simpl in Hcases.
  repeat (destruct Hcases as [<-|Hcases]; [eexists; split; reflexivity|]).
  contradiction.
Qed.

Lemma variant_nibble (r : N) : (r < 16)%N -> (N.lor (N.land r 3) 8 < 16)%N.
Proof.
  intros Hr.
  assert (Hcases : List.In r [0; 1; 2; 3; 4; 5; 6; 7; 8; 9; 10; 11; 12; 13; 14; 15]%N).
  { simpl. lia. }
  simpl in Hcases.
  repeat (destruct Hcases as [<-|Hcases]; [reflexivity|]).
  contradiction.
Qed.

Lemma uuidChar_Ok c fx :
  exists d fx1,
    uuidChar random16 c fx = Ok (String d EmptyString) fx1 /\
    algebraNodes fx1 = algebraNodes fx /\
    (isUuidClassChar c = true -> isUuidClassChar d = true) /\
    (Ascii.eqb c "x" || Ascii.eqb c "y" = true -> isUuidClassChar d = true).
Proof.
  unfold uuidChar.
  destruct (Ascii.eqb c "x" || Ascii.eqb c "y") eqn:Hxy.
  - unfold bind, nextRandom16, ret.
    pose proof (random16_range (randomCalls fx)) as Hr.
    destruct (toString16_digit
                (if Ascii.eqb c "x" then random16 (randomCalls fx)
                 else N.lor (N.land (random16 (randomCalls fx)) 3) 8))
      as (d & Hd & Hclass).
    { destruct (Ascii.eqb c "x"); [exact Hr | apply variant_nibble, Hr]. }
    rewrite Hd. exists d. eexists. split; [reflexivity|]. simpl. auto.
  - exists c, fx. split; [reflexivity|]. split; [reflexivity|].
    split; [auto | discriminate].
Qed.

Lemma replaceXY_Ok template fx :
  exists u fx1,
    replaceXY random16 template fx = Ok u fx1 /\
    algebraNodes fx1 = algebraNodes fx /\
    String.length u = String.length template /\
    (allChars (fun c => isUuidClassChar c || Ascii.eqb c "x" || Ascii.eqb c "y")
              template = true ->
     allChars isUuidClassChar u = true).
Proof.
  revert fx. induction template as [|c rest IH]; intros fx; simpl.
  - exists EmptyString, fx. repeat split.
  - destruct (uuidChar_Ok c fx) as (d & fxa & Hd & Hn & Hkeep & Hnew).
    destruct (IH fxa) as (ds & fxb & Hds & Hn2 & Hlen & Hall).
    exists (String d ds), fxb. unfold bind. rewrite Hd, Hds. simpl.
    split; [reflexivity|]. split; [congruence|]. split; [congruence|].
    intros H. apply andb_prop in H as [Hc Hrest].
    rewrite (Hall Hrest), andb_true_r.
    rewrite <- orb_assoc in Hc. apply orb_prop in Hc as [Hc|Hc]; auto.
Qed.

Lemma generateUUID_Ok fx :
  exists u fx1,
    generateUUID random16 fx = Ok u fx1 /\
    algebraNodes fx1 = algebraNodes fx /\
    matchesUuidPattern u = true.
Proof.
  unfold generateUUID.
  destruct (replaceXY_Ok UUID_TEMPLATE fx) as (u & fx1 & Hu & Hn & Hlen & Hall).
  exists u, fx1. split; [exact Hu|]. split; [exact Hn|].
  unfold matchesUuidPattern. rewrite Hlen, Hall; reflexivity.
Qed.

End Uuid.

Lemma generateUUID_algebraNodes random16 fx u fx1 :
  generateUUID random16 fx = Ok u fx1 -> algebraNodes fx1 = algebraNodes fx.
Proof.
  unfold generateUUID. generalize UUID_TEMPLATE as template.
  intros template. revert fx u fx1.
  induction template as [|c rest IH]; simpl; intros fx u fx1 H.
  - inversion H. reflexivity.
  - apply bind_Ok in H as (d & fxa & Hd & H).
    apply bind_Ok in H as (ds & fxb & Hds & H).
    inversion H; subst. apply IH in Hds. rewrite Hds.
    unfold uuidChar in Hd.
    destruct (Ascii.eqb c "x" || Ascii.eqb c "y"); inversion Hd; reflexivity.
Qed.

Section CreateCompilation.

Variable context : gmap string Json.
Variable random16 : nat -> N.

Lemma createSubject_Ok fields fx localSubject fx1 :
  createSubject context random16 fields fx = Ok localSubject fx1 ->
  algebraNodes fx1 = algebraNodes fx /\
  ((exists iriValue,
      find "id" fields = Some (StringValue iriValue) /\
      hasIllegalIriChar iriValue = false /\
      localSubject = NamedNode (expand_iri_spec context iriValue)) \/
   (find "id" fields = None /\
    exists uuid fx0,
      generateUUID random16 fx = Ok uuid fx0 /\
      localSubject = NamedNode ("urn:uuid:" +:+ uuid))).
Proof.
  unfold createSubject.
  destruct (find "id" fields) as [idValue|].
  - destruct idValue; try discriminate.
    destruct (hasIllegalIriChar value) eqn:Hill; [discriminate|].
    intros H. apply bind_Ok in H as (expanded & fxa & He & H).
    apply expandIri_Ok in He as (-> & ->). inversion H; subst.
    split; [reflexivity|]. left. exists value. auto.
  - intros H. apply bind_Ok in H as (uuid & fxa & Hu & H).
    inversion H; subst.
    split; [eapply generateUUID_algebraNodes; exact Hu|].
    right. split; [reflexivity|]. exists uuid, fx1. auto.
Qed.

Lemma handleCreate_Ok node entityName quads fx quads1 fx1 :
  handleCreate context random16 node entityName quads fx = Ok quads1 fx1 ->
  exists fields entityTypeIri localSubject blocks,
    find "input" (arguments node) = Some (ObjectValue fields) /\
    getTypeIri context entityName fx = Ok entityTypeIri fx /\
    createSubject context random16 fields fx = Ok localSubject fx1 /\
    Forall2 (fieldEmits context localSubject) fields blocks /\
    quads1 = quads ++ quad localSubject RDF_TYPE_NODE entityTypeIri :: concat blocks.
Proof.
  unfold handleCreate.
  destruct (find "input" (arguments node)) as [inputValue|]; [|discriminate].
  destruct inputValue; try discriminate.
  intros H. apply bind_Ok in H as (entityTypeIri & fxa & Ht & H).
  pose proof Ht as Ht'. apply getTypeIri_Ok in Ht' as (-> & _).
  apply bind_Ok in H as (localSubject & fxb & Hs & H).
  apply forEach_createField_Ok in H as (-> & blocks & Hblocks & ->).
  exists fields, entityTypeIri, localSubject, blocks.
  rewrite <- app_assoc. simpl. auto.
Qed.

Lemma mapQuadToAlgebraPattern_Ok quads fx :
  exists fx1,
    mapQuadToAlgebraPattern quads fx = Ok (map quadPattern quads) fx1.
Proof.
  revert fx. induction quads as [|q quads IH]; intros fx; simpl.
  - exists fx. reflexivity.
  - unfold bind, quadToAlgebraPattern, createPattern.
    destruct (IH (mkEffects (randomCalls fx) (S (algebraNodes fx)))) as (fx1 & ->).
    exists fx1. reflexivity.
Qed.

(** The compilation of a create with one root field, when it succeeds *)
Lemma convert_create_Ok node entityName fx operation fx1 :
  classify (name node) = Some (create, entityName) ->
  convert context random16 (singleMutation node) fx = Ok operation fx1 ->
  exists fields entityTypeIri localSubject blocks fx0,
    find "input" (arguments node) = Some (ObjectValue fields) /\
    getTypeIri context entityName fx = Ok entityTypeIri fx /\
    createSubject context random16 fields fx = Ok localSubject fx0 /\
    Forall2 (fieldEmits context localSubject) fields blocks /\
    operation =
      mkCompositeUpdate
        [mkDeleteInsert None
           (Some (map quadPattern
                    (quad localSubject RDF_TYPE_NODE entityTypeIri :: concat blocks)))
           None].
Proof.
  intros Hclass H. unfold convert, singleMutation, visit in H. simpl in H.
  apply bind_Ok in H as (st & fxa & Hvisit & Hbuild).
  apply bind_Ok in Hvisit as (st1 & fxb & Hop & Hret). inversion Hret; subst; clear Hret.
  unfold visitOperation in Hop. simpl in Hop.
  apply bind_Ok in Hop as (st2 & fxc & Hfield & Hret). inversion Hret; subst; clear Hret.
  unfold visitField in Hfield. simpl in Hfield.
  apply bind_Ok in Hfield as (st3 & fxd & Hident & Hproc).
  unfold identifyOperation in Hident. rewrite Hclass in Hident.
  inversion Hident; subst; clear Hident.
  unfold processField in Hproc. simpl in Hproc.
  apply bind_Ok in Hproc as (quads & fxe & Hcreate & Hret).
  inversion Hret; subst; clear Hret.
  apply handleCreate_Ok in Hcreate
    as (fields & entityTypeIri & localSubject & blocks & Hin & Ht & Hs & Hblocks & ->).
  exists fields, entityTypeIri, localSubject, blocks, fxa.
  repeat (split; [assumption|]).
  unfold buildOperation in Hbuild. simpl in Hbuild.
  destruct (mapQuadToAlgebraPattern_Ok
              (quad localSubject RDF_TYPE_NODE entityTypeIri :: concat blocks) fxa)
    as (fxp & Hmap).
  unfold bind in Hbuild. simpl in Hmap. unfold bind in Hmap.
  rewrite Hmap in Hbuild. inversion Hbuild. reflexivity.
Qed.

End CreateCompilation.

(* --------------------------------------------------------------------- *)
(** ** MutationConverter: the visit of a document *)
(* --------------------------------------------------------------------- *)

Lemma pureM_unique {A} (m : M A) (a b : A) : pureM m a -> pureM m b -> a = b.
Proof.
  intros Ha Hb. specialize (Ha noEffects). rewrite (Hb noEffects) in Ha.
  inversion Ha. reflexivity.
Qed.

Lemma forEach_app {A S} (body : A -> S -> M S) (xs ys : list A) (s : S) fx :
  forEach body (xs ++ ys) s fx = bind (forEach body xs s) (forEach body ys) fx.
Proof.
  revert s fx. induction xs as [|x xs IH]; intros s fx; simpl; [reflexivity|].
  unfold bind in *. destruct (body x s fx) as [s1 fx1|e fx1]; [|reflexivity].
  apply IH.
Qed.

Section Visit.

Variable context : gmap string Json.
Variable random16 : nat -> N.

(** A visit that succeeds has visited the root fields one after another *)
Lemma visit_Ok ast st fx st1 fx1 :
  visit context random16 ast st fx = Ok st1 fx1 ->
  forEach (visitField context random16) (rootFields ast) st fx = Ok st1 fx1.
Proof.
  unfold visit, rootFields. revert st fx.
  induction ast as [|op ast IH]; simpl; intros st fx H; [exact H|].
  apply bind_Ok in H as (st0 & fx0 & Hop & H).
  rewrite forEach_app. unfold bind.
  unfold visitOperation in Hop.
  destruct (operation op); try discriminate.
  rewrite Hop. apply IH, H.
Qed.

Lemma fieldEmits_ground localSubject field block :
  (exists iri, localSubject = NamedNode iri) ->
  fieldEmits context localSubject field block -> ground block.
Proof.
  intros [iri ->] H.
  destruct H as [v | f v p0 p inv _ _ _ _ Hinv | f val p lit _ _ _ Hlit].
  - constructor.
  - destruct (getInversePredicateIri_pure context (relationshipNameOf f))
      as (inv' & Hinv' & Hshape).
    rewrite (pureM_unique _ _ _ Hinv Hinv') in *.
    destruct inv' as [q|].
    + destruct (Hshape q eq_refl) as (n & i & _ & _ & ->).
      repeat constructor.
    + repeat constructor.
  - apply (parseValueNode_Ok val noEffects lit noEffects) in Hlit
      as (_ & lexical & datatype & ->).
    repeat constructor.
Qed.

Lemma blocks_ground localSubject fields blocks :
  (exists iri, localSubject = NamedNode iri) ->
  Forall2 (fieldEmits context localSubject) fields blocks -> ground (concat blocks).
Proof.
  intros Hs H. induction H as [|field block fields blocks Hb _ IH]; simpl.
  - constructor.
  - apply Forall_app. split; [eapply fieldEmits_ground; eassumption | exact IH].
Qed.

Lemma createSubject_named fields fx localSubject fx1 :
  createSubject context random16 fields fx = Ok localSubject fx1 ->
  exists iri, localSubject = NamedNode iri.
Proof.
  intros H. apply createSubject_Ok in H as [_ [(s & _ & _ & ->)|(_ & u & fx0 & _ & ->)]];
    eauto.
Qed.

Lemma handleCreate_ground node entityName quads fx quads1 fx1 :
  handleCreate context random16 node entityName quads fx = Ok quads1 fx1 ->
  ground quads -> ground quads1.
Proof.
  intros H Hg.
  apply handleCreate_Ok in H
    as (fields & entityTypeIri & localSubject & blocks & _ & Ht & Hs & Hblocks & ->).
  apply getTypeIri_Ok in Ht as (_ & tiri & ->).
  pose proof (createSubject_named _ _ _ _ Hs) as Hnamed.
  apply Forall_app. split; [exact Hg|]. constructor.
  - destruct Hnamed as [iri ->]. reflexivity.
  - eapply blocks_ground; eassumption.
Qed.

(** One field of an update: a ground insert quad, a delete quad with the
    variable [old_f], and the pattern of that delete quad *)
Lemma updateField_Ok subject field arrays fx arrays1 fx1 :
  updateField context subject field arrays fx = Ok arrays1 fx1 ->
  fst field <> "id" /\
  exists iri lexical datatype,
    termIri (context !! fst field) = Some iri /\
    insertQuads arrays1 =
      insertQuads arrays ++ [quad subject (NamedNode iri) (Literal lexical datatype)] /\
    deleteQuads_ arrays1 = deleteQuads_ arrays ++ [oldValueQuad subject iri (fst field)] /\
    wherePatterns arrays1 =
      wherePatterns arrays ++ [quadPattern (oldValueQuad subject iri (fst field))].
Proof.
  unfold updateField.
  destruct (String.eqb_spec (fst field) "id") as [Hid|Hid]; [discriminate|].
  intros H. split; [exact Hid|].
  apply bind_Ok in H as (predicateIri & fxa & Hp & H).
  apply getPredicateIri_Ok in Hp as (-> & iri & Hiri & ->).
  apply bind_Ok in H as (lit & fxb & Hl & H).
  apply parseValueNode_Ok in Hl as (-> & lexical & datatype & ->).
  apply bind_Ok in H as (pat & fxc & Hpat & H).
  unfold quadToAlgebraPattern, createPattern in Hpat. inversion Hpat; subst.
  inversion H; subst. simpl.
  exists iri, lexical, datatype. auto.
Qed.

Lemma forEach_updateField_Ok subject fields arrays fx arrays1 fx1 :
  (exists iri, subject = NamedNode iri) ->
  forEach (updateField context subject) fields arrays fx = Ok arrays1 fx1 ->
  extendsUpdate subject arrays arrays1 /\
  forall f v, In (f, v) fields ->
    f <> "id" /\
    exists iri, termIri (context !! f) = Some iri /\
                In (oldValueQuad subject iri f) (deleteQuads_ arrays1).
Proof.
  intros [siri ->]. revert arrays fx.
  induction fields as [|field fields IH]; simpl; intros arrays fx H.
  - inversion H; subst. split; [|contradiction].
    exists [], []. rewrite !app_nil_r. repeat split. constructor.
  - apply bind_Ok in H as (arrays0 & fx0 & Hf & H).
    apply updateField_Ok in Hf as (Hid & iri & lexical & datatype & Hiri & Hi & Hd & Hw).
    apply IH in H as ((ins & del & Hi1 & Hd1 & Hw1 & Hg) & Hfields).
    split.
    + exists (quad (NamedNode siri) (NamedNode iri) (Literal lexical datatype) :: ins),
             (oldValueQuad (NamedNode siri) iri (fst field) :: del).
      rewrite Hi1, Hd1, Hw1, Hi, Hd, Hw, <- !app_assoc. simpl.
      repeat split. constructor; [reflexivity | exact Hg].
    + intros f v [->|Hin].
      * simpl in *. split; [exact Hid|]. exists iri. split; [exact Hiri|].
        rewrite Hd1, Hd. apply in_or_app. left. apply in_or_app. right. left. reflexivity.
      * apply Hfields in Hin. exact Hin.
Qed.

End Visit.

Section VisitInvariant.

Variable context : gmap string Json.
Variable random16 : nat -> N.

Lemma identifyOperation_Ok node st fx st1 fx1 :
  identifyOperation context node st fx = Ok st1 fx1 ->
  fx1 = fx /\
  exists opType entity hint,
    classify (name node) = Some (opType, entity) /\
    st1 = setOperation opType entity hint st /\
    ((opType = create /\ hint = subjectHint st) \/
     (opType <> create /\
      exists iriValue,
        find "id" (arguments node) = Some (StringValue iriValue) /\
        hasIllegalIriChar iriValue = false /\
        hint = Some (NamedNode (expand_iri_spec context iriValue)))).
Proof.
  unfold identifyOperation.
  destruct (classify (name node)) as [[opType entity]|]; [|discriminate].
  assert (Hother :
    opType <> create ->
    match find "id" (arguments node) with
    | Some (StringValue iriValue) =>
        if hasIllegalIriChar iriValue
        then throw (Error "Invalid IRI: contains illegal characters that could cause injection")
        else bind (expandIri context iriValue)
               (fun expandedIri =>
                  ret (setOperation opType entity (Some (NamedNode expandedIri)) st))
    | _ => throw (Error (operationTypeName opType +:+
                         " mutations require an 'id' argument of type String."))
    end fx = Ok st1 fx1 ->
    fx1 = fx /\
    exists opType0 entity0 hint,
      Some (opType, entity) = Some (opType0, entity0) /\
      st1 = setOperation opType0 entity0 hint st /\
      ((opType0 = create /\ hint = subjectHint st) \/
       (opType0 <> create /\
        exists iriValue,
          find "id" (arguments node) = Some (StringValue iriValue) /\
          hasIllegalIriChar iriValue = false /\
          hint = Some (NamedNode (expand_iri_spec context iriValue))))).
  { intros Hne.
    destruct (find "id" (arguments node)) as [idValue|]; [|discriminate].
    destruct idValue; try discriminate.
    destruct (hasIllegalIriChar value) eqn:Hill; [discriminate|].
    intros H. apply bind_Ok in H as (expanded & fxa & He & H).
    apply expandIri_Ok in He as (-> & ->). inversion H; subst.
    split; [reflexivity|]. exists opType, entity. eexists.
    split; [reflexivity|]. split; [reflexivity|].
    right. split; [exact Hne|]. exists value. auto. }
  destruct opType.
  - intros H. inversion H; subst. split; [reflexivity|].
    exists create, entity, (subjectHint st). auto.
  - apply Hother. discriminate.
  - apply Hother. discriminate.
Qed.

Lemma ground_app qs1 qs2 : ground qs1 -> ground qs2 -> ground (qs1 ++ qs2).
Proof. intros H1 H2. apply Forall_app. split; assumption. Qed.

(** A processed field keeps the local variables well formed, keeps the
    operation and the subject, and only appends to the update and delete
    arrays *)
Lemma processField_Ok node st fx st1 fx1 :
  wellFormedLocals st ->
  processField context random16 node st fx = Ok st1 fx1 ->
  wellFormedLocals st1 /\
  operationType st1 = operationType st /\
  entityTypeName st1 = entityTypeName st /\
  subjectHint st1 = subjectHint st /\
  (exists more, updateDeleteQuads st1 = updateDeleteQuads st ++ more) /\
  (forall subject fields f v,
     operationType st = Some update -> subjectHint st = Some subject ->
     find "input" (arguments node) = Some (ObjectValue fields) ->
     In (f, v) fields ->
     exists iri, termIri (context !! f) = Some iri /\
                 In (oldValueQuad subject iri f) (updateDeleteQuads st1)).
Proof.
  intros Hwf H.
  assert (Hsame : forall st0 : Locals,
            st0 = st -> wellFormedLocals st0 /\
            operationType st0 = operationType st /\
            entityTypeName st0 = entityTypeName st /\
            subjectHint st0 = subjectHint st /\
            (exists more, updateDeleteQuads st0 = updateDeleteQuads st ++ more)).
  { intros st0 ->. repeat (split; [first [assumption | reflexivity]|]).
    exists []. symmetry. apply app_nil_r. }
  destruct Hwf as (Hc & Hi & Hw & Hd & Hs). unfold processField in H.
  destruct (operationType st) as [[| |]|] eqn:Hop.
  - (* create *)
    apply bind_Ok in H as (quads & fxa & Hcreate & H). inversion H; subst.
    unfold wellFormedLocals, setCreateQuads; simpl.
    split; [|split; [|split; [|split; [|split]]]];
      try assumption; try reflexivity; try discriminate.
    + split; [|split; [|split; [|split]]]; try assumption.
      eapply handleCreate_ground; eassumption.
    + exists []. symmetry. apply app_nil_r.
  - (* update *)
    destruct (subjectHint st) as [subject|] eqn:Hhint.
    + apply bind_Ok in H as (arrays & fxa & Hupdate & H). inversion H; subst.
      unfold handleUpdate in Hupdate.
      destruct (find "input" (arguments node)) as [inputValue|] eqn:Hinput;
        [|discriminate].
      destruct inputValue; try discriminate.
      apply bind_Ok in Hupdate as (arrays0 & fxb & Hfields & Hcheck).
      destruct (length (insertQuads arrays0) =? 0)%nat; [discriminate|].
      inversion Hcheck; subst.
      apply forEach_updateField_Ok in Hfields
        as ((ins & del & Hi1 & Hd1 & Hw1 & Hg) & Hin); [|apply Hs; reflexivity].
      simpl in Hi1, Hd1, Hw1.
      unfold wellFormedLocals, setUpdateArrays; simpl.
      split; [|split; [|split; [|split; [|split]]]];
        try assumption; try reflexivity.
      * split; [|split; [|split; [|split]]]; simpl; try assumption.
        -- rewrite Hi1. apply ground_app; assumption.
        -- rewrite Hw1, Hd1, Hw, map_app. reflexivity.
        -- rewrite Hhint. exact Hs.
      * simpl. exists del. exact Hd1.
      * intros subject0 fields0 f v _ Hsub Hfs Hfv.
        inversion Hsub; subst. inversion Hfs; subst.
        apply Hin in Hfv as (_ & iri & Hiri & Hmem). exists iri. auto.
    + inversion H; subst.
      destruct (Hsame _ eq_refl) as (Ha & Hb & Hc' & Hd' & He).
      repeat (split; [assumption|]).
      intros subject fields f v Hu Hsub; discriminate.
  - (* delete *)
    destruct (subjectHint st) as [subject|] eqn:Hhint.
    + apply bind_Ok in H as (r & fxa & Hdel & H). inversion H; subst.
      unfold handleDelete in Hdel.
      apply bind_Ok in Hdel as (pat & fxb & Hpat & Hdel).
      unfold quadToAlgebraPattern, createPattern in Hpat.
      inversion Hpat; subst. inversion Hdel; subst.
      unfold wellFormedLocals, setDeleteArrays; simpl.
      split; [|split; [|split; [|split; [|split]]]];
        try assumption; try reflexivity; try discriminate.
      * split; [|split; [|split; [|split]]]; simpl; try assumption.
        -- rewrite Hd, map_app. reflexivity.
        -- rewrite Hhint. exact Hs.
      * exists []. symmetry. apply app_nil_r.
    + inversion H; subst.
      destruct (Hsame _ eq_refl) as (Ha & Hb & Hc' & Hd' & He).
      repeat (split; [assumption|]).
      intros subject fields f v Hu Hsub; discriminate.
  - inversion H; subst.
    destruct (Hsame _ eq_refl) as (Ha & Hb & Hc' & Hd' & He).
    repeat (split; [assumption|]).
    intros subject fields f v Hu Hsub; discriminate.
Qed.

Lemma setOperation_wellFormed opType entity hint st :
  wellFormedLocals st ->
  (forall s, hint = Some s -> exists iri, s = NamedNode iri) ->
  wellFormedLocals (setOperation opType entity hint st).
Proof.
  intros (Hc & Hi & Hw & Hd & Hs) Hh. repeat split; assumption.
Qed.

Lemma visitField_wellFormed node st fx st1 fx1 :
  wellFormedLocals st ->
  visitField context random16 node st fx = Ok st1 fx1 ->
  wellFormedLocals st1 /\ is_Some (operationType st1).
Proof.
  intros Hwf H. unfold visitField in H.
  apply bind_Ok in H as (st0 & fx0 & Hident & Hproc).
  assert (wellFormedLocals st0 /\ is_Some (operationType st0)) as [Hwf0 Hop0].
  { destruct (operationType st) eqn:Hop.
    - inversion Hident; subst. rewrite Hop. eauto.
    - apply identifyOperation_Ok in Hident
        as (_ & opType & entity & hint & _ & -> & Hhint).
      split; [|simpl; eauto].
      apply setOperation_wellFormed; [exact Hwf|].
      destruct Hhint as [[_ ->]|(_ & s & _ & _ & ->)].
      + apply Hwf.
      + intros s0 Hs0. inversion Hs0. eauto. }
  apply processField_Ok in Hproc as (Hwf1 & Hop1 & _); [|exact Hwf0].
  rewrite Hop1. auto.
Qed.

Lemma visitFields_wellFormed nodes st fx st1 fx1 :
  wellFormedLocals st ->
  forEach (visitField context random16) nodes st fx = Ok st1 fx1 ->
  wellFormedLocals st1.
Proof.
  revert st fx. induction nodes as [|node nodes IH]; simpl; intros st fx Hwf H.
  - inversion H; subst. exact Hwf.
  - apply bind_Ok in H as (st0 & fx0 & Hf & H).
    apply visitField_wellFormed in Hf as [Hwf0 _]; [|exact Hwf].
    eapply IH; eassumption.
Qed.

Lemma initialLocals_wellFormed : wellFormedLocals initialLocals.
Proof. repeat split; try constructor. discriminate. Qed.

End VisitInvariant.

Section Build.

Variable context : gmap string Json.
Variable random16 : nat -> N.

Lemma mapQuadToAlgebraPattern_inv quads fx ps fx1 :
  mapQuadToAlgebraPattern quads fx = Ok ps fx1 -> ps = map quadPattern quads.
Proof.
  destruct (mapQuadToAlgebraPattern_Ok quads fx) as (fxm & Hm).
  rewrite Hm. intros H. inversion H. reflexivity.
Qed.

Lemma buildOperation_Ok st fx operation fx1 :
  buildOperation st fx = Ok operation fx1 ->
  exists di,
    updates operation = [di] /\
    match operationType st with
    | Some create =>
        di = mkDeleteInsert None (Some (map quadPattern (createQuads st))) None
    | Some update =>
        deletePatterns di = map quadPattern (updateDeleteQuads st) /\
        insertPatterns di = map quadPattern (updateInsertQuads st) /\
        wherePatternsOf di = updateWherePatterns st
    | Some delete =>
        di = mkDeleteInsert (Some (map quadPattern (deleteQuads st))) None
                            (Some (mkBgp (deleteWherePatterns st)))
    | None => False
    end.
Proof.
  unfold buildOperation. destruct (operationType st) as [[| |]|]; [| | |discriminate].
  - destruct (nonEmpty (createQuads st)); [|discriminate].
    intros H. apply bind_Ok in H as (ins & fxa & Hins & H).
    apply mapQuadToAlgebraPattern_inv in Hins as ->.
    unfold bind, createDeleteInsert, createCompositeUpdate in H. inversion H.
    eexists. split; reflexivity.
  - destruct (nonEmpty (updateInsertQuads st) || nonEmpty (updateDeleteQuads st));
      [|discriminate].
    destruct (negb (nonEmpty (updateInsertQuads st)) &&
              negb (nonEmpty (updateDeleteQuads st))); [discriminate|].
    intros H. apply bind_Ok in H as (whereBgp & fxa & Hw & H).
    unfold createBgp in Hw. inversion Hw; subst.
    apply bind_Ok in H as (del & fxb & Hdel & H).
    apply bind_Ok in H as (ins & fxc & Hins & H).
    unfold bind, createDeleteInsert, createCompositeUpdate in H. inversion H.
    eexists. split; [reflexivity|]. unfold deletePatterns, insertPatterns,
      wherePatternsOf. simpl. repeat split.
    + unfold nonEmpty in Hdel.
      destruct (updateDeleteQuads st) as [|q qs] eqn:Hq; simpl in Hdel.
      * inversion Hdel. reflexivity.
      * apply bind_Ok in Hdel as (ps & fxd & Hps & Hdel).
        apply (mapQuadToAlgebraPattern_inv (q :: qs)) in Hps as ->.
        inversion Hdel. reflexivity.
    + unfold nonEmpty in Hins.
      destruct (updateInsertQuads st) as [|q qs] eqn:Hq; simpl in Hins.
      * inversion Hins. reflexivity.
      * apply bind_Ok in Hins as (ps & fxd & Hps & Hins).
        apply (mapQuadToAlgebraPattern_inv (q :: qs)) in Hps as ->.
        inversion Hins. reflexivity.
  - destruct (nonEmpty (deleteQuads st)); [|discriminate].
    intros H. apply bind_Ok in H as (whereBgp & fxa & Hw & H).
    unfold createBgp in Hw. inversion Hw; subst.
    apply bind_Ok in H as (del & fxb & Hdel & H).
    apply mapQuadToAlgebraPattern_inv in Hdel as ->.
    unfold bind, createDeleteInsert, createCompositeUpdate in H. inversion H.
    eexists. split; reflexivity.
Qed.

Lemma ground_no_variables quads :
  ground quads -> variablesOf (map quadPattern quads) = [].
Proof.
  unfold variablesOf.
  induction 1 as [|q quads Hq _ IH]; simpl; [reflexivity|].
  unfold quadVars in Hq. rewrite Hq, IH. reflexivity.
Qed.

(** From the first root field on, the visit of an update goes through
    [handleUpdate] with the subject of the first field *)
Lemma visitFields_update nodes st fx st1 fx1 subject :
  wellFormedLocals st ->
  operationType st = Some update -> subjectHint st = Some subject ->
  forEach (visitField context random16) nodes st fx = Ok st1 fx1 ->
  operationType st1 = Some update /\
  (exists more, updateDeleteQuads st1 = updateDeleteQuads st ++ more) /\
  forall node fields f v,
    In node nodes ->
    find "input" (arguments node) = Some (ObjectValue fields) ->
    In (f, v) fields ->
    exists iri, termIri (context !! f) = Some iri /\
                In (oldValueQuad subject iri f) (updateDeleteQuads st1).
Proof.
  revert st fx. induction nodes as [|node nodes IH]; simpl;
    intros st fx Hwf Hop Hhint H.
  - inversion H; subst. split; [exact Hop|]. split.
    + exists []. symmetry. apply app_nil_r.
    + intros node fields f v [].
  - apply bind_Ok in H as (st0 & fx0 & Hf & H).
    unfold visitField in Hf. rewrite Hop in Hf.
    apply bind_Ok in Hf as (st' & fx' & Hret & Hproc). inversion Hret; subst.
    apply processField_Ok in Hproc
      as (Hwf0 & Hop0 & _ & Hhint0 & (more0 & Hmore0) & Hfields); [|exact Hwf].
    rewrite Hop in Hop0. rewrite Hhint in Hhint0.
    apply IH in H as (Hop1 & (more1 & Hmore1) & Hrest); try assumption.
    split; [exact Hop1|]. split.
    + exists (more0 ++ more1). rewrite Hmore1, Hmore0, app_assoc. reflexivity.
    + intros n fields f v [<-|Hn] Hinput Hfv.
      * destruct (Hfields subject fields f v Hop Hhint Hinput Hfv)
          as (iri & Hiri & Hmem).
        exists iri. split; [exact Hiri|]. rewrite Hmore1.
        apply in_or_app. left. exact Hmem.
      * eapply Hrest; eassumption.
Qed.

Lemma visit_first first rest fx st1 fx1 :
  forEach (visitField context random16) (first :: rest) initialLocals fx = Ok st1 fx1 ->
  exists st0,
    identifyOperation context first initialLocals fx = Ok st0 fx /\
    forEach (visitField context random16) (first :: rest) st0 fx = Ok st1 fx1.
Proof.
  simpl. intros H. apply bind_Ok in H as (st' & fx' & Hf & H).
  unfold visitField in Hf. simpl in Hf.
  apply bind_Ok in Hf as (st0 & fx0 & Hident & Hproc).
  pose proof Hident as Hident'.
  apply identifyOperation_Ok in Hident' as (-> & opType & entity & hint & _ & -> & _).
  exists (setOperation opType entity hint initialLocals). split; [exact Hident|].
  unfold visitField, setOperation in *. simpl in *.
  unfold bind, ret in *. rewrite Hproc. exact H.
Qed.

End Build.

(* --------------------------------------------------------------------- *)
(** ** MutationConverter: variables of a compiled mutation *)
(* --------------------------------------------------------------------- *)

(** C4. In the [DeleteInsert] of a mutation that compiles, every variable
    of the delete patterns and of the insert patterns occurs in the where
    clause; and when the first root field is an update, for every field [f]
    of the input of a root field the pattern [<subject> predicate_iri(f)
    ?old_f] is among the delete patterns and among the where patterns. *)
Theorem compiled_variables_occur_in_where
    (context : gmap string Json) (random16 : nat -> N) (ast : DocumentNode)
    (fx : Effects) (operation : CompositeUpdate) (fx1 : Effects) :
  convert context random16 ast fx = Ok operation fx1 ->
  exists di,
    updates operation = [di] /\
    (forall x, In x (variablesOf (deletePatterns di)) ->
               In x (variablesOf (wherePatternsOf di))) /\
    (forall x, In x (variablesOf (insertPatterns di)) ->
               In x (variablesOf (wherePatternsOf di))) /\
    (forall first rest entity,
       rootFields ast = first :: rest ->
       classify (name first) = Some (update, entity) ->
       exists iriValue,
         find "id" (arguments first) = Some (StringValue iriValue) /\
         forall node fields f v,
           In node (first :: rest) ->
           find "input" (arguments node) = Some (ObjectValue fields) ->
           In (f, v) fields ->
           exists predicateIri,
             getPredicateIri context f fx = Ok predicateIri fx /\
             In (mkPattern (NamedNode (expand_iri_spec context iriValue)) predicateIri
                           (VariableTerm ("old_" +:+ f)) DefaultGraph)
                (deletePatterns di) /\
             In (mkPattern (NamedNode (expand_iri_spec context iriValue)) predicateIri
                           (VariableTerm ("old_" +:+ f)) DefaultGraph)
                (wherePatternsOf di)).
Proof.
  intros H. unfold convert in H.
  apply bind_Ok in H as (st & fxv & Hvisit & Hbuild).
  apply visit_Ok in Hvisit.
  pose proof (visitFields_wellFormed _ _ _ _ _ _ _ initialLocals_wellFormed Hvisit)
    as (Hc & Hi & Hw & Hd & Hs).
  apply buildOperation_Ok in Hbuild as (di & Hdi & Hshape).
  exists di. split; [exact Hdi|].
  destruct (operationType st) as [[| |]|] eqn:Hop; [| | |contradiction].
  - (* create *)
    subst di. unfold deletePatterns, insertPatterns, wherePatternsOf. simpl.
    rewrite (ground_no_variables _ Hc).
    split; [intros x []|]. split; [intros x []|].
    intros first rest entity Hroot Hclass. exfalso.
    rewrite Hroot in Hvisit. apply visit_first in Hvisit as (st0 & Hident & Hrest).
    apply identifyOperation_Ok in Hident
      as (_ & opType & entity0 & hint & Hclass0 & -> & Hhint).
    rewrite Hclass in Hclass0. inversion Hclass0; subst.
    destruct Hhint as [[Habs _]|(_ & s & _ & _ & ->)]; [discriminate|].
    apply visitFields_update with (subject := NamedNode (expand_iri_spec context s))
      in Hrest as (Hop1 & _); try reflexivity.
    + rewrite Hop in Hop1. discriminate.
    + apply setOperation_wellFormed; [apply initialLocals_wellFormed|].
      intros s0 Hs0. inversion Hs0. eauto.
  - (* update *)
    destruct Hshape as (Hdel & Hins & Hwhere).
    rewrite Hdel, Hins, Hwhere, Hw, (ground_no_variables _ Hi).
    split; [auto|]. split; [intros x []|].
    intros first rest entity Hroot Hclass.
    rewrite Hroot in Hvisit. apply visit_first in Hvisit as (st0 & Hident & Hrest).
    apply identifyOperation_Ok in Hident
      as (_ & opType & entity0 & hint & Hclass0 & -> & Hhint).
    rewrite Hclass in Hclass0. inversion Hclass0; subst.
    destruct Hhint as [[Habs _]|(_ & s & Hid & _ & ->)]; [discriminate|].
    exists s. split; [exact Hid|].
    apply visitFields_update with (subject := NamedNode (expand_iri_spec context s))
      in Hrest as (_ & _ & Hfields); try reflexivity.
    + intros node fields f v Hnode Hinput Hfv.
      destruct (Hfields node fields f v Hnode Hinput Hfv) as (iri & Hiri & Hmem).
      exists (NamedNode iri). unfold getPredicateIri. rewrite Hiri.
      split; [reflexivity|].
      apply (in_map quadPattern) in Hmem. auto.
    + apply setOperation_wellFormed; [apply initialLocals_wellFormed|].
      intros s0 Hs0. inversion Hs0. eauto.
  - (* delete *)
    subst di. unfold deletePatterns, insertPatterns, wherePatternsOf. simpl.
    rewrite Hd. split; [auto|]. split; [intros x []|].
    intros first rest entity Hroot Hclass. exfalso.
    rewrite Hroot in Hvisit. apply visit_first in Hvisit as (st0 & Hident & Hrest).
    apply identifyOperation_Ok in Hident
      as (_ & opType & entity0 & hint & Hclass0 & -> & Hhint).
    rewrite Hclass in Hclass0. inversion Hclass0; subst.
    destruct Hhint as [[Habs _]|(_ & s & _ & _ & ->)]; [discriminate|].
    apply visitFields_update with (subject := NamedNode (expand_iri_spec context s))
      in Hrest as (Hop1 & _); try reflexivity.
    + rewrite Hop in Hop1. discriminate.
    + apply setOperation_wellFormed; [apply initialLocals_wellFormed|].
      intros s0 Hs0. inversion Hs0. eauto.
Qed.

Lemma compiled_variables_occur_in_where_witness :
  exists operation fx1 di,
    convert exampleContext (fun _ => 0%N) updateUserMutation noEffects
      = Ok operation fx1 /\
    updates operation = [di] /\
    (forall x, In x (variablesOf (deletePatterns di)) ->
               In x (variablesOf (wherePatternsOf di))) /\
    In (mkPattern (NamedNode "http://example.org/ex:user1")
                  (NamedNode "http://xmlns.com/foaf/0.1/name")
                  (VariableTerm "old_name") DefaultGraph)
       (wherePatternsOf di).
Proof.
  eexists. eexists.
  edestruct (compiled_variables_occur_in_where exampleContext (fun _ => 0%N)
               updateUserMutation noEffects) as (di & Hdi & Hdel & _ & Hupd);
    [reflexivity|].
  exists di. split; [reflexivity|]. split; [exact Hdi|]. split; [exact Hdel|].
  destruct (Hupd _ _ "User" eq_refl eq_refl) as (s & Hs & Hfields).
  inversion Hs; subst s.
  destruct (Hfields _ _ "name" (StringValue "Alicia") (or_introl eq_refl) eq_refl
              (or_introl eq_refl)) as (p & Hp & _ & Hwhere).
  inversion Hp; subst p. exact Hwhere.
Defined.

(* --------------------------------------------------------------------- *)
(** ** MutationConverter: compilations that fail at the first root field *)
(* --------------------------------------------------------------------- *)

Section FirstField.

Variable context : gmap string Json.
Variable random16 : nat -> N.




End FirstField.







(* --------------------------------------------------------------------- *)
(** ** MutationConverter: the triples of a create *)
(* --------------------------------------------------------------------- *)

Section CreateTriples.

Variable context : gmap string Json.

(** Every quad pushed for an input field has the subject of the create as
    its subject, but the inverse quads, which have it as their object *)
Lemma blocks_subject localSubject fields blocks q :
  Forall2 (fieldEmits context localSubject) fields blocks ->
  In q (concat blocks) ->
  q_subject q = localSubject \/
  exists f v inverse,
    In (f, StringValue v) fields /\ f <> "id" /\
    isRelationshipInput context f = true /\
    pureM (getInversePredicateIri context (relationshipNameOf f)) (Some inverse) /\
    q = quad (NamedNode (expand_iri_spec context v)) inverse localSubject.
Proof.
  intros H. induction H as [|field block fields blocks Hb _ IH]; simpl; [contradiction|].
  intros Hin. apply in_app_or in Hin as [Hin|Hin].
  - destruct Hb as [v | f v p0 p inv Hid Hrel _ _ Hinv | f val p lit _ _ _ _].
    + contradiction.
    + destruct Hin as [<-|Hin]; [left; reflexivity|].
      destruct inv as [inverse|]; [|contradiction].
      destruct Hin as [<-|[]]. right. exists f, v, inverse.
      repeat split; auto; try (left; reflexivity).
    + destruct Hin as [<-|[]]. left. reflexivity.
  - destruct (IH Hin) as [Hs|(f & v & inverse & Hf & Hrest)]; [left; exact Hs|].
    right. exists f, v, inverse. split; [right; exact Hf | exact Hrest].
Qed.

(** The predicate of a quad pushed for an input field is what the context
    holds for the field, for its relationship or for the inverse of it *)
Lemma blocks_predicate localSubject fields blocks q :
  Forall2 (fieldEmits context localSubject) fields blocks ->
  In q (concat blocks) ->
  exists f v termName iri,
    In (f, v) fields /\ f <> "id" /\
    (termName = f \/ termName = relationshipNameOf f \/
     inverseNameOf (relationshipNameOf f) = Some termName) /\
    termIri (context !! termName) = Some iri /\
    q_predicate q = NamedNode iri.
Proof.
  intros H. induction H as [|field block fields blocks Hb _ IH]; simpl; [contradiction|].
  intros Hin. apply in_app_or in Hin as [Hin|Hin].
  - destruct Hb as [v | f v p0 p inv Hid Hrel _ Hp Hinv | f val p lit Hid _ Hp _].
    + contradiction.
    + destruct Hin as [<-|Hin].
      * exists f, (StringValue v), (relationshipNameOf f), p.
        repeat split; auto; try (left; reflexivity).
      * destruct inv as [inverse|]; [|contradiction].
        destruct Hin as [<-|[]].
        destruct (getInversePredicateIri_pure context (relationshipNameOf f))
          as (inv' & Hinv' & Hshape).
        rewrite (pureM_unique _ _ _ Hinv' Hinv) in Hshape.
        destruct (Hshape inverse eq_refl) as (inverseName & iri & Htable & Hiri & ->).
        exists f, (StringValue v), inverseName, iri.
        repeat split; auto; try (left; reflexivity).
    + destruct Hin as [<-|[]].
      exists f, val, f, p. repeat split; auto; try (left; reflexivity).
  - destruct (IH Hin) as (f & v & termName & iri & Hf & Hrest).
    exists f, v, termName, iri. split; [right; exact Hf | exact Hrest].
Qed.

(** A string-valued relationship field has its forward quad pushed, and
    its inverse quad when there is an inverse predicate *)
Lemma blocks_relationship localSubject fields blocks f v :
  Forall2 (fieldEmits context localSubject) fields blocks ->
  In (f, StringValue v) fields -> f <> "id" ->
  isRelationshipInput context f = true ->
  exists p,
    termIri (context !! relationshipNameOf f) = Some p /\
    In (quad localSubject (NamedNode p) (NamedNode (expand_iri_spec context v)))
       (concat blocks) /\
    forall inverse,
      pureM (getInversePredicateIri context (relationshipNameOf f)) (Some inverse) ->
      In (quad (NamedNode (expand_iri_spec context v)) inverse localSubject)
         (concat blocks).
Proof.
  intros H Hin Hid Hrel.
  induction H as [|field block fields blocks Hb _ IH]; simpl; [contradiction|].
  destruct Hin as [->|Hin].
  - inversion Hb as [v0 | f0 v0 p0 p inv _ _ _ Hp Hinv | f0 val p lit _ Hnot _ _]; subst.
    + contradiction.
    + exists p. split; [exact Hp|]. split; [apply in_or_app; left; left; reflexivity|].
      intros inverse Hinverse.
      rewrite (pureM_unique _ _ _ Hinv Hinverse).
      apply in_or_app. left. right. left. reflexivity.
    + rewrite (Hnot v eq_refl) in Hrel. discriminate.
  - destruct (IH Hin) as (p & Hp & Hfwd & Hinv).
    exists p. split; [exact Hp|]. split; [apply in_or_app; right; exact Hfwd|].
    intros inverse Hinverse. apply in_or_app. right. apply Hinv, Hinverse.
Qed.

End CreateTriples.

Section VisitCreate.

Variable context : gmap string Json.
Variable random16 : nat -> N.

(** From the first root field on, the visit of a create goes through
    [handleCreate] with the entity of the first field, and keeps every quad
    it has pushed *)
Lemma visitFields_create nodes st fx st1 fx1 :
  operationType st = Some create ->
  forEach (visitField context random16) nodes st fx = Ok st1 fx1 ->
  operationType st1 = Some create /\
  (forall q, In q (createQuads st) -> In q (createQuads st1)) /\
  forall node fields,
    In node nodes ->
    find "input" (arguments node) = Some (ObjectValue fields) ->
    exists localSubject blocks fxa fxb,
      createSubject context random16 fields fxa = Ok localSubject fxb /\
      Forall2 (fieldEmits context localSubject) fields blocks /\
      forall q, In q (concat blocks) -> In q (createQuads st1).
Proof.
  revert st fx. induction nodes as [|node nodes IH]; simpl; intros st fx Hop H.
  - inversion H; subst. split; [exact Hop|]. split; [auto|]. intros node fields [].
  - apply bind_Ok in H as (st0 & fx0 & Hf & H).
    unfold visitField in Hf. rewrite Hop in Hf.
    apply bind_Ok in Hf as (st' & fx' & Hret & Hproc). inversion Hret; subst.
    unfold processField in Hproc. rewrite Hop in Hproc.
    apply bind_Ok in Hproc as (quads & fxq & Hcreate & Hret').
    inversion Hret'; subst.
    apply handleCreate_Ok in Hcreate
      as (fields0 & typeIri & localSubject & blocks & Hinput0 & _ & Hs & Hblocks & ->).
    apply IH in H as (Hop1 & Hkeep & Hrest); [|exact Hop].
    split; [exact Hop1|]. split.
    + intros q Hq. apply Hkeep. simpl. apply in_or_app. left. exact Hq.
    + intros n fields [<-|Hn] Hinput.
      * rewrite Hinput in Hinput0. inversion Hinput0; subst fields0.
        exists localSubject, blocks, fx', fx0. split; [exact Hs|].
        split; [exact Hblocks|].
        intros q Hq. apply Hkeep. simpl. apply in_or_app. right. right. exact Hq.
      * exact (Hrest n fields Hn Hinput).
Qed.

End VisitCreate.


Lemma pureM_of_Ok {A} (m : M A) (a b : A) fx :
  pureM m a -> m fx = Ok b fx -> b = a.
Proof. intros Hp H. rewrite (Hp fx) in H. inversion H. reflexivity. Qed.

(** C2 (amended). In a create with one root field that compiles, the
    subject is [expand_iri(input.id)] when the input holds a string [id],
    and a single IRI [urn:uuid:] followed by 36 characters of [0-9a-f-]
    when it holds no [id]; every emitted triple has that subject, except
    the inverse triples of the relationship fields, which have it as their
    object. *)
Theorem create_triples_share_subject
    (context : gmap string Json) (random16 : nat -> N) (node : FieldNode)
    (entityName : string) (fx : Effects) (operation : CompositeUpdate)
    (fx1 : Effects) :
  (forall i, (random16 i < 16)%N) ->
  classify (name node) = Some (create, entityName) ->
  convert context random16 (singleMutation node) fx = Ok operation fx1 ->
  exists fields localSubject triples,
    find "input" (arguments node) = Some (ObjectValue fields) /\
    updates operation = [mkDeleteInsert None (Some triples) None] /\
    (forall iriValue,
       find "id" fields = Some (StringValue iriValue) ->
       localSubject = NamedNode (expand_iri_spec context iriValue)) /\
    (find "id" fields = None ->
     exists uuid,
       localSubject = NamedNode ("urn:uuid:" +:+ uuid) /\
       matchesUuidPattern uuid = true) /\
    (forall t, In t triples ->
       subject t = localSubject \/
       exists f v inverse,
         In (f, StringValue v) fields /\ f <> "id" /\
         isRelationshipInput context f = true /\
         getInversePredicateIri context (relationshipNameOf f) fx
           = Ok (Some inverse) fx /\
         t = mkPattern (NamedNode (expand_iri_spec context v)) inverse
                       localSubject DefaultGraph).
Proof.
  intros Hrange Hclass H.
  apply convert_create_Ok with (entityName := entityName) in H
    as (fields & typeIri & localSubject & blocks & fx0 & Hinput & _ & Hs & Hblocks & ->);
    [|exact Hclass].
  exists fields, localSubject. eexists.
  split; [exact Hinput|]. split; [reflexivity|].
  apply createSubject_Ok in Hs as (_ & Hs).
  split; [|split].
  - intros iriValue Hid.
    destruct Hs as [(s & Hs & _ & ->)|(Hnone & _)]; [|congruence].
    rewrite Hid in Hs. inversion Hs. reflexivity.
  - intros Hnone.
    destruct Hs as [(s & Hs & _)|(_ & uuid & fxu & Hu & ->)]; [congruence|].
    exists uuid. split; [reflexivity|].
    destruct (generateUUID_Ok random16 Hrange fx) as (u & fxu' & Hu' & _ & Hmatch).
    rewrite Hu in Hu'. inversion Hu'; subst. exact Hmatch.
  - intros t Ht. simpl in Ht. destruct Ht as [<-|Ht]; [left; reflexivity|].
    apply in_map_iff in Ht as (q & <- & Hq).
    destruct (blocks_subject context localSubject fields blocks q Hblocks Hq)
      as [Hsub|(f & v & inverse & Hf & Hid & Hrel & Hinv & ->)].
    + left. exact Hsub.
    + right. exists f, v, inverse. repeat split; auto.
Qed.

Lemma create_triples_share_subject_witness :
  exists fields localSubject triples,
    find "input" (arguments createReviewField) = Some (ObjectValue fields) /\
    updates (compiled exampleContext (fun _ => 7%N) (singleMutation createReviewField))
      = [mkDeleteInsert None (Some triples) None] /\
    localSubject = NamedNode "http://example.org/ex:r1".
Proof.
  destruct (create_triples_share_subject exampleContext (fun _ => 7%N)
              createReviewField "Review" noEffects
              (compiled exampleContext (fun _ => 7%N) (singleMutation createReviewField))
              (effectsOf exampleContext (fun _ => 7%N) (singleMutation createReviewField))
              (fun i => eq_refl) eq_refl eq_refl)
    as (fields & localSubject & triples & Hinput & Hop & Hid & _).
  exists fields, localSubject, triples.
  split; [exact Hinput|]. split; [exact Hop|].
  inversion Hinput; subst fields. exact (Hid "ex:r1" eq_refl).
Defined.

(** C2, as stated, fails: the inverse triple of [productId] has the
    product as its subject, not the review that [input.id] names. *)
Lemma inverse_triple_has_another_subject :
  (exists fx1,
     convert exampleContext (fun _ => 7%N) createReviewMutation noEffects
       = Ok (mkCompositeUpdate
               [mkDeleteInsert None
                  (Some [mkPattern (NamedNode "http://example.org/ex:r1") RDF_TYPE_NODE
                                   (NamedNode "http://schema.org/Review") DefaultGraph;
                         mkPattern (NamedNode "http://example.org/ex:r1")
                                   (NamedNode "http://schema.org/itemReviewed")
                                   (NamedNode "http://example.org/ex:p1") DefaultGraph;
                         mkPattern (NamedNode "http://example.org/ex:p1")
                                   (NamedNode "http://schema.org/review")
                                   (NamedNode "http://example.org/ex:r1") DefaultGraph])
                  None])
            fx1) /\
  expand_iri_spec exampleContext "ex:r1" = "http://example.org/ex:r1" /\
  NamedNode "http://example.org/ex:p1"
    <> NamedNode (expand_iri_spec exampleContext "ex:r1").
Proof.
  split; [eexists; reflexivity|]. split; [reflexivity | discriminate].
Qed.

Section TypeTriples.

Variable context : gmap string Json.
Variable random16 : nat -> N.

Lemma getTypeIri_pure entity fx t fx1 :
  getTypeIri context entity fx = Ok t fx1 -> pureM (getTypeIri context entity) t.
Proof.
  unfold getTypeIri, pureM.
  destruct (termIri _) as [iri|].
  { intros H fx0. inversion H. reflexivity. }
  destruct (context !! "@vocab") as [[| b | z | s | items | props]|];
    try discriminate.
  intros H fx0. inversion H. reflexivity.
Qed.

(** Where the entry under the name is a term or nothing, [getTypeIri]
    resolves the name in the order of the specification *)
Lemma getTypeIri_refines entity typeIri :
  termOrNothing context entity ->
  pureM (getTypeIri context entity) typeIri ->
  exists iri, typeIri = NamedNode iri /\ type_iri_spec context entity = Some iri.
Proof.
  unfold termOrNothing, type_iri_spec. intros Hterm Hpure.
  specialize (Hpure noEffects). unfold getTypeIri in Hpure.
  destruct (hasTruthy context entity).
  - destruct (proj1 Hterm eq_refl) as [iri Hiri]. rewrite Hiri in *.
    inversion Hpure. eauto.
  - destruct (termIri (context !! entity)) as [iri|] eqn:Hexact.
    { assert (Hsome : is_Some (Some iri)) by eauto.
      apply Hterm in Hsome. discriminate. }
    destruct (termIri (context !! capitalize entity)) as [iri|].
    { inversion Hpure. eauto. }
    destruct (context !! "@vocab") as [[| b | z | s | items | props]|];
      try discriminate.
    inversion Hpure. eauto.
Qed.

(** The patterns of the quads that [handleCreate] pushes for a root field *)
Lemma handleCreate_typedBlock node entityName quads fx quads1 fx1 :
  handleCreate context random16 node entityName quads fx = Ok quads1 fx1 ->
  exists typeIri block,
    pureM (getTypeIri context entityName) typeIri /\
    quads1 = quads ++ block /\
    typedBlock context random16 typeIri node (map quadPattern block).
Proof.
  intros H. apply handleCreate_Ok in H
    as (fields & typeIri & localSubject & blocks & Hinput & Ht & Hs & Hblocks & ->).
  exists typeIri, (quad localSubject RDF_TYPE_NODE typeIri :: concat blocks).
  split; [eapply getTypeIri_pure; exact Ht|]. split; [reflexivity|].
  exists fields, localSubject, (map quadPattern (concat blocks)), fx, fx1.
  split; [exact Hinput|]. split; [exact Hs|]. split; [reflexivity|].
  intros t Hin Hpred. apply in_map_iff in Hin as (q & <- & Hq).
  destruct (blocks_predicate context localSubject fields blocks q Hblocks Hq)
    as (f & v & termName & iri & Hf & Hid & Hname & Hiri & Hqp).
  simpl in Hpred. rewrite Hqp in Hpred. inversion Hpred; subst iri.
  exists f, v, termName. auto.
Qed.

(** From the first root field on, the visit of a create pushes the triples
    of one root field after those of another, each under the entity of the
    first field *)
Lemma visitFields_create_blocks nodes st fx st1 fx1 :
  operationType st = Some create ->
  forEach (visitField context random16) nodes st fx = Ok st1 fx1 ->
  exists blocks,
    Forall2 (fun node block =>
               exists typeIri,
                 pureM (getTypeIri context (entityNameOf st)) typeIri /\
                 typedBlock context random16 typeIri node block)
            nodes blocks /\
    map quadPattern (createQuads st1) = map quadPattern (createQuads st) ++ concat blocks.
Proof.
  revert st fx. induction nodes as [|node nodes IH]; simpl; intros st fx Hop H.
  - inversion H; subst. exists []. split; [constructor|].
    simpl. symmetry. apply app_nil_r.
  - apply bind_Ok in H as (st0 & fx0 & Hf & H).
    unfold visitField in Hf. rewrite Hop in Hf.
    apply bind_Ok in Hf as (st' & fx' & Hret & Hproc). inversion Hret; subst.
    unfold processField in Hproc. rewrite Hop in Hproc.
    apply bind_Ok in Hproc as (quads & fxq & Hcreate & Hret').
    inversion Hret'; subst.
    apply handleCreate_typedBlock in Hcreate as (typeIri & block & Hpure & -> & Hblock).
    apply IH in H as (blocks & Hblocks & Hquads); [|exact Hop].
    exists (map quadPattern block :: blocks). split.
    + constructor; [exists typeIri; auto | exact Hblocks].
    + rewrite Hquads. simpl. rewrite map_app, <- app_assoc. reflexivity.
Qed.

End TypeTriples.

(** C3 (amended). A create that compiles emits the triples of its root
    fields one root field after another, and those of a root field begin
    with its type triple [<subject> rdf:type T]: one type triple for every
    root field. [T] is the same for all of them: the type of [Entity], the
    name of the first root field without its prefix, which is
    [type_iri(Entity)], resolved by the exact name, then the capitalized
    name, then the vocabulary, wherever the entry of the context under
    [Entity] reads as true exactly when it is a term definition. Any other
    emitted triple whose predicate is [rdf:type] comes from an input field
    for which the context maps the field, its relationship or the inverse
    of it to [rdf:type]. *)
Theorem create_emits_type_triple
    (context : gmap string Json) (random16 : nat -> N) (ast : DocumentNode)
    (first : FieldNode) (rest : list FieldNode) (entityName : string)
    (fx : Effects) (operation : CompositeUpdate) (fx1 : Effects) :
  convert context random16 ast fx = Ok operation fx1 ->
  rootFields ast = first :: rest ->
  classify (name first) = Some (create, entityName) ->
  exists typeIri blocks,
    entityName = substringFrom 6 (name first) /\
    getTypeIri context entityName fx = Ok (NamedNode typeIri) fx /\
    (termOrNothing context entityName ->
     type_iri_spec context entityName = Some typeIri) /\
    Forall2 (typedBlock context random16 (NamedNode typeIri)) (first :: rest) blocks /\
    updates operation = [mkDeleteInsert None (Some (concat blocks)) None].
Proof.
  intros H Hroot Hclass. unfold convert in H.
  apply bind_Ok in H as (st & fxv & Hvisit & Hbuild).
  apply visit_Ok in Hvisit. rewrite Hroot in Hvisit.
  apply visit_first in Hvisit as (st0 & Hident & Hvisit).
  apply identifyOperation_Ok in Hident
    as (_ & opType & entity0 & hint & Hclass0 & -> & _).
  rewrite Hclass in Hclass0. inversion Hclass0; subst opType entity0.
  pose proof Hvisit as Hop.
  apply visitFields_create in Hop as (Hop & _); [|reflexivity].
  apply visitFields_create_blocks in Hvisit as (blocks & Hblocks & Hquads);
    [|reflexivity].
  simpl in Hquads.
  apply buildOperation_Ok in Hbuild as (di & Hdi & Hshape).
  rewrite Hop in Hshape. subst di. rewrite Hquads in Hdi.
  inversion Hblocks as [|node block nodes blocks' [typeIri [Hpure _]] _]; subst.
  unfold entityNameOf in Hpure. simpl in Hpure.
  pose proof (Hpure fx) as Htype.
  destruct (getTypeIri_Ok context entityName fx typeIri fx Htype) as (_ & iri & ->).
  exists iri, (block :: blocks').
  split.
  { unfold classify in Hclass.
    destruct (startsWith "create" (name first)); [inversion Hclass; reflexivity|].
    destruct (startsWith "update" (name first)); [discriminate|].
    destruct (startsWith "delete" (name first)); discriminate. }
  split; [exact Htype|]. split.
  { intros Hterm.
    destruct (getTypeIri_refines context entityName _ Hterm Hpure) as (iri' & Heq & Hspec).
    inversion Heq; subst iri'. exact Hspec. }
  split; [|exact Hdi].
  eapply Forall2_impl; [exact Hblocks|].
  intros node0 block0 (typeIri0 & Hpure0 & Hblock0). simpl in Hpure0.
  rewrite (pureM_unique _ _ _ Hpure0 Hpure) in Hblock0. exact Hblock0.
Qed.

Lemma create_emits_type_triple_witness :
  type_iri_spec exampleContext "User" = Some "http://example.org/User" /\
  exists blocks,
    Forall2 (typedBlock exampleContext (fun _ => 7%N)
               (NamedNode "http://example.org/User"))
            (rootFields createUserAndReviewMutation) blocks /\
    updates (compiled exampleContext (fun _ => 7%N) createUserAndReviewMutation)
      = [mkDeleteInsert None (Some (concat blocks)) None].
Proof.
  destruct (create_emits_type_triple exampleContext (fun _ => 7%N)
              createUserAndReviewMutation
              (mkField "createUser"
                 [("input", ObjectValue [("id", StringValue "ex:user1");
                                         ("name", StringValue "Alice")])])
              [mkField "createReview"
                 [("input", ObjectValue [("id", StringValue "ex:r1")])]]
              "User" noEffects
              (compiled exampleContext (fun _ => 7%N) createUserAndReviewMutation)
              (effectsOf exampleContext (fun _ => 7%N) createUserAndReviewMutation)
              eq_refl eq_refl eq_refl)
    as (typeIri & blocks & _ & Htype & Hspec & Hblocks & Hop).
  inversion Htype; subst typeIri.
  split.
  - apply Hspec. split; [intros _; vm_compute; eauto | reflexivity].
  - exists blocks. split; [exact Hblocks | exact Hop].
Defined.

(** C3, as stated, fails in three ways. The context maps the field [kind]
    to [rdf:type], and the create emits two triples with that predicate.
    A mutation with the root fields [createUser] and [createReview] emits
    a type triple for each of them, and both give the type of [User]. And
    for the entity [constructor], a name that the raw context inherits,
    the term [Constructor] of the context is passed over for the
    vocabulary. *)
Lemma type_triple_claim_fails :
  (exists fx1,
     convert exampleContext (fun _ => 7%N) createKindMutation noEffects
       = Ok (mkCompositeUpdate
               [mkDeleteInsert None
                  (Some [mkPattern (NamedNode "http://example.org/ex:user1")
                                   RDF_TYPE_NODE
                                   (NamedNode "http://example.org/User") DefaultGraph;
                         mkPattern (NamedNode "http://example.org/ex:user1")
                                   RDF_TYPE_NODE
                                   (Literal "Person" XSD_STRING) DefaultGraph])
                  None]) fx1) /\
  (exists fx1,
     convert exampleContext (fun _ => 7%N) createUserAndReviewMutation noEffects
       = Ok (mkCompositeUpdate
               [mkDeleteInsert None
                  (Some [mkPattern (NamedNode "http://example.org/ex:user1")
                                   RDF_TYPE_NODE
                                   (NamedNode "http://example.org/User") DefaultGraph;
                         mkPattern (NamedNode "http://example.org/ex:user1")
                                   (NamedNode "http://xmlns.com/foaf/0.1/name")
                                   (Literal "Alice" XSD_STRING) DefaultGraph;
                         mkPattern (NamedNode "http://example.org/ex:r1")
                                   RDF_TYPE_NODE
                                   (NamedNode "http://example.org/User") DefaultGraph])
                  None]) fx1) /\
  type_iri_spec exampleContext "Review" = Some "http://schema.org/Review" /\
  (exists fx1,
     convert constructorContext (fun _ => 7%N) createConstructorMutation noEffects
       = Ok (mkCompositeUpdate
               [mkDeleteInsert None
                  (Some [mkPattern (NamedNode "http://example.org/c1")
                                   RDF_TYPE_NODE
                                   (NamedNode "http://schema.org/constructor")
                                   DefaultGraph])
                  None]) fx1) /\
  type_iri_spec constructorContext "constructor"
    = Some "http://example.org/Constructor".
Proof.
  split; [eexists; reflexivity|]. split; [eexists; reflexivity|].
  split; [reflexivity|]. split; [eexists; reflexivity | reflexivity].
Qed.

(** The relationship branch of [handleCreate], when it is reached and the
    create compiles: every string-valued input field [f] other than [id]
    that ends in [Id] or is a relationship field has its forward triple
    [<subject> predicate_iri(r) <expand_iri(v)>] emitted, [r] being [f]
    without the suffix [Id] or [f]; and when the inverse table and the
    context give an inverse predicate [q] for [r], the inverse triple
    [<expand_iri(v)> q <subject>] is emitted too. *)
Lemma relationship_triples_of_a_compiled_create
    (context : gmap string Json) (random16 : nat -> N) (ast : DocumentNode)
    (first : FieldNode) (rest : list FieldNode) (entityName : string)
    (fx : Effects) (operation : CompositeUpdate) (fx1 : Effects)
    (node : FieldNode) (fields : list (string * ValueNode)) (f v : string) :
  convert context random16 ast fx = Ok operation fx1 ->
  rootFields ast = first :: rest ->
  classify (name first) = Some (create, entityName) ->
  In node (first :: rest) ->
  find "input" (arguments node) = Some (ObjectValue fields) ->
  In (f, StringValue v) fields ->
  f <> "id" ->
  isRelationshipInput context f = true ->
  exists localSubject predicateIri triples fxa fxb,
    createSubject context random16 fields fxa = Ok localSubject fxb /\
    getPredicateIri context (relationshipNameOf f) fx = Ok predicateIri fx /\
    updates operation = [mkDeleteInsert None (Some triples) None] /\
    In (mkPattern localSubject predicateIri
                  (NamedNode (expand_iri_spec context v)) DefaultGraph) triples /\
    forall q,
      getInversePredicateIri context (relationshipNameOf f) fx = Ok (Some q) fx ->
      In (mkPattern (NamedNode (expand_iri_spec context v)) q localSubject
                    DefaultGraph) triples.
Proof.
  intros H Hroot Hclass Hnode Hinput Hin Hid Hrel. unfold convert in H.
  apply bind_Ok in H as (st & fxv & Hvisit & Hbuild).
  apply visit_Ok in Hvisit. rewrite Hroot in Hvisit.
  apply visit_first in Hvisit as (st0 & Hident & Hvisit).
  apply identifyOperation_Ok in Hident
    as (_ & opType & entity0 & hint & Hclass0 & -> & _).
  rewrite Hclass in Hclass0. inversion Hclass0; subst.
  apply visitFields_create in Hvisit as (Hop & _ & Hnodes); [|reflexivity].
  destruct (Hnodes node fields Hnode Hinput)
    as (localSubject & blocks & fxa & fxb & Hs & Hblocks & Hkeep).
  apply buildOperation_Ok in Hbuild as (di & Hdi & Hshape).
  rewrite Hop in Hshape. subst di.
  destruct (blocks_relationship context localSubject fields blocks f v
              Hblocks Hin Hid Hrel) as (p & Hp & Hfwd & Hinv).
  exists localSubject, (NamedNode p). eexists. exists fxa, fxb.
  split; [exact Hs|]. split.
  { unfold getPredicateIri. rewrite Hp. reflexivity. }
  split; [exact Hdi|]. split.
  - apply Hkeep in Hfwd. apply (in_map quadPattern) in Hfwd. exact Hfwd.
  - intros q Hq.
    destruct (getInversePredicateIri_pure context (relationshipNameOf f))
      as (inv & Hpure & _).
    pose proof (pureM_of_Ok _ _ _ _ Hpure Hq) as Heq. subst inv.
    pose proof (Hkeep _ (Hinv q Hpure)) as Hmem.
    apply (in_map quadPattern) in Hmem. exact Hmem.
Qed.

(** C6. The code does not do what the claim says on S7. The context maps
    [product] and, for the inverse, [reviews]; the input names the product
    by the field [productId]. [handleCreate] looks the name [productId]
    itself up before it tells a relationship field from the other fields,
    finds no term, and throws: no triple is emitted. With a term
    [productId] added to the context the same create compiles to the
    forward and the inverse triple of [product], and the IRI of the added
    term occurs in none of its triples. *)
Theorem relationship_field_needs_a_term_of_its_own :
  getPredicateIri reviewContext "product" noEffects
    = Ok (NamedNode "http://schema.org/itemReviewed") noEffects /\
  getInversePredicateIri reviewContext "product" noEffects
    = Ok (Some (NamedNode "http://schema.org/review")) noEffects /\
  convert reviewContext (fun _ => 7%N) createProductReviewMutation noEffects
    = Throw (Error "No IRI mapping found for predicate: productId in the JSON-LD context.")
            (mkEffects 31 0) /\
  convert (<["productId" := JStr "http://example.org/unused"]> reviewContext)
          (fun _ => 7%N) createProductReviewMutation noEffects
    = Ok (mkCompositeUpdate
            [mkDeleteInsert None
               (Some [mkPattern (NamedNode "urn:uuid:77777777-7777-4777-b777-777777777777")
                                RDF_TYPE_NODE
                                (NamedNode "http://schema.org/Review") DefaultGraph;
                      mkPattern (NamedNode "urn:uuid:77777777-7777-4777-b777-777777777777")
                                (NamedNode "http://schema.org/itemReviewed")
                                (NamedNode "ex:p1") DefaultGraph;
                      mkPattern (NamedNode "ex:p1")
                                (NamedNode "http://schema.org/review")
                                (NamedNode "urn:uuid:77777777-7777-4777-b777-777777777777")
                                DefaultGraph;
                      mkPattern (NamedNode "urn:uuid:77777777-7777-4777-b777-777777777777")
                                (NamedNode "http://schema.org/ratingValue")
                                (Literal "5" XSD_INTEGER) DefaultGraph;
                      mkPattern (NamedNode "urn:uuid:77777777-7777-4777-b777-777777777777")
                                (NamedNode "http://schema.org/author")
                                (Literal "a@b" XSD_STRING) DefaultGraph])
               None])
         (mkEffects 31 7).
Proof. repeat split. Qed.

(* ===================================================================== *)
(** * Further properties of the code *)
(* ===================================================================== *)

(* --------------------------------------------------------------------- *)
(** ** QueryCache: reads, writes and the cleanup *)
(* --------------------------------------------------------------------- *)

Section CacheReads.

Context {T : Type}.
Implicit Types (c : QueryCache.QueryCache T) (l : list string) (k key : string).

Import QueryCache.


Lemma removeFirst_absent l key : NoDup l -> key ∉ removeFirst key l.
Proof.
  intros Hnd Hin. apply removeFirst_elem in Hin as [_ Hne]; [|exact Hnd].
  contradiction.
Qed.

Lemma removeFirst_length l key :
  key ∈ l -> S (length (removeFirst key l)) = length l.
Proof.
  induction l as [|y l IH]; simpl; intros Hin; [inversion Hin|].
  destruct (String.eqb_spec y key) as [->|Hne]; [reflexivity|].
  apply elem_of_cons in Hin as [->|Hin]; [contradiction|].
  simpl. rewrite IH by exact Hin. reflexivity.
Qed.

(** The fold of [cleanup] deletes the keys of the listed entries that have
    expired *)
Lemma cleanup_fold_lookup now (kvs : list (string * CacheEntry T)) c k :
  cache (fold_left (fun c' kv => if isExpired now (snd kv) then delete (fst kv) c' else c')
                   kvs c) !! k
  = if existsb (fun kv => String.eqb (fst kv) k && isExpired now (snd kv)) kvs
    then None else cache c !! k.
Proof.
  revert c. induction kvs as [|[k' e] kvs IH]; intros c; simpl; [reflexivity|].
  rewrite IH. destruct (existsb _ kvs); [rewrite orb_true_r; reflexivity|].
  rewrite orb_false_r.
  destruct (isExpired now e); simpl.
  - destruct (String.eqb_spec k' k) as [->|Hne]; simpl.
    + apply lookup_delete_eq.
    + apply lookup_delete_ne. auto.
  - rewrite andb_false_r. reflexivity.
Qed.



(** X3. A write touches two keys at most: every key other than the written
    one and the head of the access order keeps its entry, at capacity or
    not. *)
Theorem set_keeps_the_other_entries c key v ttl now k :
  k <> key -> head (accessOrder c) <> Some k ->
  cache (set key v ttl now c) !! k = cache c !! k.
Proof.
  intros Hne Hhead. unfold set. simpl. rewrite lookup_insert_ne by auto.
  destruct (geNumber (Z.of_nat (size (cache c))) (maxEntries c)); [|reflexivity].
  unfold evictOldest. destruct (accessOrder c) as [|oldest rest]; [reflexivity|].
  simpl. apply lookup_delete_ne. intros ->. apply Hhead. reflexivity.
Qed.

(** X4. A read that hits makes its key the most recently used one and
    changes no entry, so it prolongs no lifetime; and in a cache of
    capacity two or more the key that was just read survives the next
    write of another key. *)
Theorem get_hit_protects_from_eviction c key now v key' v' ttl now2 :
  reachable c -> atLeast 2 (maxEntries c) ->
  fst (get key now c) = Some v -> key' <> key ->
  let c1 := snd (get key now c) in
  cache c1 = cache c /\
  last (accessOrder c1) = Some key /\
  cache (set key' v' ttl now2 c1) !! key = cache c !! key.
Proof.
  intros Hr Hcap Hhit Hne. cbv zeta.
  destruct (reachable_invariant c Hr) as [Hc _].
  pose proof (consistent_size c Hc) as Hsize. destruct Hc as [Hnd Hkeys].
  unfold get in *. destruct (cache c !! key) as [entry|] eqn:Hk; [|discriminate].
  destruct (isExpired now entry); [discriminate|]. simpl in *.
  split; [reflexivity|]. split; [apply last_snoc|].
  assert (Hin : key ∈ accessOrder c) by (apply Hkeys; rewrite Hk; eauto).
  pose proof (removeFirst_length _ _ Hin) as Hlen.
  pose proof (removeFirst_absent _ key Hnd) as Habs.
  unfold set. simpl. rewrite lookup_insert_ne by auto.
  destruct (geNumber (Z.of_nat (size (cache c))) (maxEntries c)) eqn:Hfull;
    [|exact Hk].
  pose proof (geNumber_atLeast _ _ _ Hcap Hfull) as Htwo.
  unfold evictOldest. simpl.
  destruct (removeFirst key (accessOrder c)) as [|o rest]; simpl in *; [lia|].
  rewrite lookup_delete_ne; [exact Hk|].
  intros ->. apply Habs. left.
Qed.

(** X5. The cleanup removes the expired entries and no other: after it, a
    key holds its entry when the entry has not expired, and nothing when it
    has or when the key was absent. *)
Theorem cleanup_removes_the_expired_entries c now k :
  cache (cleanup now c) !! k
    = match cache c !! k with
      | Some entry => if isExpired now entry then None else Some entry
      | None => None
      end.
Proof.
  unfold cleanup. rewrite cleanup_fold_lookup.
  destruct (existsb _ _) eqn:Hex.
  - apply existsb_exists in Hex as ([k' e] & Hin & Hke). simpl in Hke.
    apply andb_prop in Hke as [Hkk Hexp]. apply String.eqb_eq in Hkk as ->.
    apply list_elem_of_In, elem_of_map_to_list in Hin. rewrite Hin, Hexp. reflexivity.
  - destruct (cache c !! k) as [e|] eqn:Hk; [|reflexivity].
    destruct (isExpired now e) eqn:Hexp; [|reflexivity].
    assert (existsb (fun kv => String.eqb (fst kv) k && isExpired now (snd kv))
                    (map_to_list (cache c)) = true); [|congruence].
    apply existsb_exists. exists (k, e). split.
    + apply list_elem_of_In, elem_of_map_to_list, Hk.
    + simpl. rewrite String.eqb_refl, Hexp. reflexivity.
Qed.

(** X6. In a cache built by the constructor and the operations, the access
    order lists the keys of the map, each once: a key is in the order
    exactly when it has an entry, and the order is as long as the map is
    large. *)
Theorem access_order_lists_the_keys c :
  reachable c ->
  NoDup (accessOrder c) /\
  (forall k, k ∈ accessOrder c <-> is_Some (cache c !! k)) /\
  Z.of_nat (length (accessOrder c)) = statsSize c.
Proof.
  intros Hr. destruct (reachable_invariant c Hr) as [Hc _].
  pose proof (consistent_size c Hc) as Hsize. destruct Hc as [Hnd Hkeys].
  split; [exact Hnd|]. split; [exact Hkeys|].
  unfold statsSize. rewrite Hsize. reflexivity.
Qed.

End CacheReads.


Lemma set_keeps_the_other_entries_witness :
  QueryCache.cache (QueryCache.set "c" 3 None 0%Z fullCache) !! "b"
    = QueryCache.cache fullCache !! "b".
Proof.
  apply set_keeps_the_other_entries; [discriminate|].
  vm_compute. discriminate.
Defined.

Lemma get_hit_protects_from_eviction_witness :
  fst (QueryCache.get "a" 1%Z fullCache) = Some 1 /\
  QueryCache.cache
    (QueryCache.set "c" 3 None 2%Z (snd (QueryCache.get "a" 1%Z fullCache))) !! "a"
    = QueryCache.cache fullCache !! "a".
Proof.
  assert (Hhit : fst (QueryCache.get "a" 1%Z fullCache) = Some 1)
    by (vm_compute; reflexivity).
  split; [exact Hhit|].
  refine (proj2 (proj2 (get_hit_protects_from_eviction fullCache "a" 1%Z 1 "c" 3 None
                          2%Z fullCache_reachable _ Hhit _))).
  - vm_compute. discriminate.
  - discriminate.
Defined.

Lemma access_order_lists_the_keys_witness :
  NoDup (QueryCache.accessOrder fullCache) /\
  (forall k, k ∈ QueryCache.accessOrder fullCache
             <-> is_Some (QueryCache.cache fullCache !! k)) /\
  Z.of_nat (length (QueryCache.accessOrder fullCache)) = QueryCache.statsSize fullCache.
Proof. exact (access_order_lists_the_keys fullCache fullCache_reachable). Defined.

(* --------------------------------------------------------------------- *)
(** ** SparqlValidator: the accepted queries *)
(* --------------------------------------------------------------------- *)

Lemma occurrences_app c a b :
  occurrences c (a +:+ b) = (occurrences c a + occurrences c b)%Z.
Proof.
  induction a as [|d a IH]; [reflexivity|].
  change (String d a +:+ b) with (String d (a +:+ b)). simpl. rewrite IH. lia.
Qed.

(** The loop over the characters, from a count [b] that is not negative:
    it ends with the count of the whole query when no prefix makes the
    count negative, and stops at the first prefix that does *)
Lemma countBraces_spec query b :
  (0 <= b)%Z ->
  match SparqlValidator.countBraces query b with
  | Some z =>
      z = (b + occurrences "{" query - occurrences "}" query)%Z /\
      forall p rest, query = p +:+ rest ->
                     (0 <= b + occurrences "{" p - occurrences "}" p)%Z
  | None =>
      exists p rest, query = p +:+ rest /\
                     (b + occurrences "{" p - occurrences "}" p < 0)%Z
  end.
Proof.
  revert b. induction query as [|c query IH]; intros b Hb; simpl.
  - split; [lia|]. intros p rest H. destruct p; [simpl; lia | discriminate].
  - set (b1 := if Ascii.eqb c "{" then (b + 1)%Z else b).
    set (b2 := if Ascii.eqb c "}" then (b1 - 1)%Z else b1).
    assert (Hb2 : b2 = (b + (if Ascii.eqb c "{" then 1 else 0)
                          - (if Ascii.eqb c "}" then 1 else 0))%Z).
    { subst b2 b1. destruct (Ascii.eqb c "{"), (Ascii.eqb c "}"); lia. }
    destruct (Z.ltb_spec b2 0) as [Hneg|Hpos].
    + exists (String c EmptyString), query. split; [reflexivity|]. simpl. lia.
    + specialize (IH b2 Hpos).
      destruct (SparqlValidator.countBraces query b2) as [z|].
      * destruct IH as [Hz Hpre]. split; [lia|].
        intros p rest H. destruct p as [|d p]; simpl in *; [lia|].
        inversion H; subst. specialize (Hpre p rest eq_refl). lia.
      * destruct IH as (p & rest & Hq & Hlt).
        exists (String c p), rest. split; [rewrite Hq; reflexivity|]. simpl. lia.
Qed.

Lemma countBraces_balanced query :
  SparqlValidator.countBraces query 0 = Some 0%Z <-> balancedBraces query.
Proof.
  pose proof (countBraces_spec query 0 ltac:(lia)) as H.
  unfold balancedBraces. split.
  - intros Hc. rewrite Hc in H. destruct H as [Hz Hpre]. split; [lia|].
    intros p rest Hq. specialize (Hpre p rest Hq). lia.
  - intros [Heq Hpre]. destruct (SparqlValidator.countBraces query 0) as [z|].
    + destruct H as [-> _]. f_equal. lia.
    + destruct H as (p & rest & Hq & Hlt). specialize (Hpre p rest Hq). lia.
Qed.

Lemma prefix_app sub b : String.prefix sub (sub +:+ b) = true.
Proof.
  induction sub as [|c sub IH]; [destruct b; reflexivity|].
  simpl. destruct (ascii_dec c c) as [_|Hne]; [exact IH | contradiction].
Qed.

Lemma includes_prefix sub s : String.prefix sub s = true -> includes sub s = true.
Proof. destruct s; simpl; intros ->; reflexivity. Qed.

Lemma includes_app a sub b : includes sub (a +:+ sub +:+ b) = true.
Proof.
  induction a as [|c a IH].
  - change ("" +:+ sub +:+ b) with (sub +:+ b).
    apply includes_prefix, prefix_app.
  - change (String c a +:+ sub +:+ b) with (String c (a +:+ sub +:+ b)).
    simpl. rewrite IH. apply orb_true_r.
Qed.

Lemma toUpperCase_app a b : toUpperCase (a +:+ b) = toUpperCase a +:+ toUpperCase b.
Proof.
  induction a as [|c a IH]; [reflexivity|].
  change (String c a +:+ b) with (String c (a +:+ b)). simpl. rewrite IH. reflexivity.
Qed.

(** X7. On ASCII strings, [validateQuery] returns without throwing exactly
    for the queries that are not empty, have at most 10000 characters, hold
    none of DROP, CREATE, LOAD, CLEAR, DELETE, INSERT and UPDATE in any
    letter case and at any place, start with SELECT or CONSTRUCT in any
    letter case, hold WHERE in any letter case, and whose braces are
    balanced: as many closing as opening ones, and no prefix with more
    closing than opening ones. *)
Theorem validateQuery_accepts_iff (query : string) :
  isAscii query = true ->
  SparqlValidator.validateQuery query = inr tt <->
  query <> "" /\
  (N.of_nat (String.length query) <= 10000)%N /\
  (forall operation, In operation SparqlValidator.FORBIDDEN_OPERATIONS ->
                     includes operation (toUpperCase query) = false) /\
  (startsWith "SELECT" (toUpperCase query) = true \/
   startsWith "CONSTRUCT" (toUpperCase query) = true) /\
  includes "WHERE" (toUpperCase query) = true /\
  balancedBraces query.
Proof.
  intros _. unfold SparqlValidator.validateQuery.
  destruct (String.eqb_spec query "") as [->|Hne].
  { split; [discriminate | intros [H _]; contradiction]. }
  unfold SparqlValidator.MAX_QUERY_LENGTH.
  destruct (N.ltb_spec 10000 (N.of_nat (String.length query))) as [Hlong|Hshort].
  { split; [discriminate | intros (_ & H & _); lia]. }
  destruct (List.find _ SparqlValidator.FORBIDDEN_OPERATIONS) as [operation|] eqn:Hfind.
  { split; [discriminate|]. intros (_ & _ & Hnone & _).
    apply find_some in Hfind as [Hin Hinc]. rewrite (Hnone _ Hin) in Hinc. discriminate. }
  pose proof (find_none _ _ Hfind) as Hnone. simpl in Hnone.
  destruct (startsWith "SELECT" (toUpperCase query)) eqn:Hsel;
    destruct (startsWith "CONSTRUCT" (toUpperCase query)) eqn:Hcon; simpl;
    try (split; [discriminate | intros (_ & _ & _ & [H|H] & _); discriminate]).
  all: destruct (includes "WHERE" (toUpperCase query)) eqn:Hwhere; simpl;
    try (split; [discriminate | intros (_ & _ & _ & _ & H & _); discriminate]).
  all: pose proof (countBraces_balanced query) as Hbal;
    destruct (SparqlValidator.countBraces query 0) as [z|];
    [ destruct (Z.eqb_spec z 0) as [->|Hz]; simpl
    | ].
  all: try (split; [discriminate|]; intros (_ & _ & _ & _ & _ & H);
            apply Hbal in H; congruence).
  all: split; [intros _ | reflexivity];
    (split; [exact Hne|]); (split; [lia|]); (split; [exact Hnone|]);
    (split; [auto|]); (split; [reflexivity|]); apply Hbal; reflexivity.
Qed.

Lemma validateQuery_accepts_iff_witness :
  balancedBraces "SELECT * WHERE { ?s ?p ?o }".
Proof.
  exact (proj2 (proj2 (proj2 (proj2 (proj2
           (proj1 (validateQuery_accepts_iff "SELECT * WHERE { ?s ?p ?o }" eq_refl)
                  eq_refl)))))).
Defined.

(** X8. An ASCII query that holds one of the words DROP, CREATE, LOAD,
    CLEAR, DELETE, INSERT and UPDATE in any letter case is refused with a
    [ValidationError], wherever the word stands: inside a longer word, a
    variable name, an IRI or a literal as well. *)
Theorem validateQuery_rejects_forbidden_words
    (query before word after operation : string) :
  isAscii query = true ->
  query = before +:+ word +:+ after ->
  toUpperCase word = operation ->
  In operation SparqlValidator.FORBIDDEN_OPERATIONS ->
  exists message,
    SparqlValidator.validateQuery query = inl (ValidationError message).
Proof.
  intros _ -> Hword Hin. unfold SparqlValidator.validateQuery.
  destruct (String.eqb _ ""); [eauto|].
  destruct (_ <? _)%N; [eauto|].
  destruct (List.find _ SparqlValidator.FORBIDDEN_OPERATIONS) as [op|] eqn:Hfind;
    [eauto|].
  pose proof (find_none _ _ Hfind _ Hin) as Hnone. simpl in Hnone.
  rewrite !toUpperCase_app, Hword, includes_app in Hnone. discriminate.
Qed.

Lemma validateQuery_rejects_forbidden_words_witness :
  exists message,
    SparqlValidator.validateQuery "SELECT ?created WHERE { ?s ?p ?created }"
      = inl (ValidationError message).
Proof.
  apply (validateQuery_rejects_forbidden_words
           "SELECT ?created WHERE { ?s ?p ?created }"
           "SELECT ?" "create" "d WHERE { ?s ?p ?created }" "CREATE").
  - reflexivity.
  - reflexivity.
  - reflexivity.
  - simpl. tauto.
Defined.

(* --------------------------------------------------------------------- *)
(** ** IriValidator *)
(* --------------------------------------------------------------------- *)

Section IriValidation.

Variable urlHostname : string -> option string.

Import IriValidator.

Lemma DISALLOWED_CHARS_test_app before c after :
  isDisallowedChar c = true ->
  DISALLOWED_CHARS_test (before +:+ String c after) = true.
Proof.
  intros Hc. induction before as [|d before IH].
  - change ("" +:+ String c after) with (String c after). simpl. rewrite Hc. reflexivity.
  - change (String d before +:+ String c after)
      with (String d (before +:+ String c after)).
    simpl. rewrite IH. apply orb_true_r.
Qed.

Lemma DISALLOWED_CHARS_test_includes c v :
  isDisallowedChar c = true ->
  includes (String c EmptyString) v = true -> DISALLOWED_CHARS_test v = true.
Proof.
  intros Hc. induction v as [|d v IH]; simpl.
  - discriminate.
  - destruct (ascii_dec c d) as [->|Hne].
    + intros _. rewrite Hc. reflexivity.
    + simpl. intros H. rewrite (IH H). apply orb_true_r.
Qed.

(** The check of the converter looks for four of the disallowed characters *)
Lemma hasIllegalIriChar_disallowed v :
  hasIllegalIriChar v = true -> DISALLOWED_CHARS_test v = true.
Proof.
  unfold hasIllegalIriChar, LF, CR, chr. intros H.
  repeat (apply orb_prop in H as [H|H]);
    (eapply DISALLOWED_CHARS_test_includes; [|exact H]); reflexivity.
Qed.

Lemma validateIri_disallowed iri :
  DISALLOWED_CHARS_test iri = true ->
  exists message, validateIri urlHostname iri = inl (ValidationError message).
Proof.
  intros H. unfold validateIri. destruct (_ || _); [eauto|]. rewrite H. eauto.
Qed.

Lemma afterSchemeChars_inv s rest :
  afterSchemeChars s = Some rest ->
  exists scheme, s = scheme +:+ ":" +:+ rest /\ every isSchemeChar scheme = true.
Proof.
  revert rest. induction s as [|c s IH]; simpl; intros rest; [discriminate|].
  destruct (Ascii.eqb_spec c ":") as [->|Hne].
  - intros H. inversion H; subst. exists EmptyString. split; reflexivity.
  - destruct (isSchemeChar c) eqn:Hc; [|discriminate].
    intros H. destruct (IH _ H) as (scheme & -> & Hall).
    exists (String c scheme). split; [reflexivity|]. simpl. rewrite Hc, Hall. reflexivity.
Qed.

Lemma afterScheme_inv iri rest :
  afterScheme iri = Some rest ->
  exists c scheme,
    iri = String c scheme +:+ ":" +:+ rest /\
    isLetter c = true /\ every isSchemeChar scheme = true.
Proof.
  unfold afterScheme. destruct iri as [|c s]; [discriminate|].
  destruct (isLetter c) eqn:Hc; [|discriminate].
  intros H. destruct (afterSchemeChars_inv _ _ H) as (scheme & -> & Hall).
  exists c, scheme. auto.
Qed.

Lemma DISALLOWED_CHARS_test_suffix a b :
  DISALLOWED_CHARS_test (a +:+ b) = false -> DISALLOWED_CHARS_test b = false.
Proof.
  induction a as [|c a IH]; [auto|].
  change (String c a +:+ b) with (String c (a +:+ b)). simpl.
  intros H. apply orb_false_elim in H as [_ H]. auto.
Qed.

(** X9. [validateIri] refuses with a [ValidationError] every string that
    holds a character of the disallowed class (U+0000 to U+0020, the angle
    brackets, the double quote, the braces, the bar, the backslash, the
    caret, the backquote), and so every subject string that the check of
    [MutationConverter] refuses. *)
Theorem validateIri_rejects_disallowed_characters (iri : string) :
  (exists before c after,
     iri = before +:+ String c after /\ isDisallowedChar c = true) \/
  hasIllegalIriChar iri = true ->
  exists message, validateIri urlHostname iri = inl (ValidationError message).
Proof.
  intros [(before & c & after & -> & Hc)|H]; apply validateIri_disallowed.
  - apply DISALLOWED_CHARS_test_app, Hc.
  - apply hasIllegalIriChar_disallowed, H.
Qed.

(** X10. A string that [validateIri] accepts holds no disallowed character
    and starts with a scheme: a letter, then letters, digits, [+], [.] and
    [-], then a colon. *)
Theorem validateIri_accepts_only_with_scheme (iri : string) :
  validateIri urlHostname iri = inr tt ->
  DISALLOWED_CHARS_test iri = false /\
  exists c scheme rest,
    iri = String c scheme +:+ ":" +:+ rest /\
    isLetter c = true /\ every isSchemeChar scheme = true.
Proof.
  unfold validateIri, SCHEME_PATTERN_test.
  destruct (_ || _); [discriminate|].
  destruct (DISALLOWED_CHARS_test iri); [discriminate|].
  destruct (afterScheme iri) as [rest|] eqn:Hscheme; [|discriminate].
  intros _. split; [reflexivity|].
  destruct (afterScheme_inv _ _ Hscheme) as (c & scheme & H).
  exists c, scheme, rest. exact H.
Qed.

(** X11. [validateIri] throws only [ValidationError]s, with one of seven
    messages. The message [Invalid IRI format] is not among them: where
    the general pattern is tested, the string holds no disallowed
    character and has a scheme, so the pattern matches. *)
Theorem validateIri_fails_with_seven_messages (iri : string) (error : JsError) :
  validateIri urlHostname iri = inl error ->
  exists message, error = ValidationError message /\ In message IRI_MESSAGES.
Proof.
  unfold validateIri, SCHEME_PATTERN_test, GENERAL_IRI_PATTERN_test, IRI_MESSAGES.
  destruct (_ || _).
  { intros H. inversion H. eexists. split; [reflexivity|]. simpl. tauto. }
  destruct (DISALLOWED_CHARS_test iri) eqn:Hdis.
  { intros H. inversion H. eexists. split; [reflexivity|]. simpl. tauto. }
  destruct (afterScheme iri) as [rest|] eqn:Hscheme.
  2:{ intros H. inversion H. eexists. split; [reflexivity|]. simpl. tauto. }
  destruct (afterScheme_inv _ _ Hscheme) as (c & scheme & Hiri & _).
  assert (Hrest : DISALLOWED_CHARS_test rest = false).
  { rewrite Hiri in Hdis. apply DISALLOWED_CHARS_test_suffix in Hdis.
    apply (DISALLOWED_CHARS_test_suffix ":" rest) in Hdis. exact Hdis. }
  rewrite Hrest. simpl negb.
  repeat match goal with
         | |- context [if ?b then _ else _] => destruct b
         | |- context [match ?o with Some _ => _ | None => _ end] => destruct o
         end;
    intros H; inversion H; eexists; (split; [reflexivity|]); simpl; tauto.
Qed.

(** X12. An accepted string that holds two slashes in a row starts with
    [urn:], [file:///], [http://] or [https://]: under any other scheme a
    double slash is refused. *)
Theorem validateIri_double_slash_schemes (iri : string) :
  validateIri urlHostname iri = inr tt ->
  includes "//" iri = true ->
  startsWith "urn:" iri = true \/ startsWith "file:///" iri = true \/
  startsWith "http://" iri = true \/ startsWith "https://" iri = true.
Proof.
  unfold validateIri, FILE_PATTERN_test. intros H Hslashes. rewrite Hslashes in H.
  destruct (_ || _); [discriminate|].
  destruct (DISALLOWED_CHARS_test iri); [discriminate|].
  destruct (negb (SCHEME_PATTERN_test iri)); [discriminate|].
  destruct (startsWith "urn:" iri); [auto|].
  destruct (startsWith "file:" iri) eqn:Hfile.
  - destruct (startsWith "file:///" iri); [auto|]. discriminate.
  - destruct (startsWith "http://" iri); [auto|].
    destruct (startsWith "https://" iri); [auto|].
    simpl in H. destruct (negb (GENERAL_IRI_PATTERN_test iri)); discriminate.
Qed.

Lemma uuid_char_allowed c :
  isUuidClassChar c = true -> isDisallowedChar c = false /\ isNssChar c = true.
Proof.
  destruct c as [[] [] [] [] [] [] [] []]; vm_compute; intros H;
    try discriminate; split; reflexivity.
Qed.

Lemma uuid_chars_allowed u :
  allChars isUuidClassChar u = true ->
  DISALLOWED_CHARS_test u = false /\ every isNssChar u = true.
Proof.
  induction u as [|c u IH]; simpl; [auto|].
  intros H. apply andb_prop in H as [Hc Hu].
  destruct (uuid_char_allowed c Hc) as [-> ->]. destruct (IH Hu) as [-> ->]. auto.
Qed.

Lemma validateIri_urn_uuid u :
  matchesUuidPattern u = true ->
  validateIri urlHostname ("urn:uuid:" +:+ u) = inr tt.
Proof.
  unfold matchesUuidPattern. intros H. apply andb_prop in H as [Hlen Hall].
  destruct (uuid_chars_allowed u Hall) as [Hdis Hnss].
  assert (Hne : String.eqb u "" = false).
  { destruct u; [discriminate | reflexivity]. }
  set (iri := "urn:uuid:" +:+ u).
  assert (Hblank : String.eqb iri "" || String.eqb (trim iri) "" = false)
    by reflexivity.
  assert (Hchars : DISALLOWED_CHARS_test iri = DISALLOWED_CHARS_test u)
    by reflexivity.
  assert (Hscheme : SCHEME_PATTERN_test iri = true) by reflexivity.
  assert (Hurn : startsWith "urn:" iri = true) by reflexivity.
  assert (Hpattern : URN_PATTERN_test iri
                     = negb (String.eqb u "") && every isNssChar u)
    by reflexivity.
  unfold validateIri.
  rewrite Hblank, Hchars, Hdis, Hscheme, Hurn, Hpattern, Hne, Hnss. reflexivity.
Qed.

(** X13. The subject that a create without [id] mints passes
    [validateIri]: when the random draws lie in 0..15, [createSubject]
    returns a named node whose IRI, [urn:uuid:] and the generated
    identifier, is accepted as a URN. *)
Theorem minted_subject_passes_validateIri (context : gmap string Json)
    (random16 : nat -> N) (fields : list (string * ValueNode)) (fx : Effects) :
  (forall i, (random16 i < 16)%N) ->
  find "id" fields = None ->
  exists iri fx1,
    createSubject context random16 fields fx = Ok (NamedNode iri) fx1 /\
    validateIri urlHostname iri = inr tt.
Proof.
  intros Hrange Hnoid. unfold createSubject. rewrite Hnoid.
  destruct (generateUUID_Ok random16 Hrange fx) as (u & fx1 & Hu & _ & Hpat).
  exists ("urn:uuid:" +:+ u), fx1. unfold bind. rewrite Hu.
  split; [reflexivity | apply validateIri_urn_uuid, Hpat].
Qed.

End IriValidation.

Lemma validateIri_rejects_disallowed_characters_witness :
  exists message,
    IriValidator.validateIri noUrl "ex:a|b c" = inl (ValidationError message).
Proof.
  apply validateIri_rejects_disallowed_characters.
  left. exists "ex:a", "|"%char, "b c". split; reflexivity.
Defined.

Lemma validateIri_accepts_only_with_scheme_witness :
  IriValidator.validateIri noUrl "mailto:a@b" = inr tt /\
  IriValidator.DISALLOWED_CHARS_test "mailto:a@b" = false.
Proof.
  split; [reflexivity|].
  exact (proj1 (validateIri_accepts_only_with_scheme noUrl "mailto:a@b" eq_refl)).
Defined.

Lemma validateIri_fails_with_seven_messages_witness :
  exists message,
    ValidationError "Invalid IRI: missing or invalid scheme" = ValidationError message /\
    In message IRI_MESSAGES.
Proof.
  exact (validateIri_fails_with_seven_messages noUrl "not-a-uri" _ eq_refl).
Defined.

Lemma validateIri_double_slash_schemes_witness :
  IriValidator.validateIri noUrl "file:///a//b" = inr tt /\
  (startsWith "urn:" "file:///a//b" = true \/
   startsWith "file:///" "file:///a//b" = true \/
   startsWith "http://" "file:///a//b" = true \/
   startsWith "https://" "file:///a//b" = true).
Proof.
  split; [reflexivity|].
  exact (validateIri_double_slash_schemes noUrl "file:///a//b" eq_refl eq_refl).
Defined.

Lemma minted_subject_passes_validateIri_witness :
  exists iri fx1,
    createSubject exampleContext (fun _ => 7%N) [("name", StringValue "Bob")] noEffects
      = Ok (NamedNode iri) fx1 /\
    IriValidator.validateIri noUrl iri = inr tt.
Proof.
  apply minted_subject_passes_validateIri.
  - intros i. reflexivity.
  - reflexivity.
Defined.

(* --------------------------------------------------------------------- *)
(** ** GraphQLInputValidator *)
(* --------------------------------------------------------------------- *)

(** Induction on a value with the hypothesis at every item of an array and
    at every value of an object *)
Lemma JsValue_nested_ind (P : JsValue -> Prop) :
  P VUndefined -> P VNull -> (forall b, P (VBool b)) ->
  (forall isInteger str, P (VNum isInteger str)) -> (forall s, P (VStr s)) ->
  (forall items, Forall P items -> P (VArr items)) ->
  (forall entries, Forall (fun entry => P (snd entry)) entries -> P (VObj entries)) ->
  P VDate -> (forall str, P (VFunction str)) ->
  forall v, P v.
Proof.
  intros Hundef Hnull Hbool Hnum Hstr Harr Hobj Hdate Hfun.
  fix IH 1. intros [| | b | i str | s | items | entries | | str].
  - exact Hundef.
  - exact Hnull.
  - apply Hbool.
  - apply Hnum.
  - apply Hstr.
  - apply Harr. induction items as [|item items IHitems]; constructor;
      [apply IH | exact IHitems].
  - apply Hobj. induction entries as [|[key value] entries IHentries]; constructor;
      [apply IH | exact IHentries].
  - exact Hdate.
  - apply Hfun.
Qed.

Section InputValidation.

Variable urlHostname : string -> option string.

Import GraphQLInputValidator.

Lemma validate_nil room : validateMutationInput urlHostname (S room) (VObj []) = inr tt.
Proof. reflexivity. Qed.

(** The loop over the entries, one entry at a time *)
Lemma validate_cons room key value rest :
  validateMutationInput urlHostname (S room) (VObj ((key, value) :: rest)) =
  match iriChecked urlHostname key value with
  | inl error => inl error
  | inr _ =>
      match nestedChecked urlHostname room key value with
      | inl error => inl error
      | inr _ =>
          match value with
          | VDate | VFunction _ =>
              inl (ValidationError ("Invalid value type at key " +:+ DQUOTE +:+
                                    key +:+ DQUOTE))
          | _ => validateMutationInput urlHostname (S room) (VObj rest)
          end
      end
  end.
Proof. destruct value; reflexivity. Qed.

Lemma validateIri_throws_ValidationError iri error :
  IriValidator.validateIri urlHostname iri = inl error ->
  exists message, error = ValidationError message.
Proof.
  unfold IriValidator.validateIri.
  repeat match goal with
         | |- context [if ?b then _ else _] => destruct b
         | |- context [match ?o with Some _ => _ | None => _ end] => destruct o
         end;
    intros H; inversion H; eauto.
Qed.

(** A caught [ValidationError] is thrown again as one, a caught
    [RangeError] as it is *)
Lemma rethrow_inl prefix r error :
  rethrow prefix r = inl error ->
  exists caught,
    r = inl caught /\
    ((exists message, caught = ValidationError message) ->
     exists message, error = ValidationError message) /\
    (caught = RangeError -> error = RangeError).
Proof.
  destruct r as [caught|[]]; simpl; [|discriminate].
  intros H. exists caught. split; [reflexivity|]. split.
  - intros [message ->]. simpl in H. inversion H. eauto.
  - intros ->. simpl in H. inversion H. reflexivity.
Qed.

Lemma rethrow_inr prefix r : rethrow prefix r = inr tt -> r = inr tt.
Proof.
  destruct r as [error|[]]; simpl; [|reflexivity].
  destruct (isValidationError error); discriminate.
Qed.

Lemma nesting_item item items :
  In item items -> (nesting item < nesting (VArr items))%nat.
Proof.
  simpl. induction items as [|item' items IH]; intros Hin; [inversion Hin|].
  simpl. destruct Hin as [->|Hin]; [lia|]. specialize (IH Hin). lia.
Qed.

Lemma nesting_value key value entries :
  In (key, value) entries -> (nesting value < nesting (VObj entries))%nat.
Proof.
  simpl. induction entries as [|entry entries IH]; intros Hin; [inversion Hin|].
  simpl. destruct Hin as [->|Hin]; [simpl; lia|]. specialize (IH Hin). lia.
Qed.

Lemma nesting_rest entry entries :
  (nesting (VObj entries) <= nesting (VObj (entry :: entries)))%nat.
Proof. simpl. lia. Qed.

Lemma rethrown_error room prefix value error :
  (forall caught, validateMutationInput urlHostname room value = inl caught ->
                  validationOrOverflow room value caught) ->
  rethrow prefix (validateMutationInput urlHostname room value) = inl error ->
  validationOrOverflow room value error.
Proof.
  intros Hvalue Hr. apply rethrow_inl in Hr as (caught & Hcaught & Hkeep & Hpass).
  destruct (Hvalue caught Hcaught) as [Hvalidation|[-> Hdeep]].
  - left. exact (Hkeep Hvalidation).
  - right. split; [exact (Hpass eq_refl) | exact Hdeep].
Qed.

Lemma itemsChecked_inl room key items index error :
  (forall item caught, validateMutationInput urlHostname room item = inl caught ->
                       validationOrOverflow room item caught) ->
  itemsChecked urlHostname room key items index = inl error ->
  exists item, In item items /\ validationOrOverflow room item error.
Proof.
  intros Hroom. revert index. induction items as [|item items IH]; intros index;
    simpl; [discriminate|].
  destruct (isObjectLike item).
  - destruct (rethrow _ (validateMutationInput urlHostname room item)) as [error'|u] eqn:Hr.
    + intros H. inversion H; subst. exists item. split; [left; reflexivity|].
      eapply rethrown_error; [apply Hroom | exact Hr].
    + intros H. destruct (IH _ H) as (item' & Hin & Herr). eauto using in_cons.
  - intros H. destruct (IH _ H) as (item' & Hin & Herr). eauto using in_cons.
Qed.

Lemma validateMutationInput_errors stack input error :
  validateMutationInput urlHostname stack input = inl error ->
  validationOrOverflow stack input error.
Proof.
  revert input error. induction stack as [|room IH]; intros input error.
  { simpl. intros H. inversion H. right. split; [reflexivity|].
    destruct input; simpl; lia. }
  destruct input as [| | b | i str | s | items | entries | | str];
    try solve [simpl; intros H; inversion H; left; eauto].
  induction entries as [|[key value] entries IHentries].
  { rewrite validate_nil. discriminate. }
  rewrite validate_cons.
  destruct (iriChecked urlHostname key value) as [error'|u] eqn:Hiri.
  { intros H. inversion H; subst. unfold iriChecked in Hiri.
    destruct value; try discriminate.
    destruct (includes "id" (toLowerCase key)); [|discriminate].
    apply rethrow_inl in Hiri as (caught & Hcaught & Hkeep & _).
    left. apply Hkeep. eapply validateIri_throws_ValidationError, Hcaught. }
  destruct (nestedChecked urlHostname room key value) as [error'|u'] eqn:Hnested.
  { intros H. inversion H; subst. unfold nestedChecked in Hnested.
    assert (Hdeeper : forall nested, (nesting nested < nesting value)%nat \/ nested = value ->
              validationOrOverflow room nested error ->
              validationOrOverflow (S room) (VObj ((key, value) :: entries)) error).
    { intros nested Hless [Hvalidation|[-> Hdeep]]; [left; exact Hvalidation|].
      right. split; [reflexivity|].
      pose proof (nesting_value key value ((key, value) :: entries) (or_introl eq_refl)).
      destruct Hless as [Hless| ->]; lia. }
    destruct value; try discriminate.
    - apply itemsChecked_inl in Hnested as (item & Hin & Herr); [|exact IH].
      apply (Hdeeper item); [left; apply nesting_item, Hin | exact Herr].
    - apply (Hdeeper (VObj entries0)); [right; reflexivity|].
      eapply rethrown_error; [apply IH | exact Hnested].
    - apply (Hdeeper VDate); [right; reflexivity|].
      eapply rethrown_error; [apply IH | exact Hnested]. }
  assert (Hrest : validateMutationInput urlHostname (S room) (VObj entries) = inl error ->
                  validationOrOverflow (S room) (VObj ((key, value) :: entries)) error).
  { intros H. destruct (IHentries H) as [Hvalidation|[-> Hdeep]]; [left; exact Hvalidation|].
    right. split; [reflexivity|].
    pose proof (nesting_rest (key, value) entries). lia. }
  destruct value; try exact Hrest; intros H; inversion H; left; eauto.
Qed.

(** X14. What [validateMutationInput] throws is a [ValidationError], with
    the code VALIDATION_ERROR, or the [RangeError] of an exhausted call
    stack, which its [catch] blocks throw again as it is. The function
    nests a call for every level of the input and keeps no bound of its
    own: the [RangeError] is thrown on an input that nests deeper than the
    stack has room, and on no other. *)
Theorem validateMutationInput_throws_validation_or_range_error (stack : nat) (input : JsValue)
    (error : JsError) :
  validateMutationInput urlHostname stack input = inl error ->
  (err_name error = "ValidationError" /\ err_code error = Some "VALIDATION_ERROR") \/
  (error = RangeError /\ (stack < nesting input)%nat).
Proof.
  intros H. destruct (validateMutationInput_errors stack input error H)
    as [[message ->]|Hoverflow].
  - left. split; reflexivity.
  - right. exact Hoverflow.
Qed.

Lemma accepted_entry room entries key value :
  validateMutationInput urlHostname (S room) (VObj entries) = inr tt ->
  In (key, value) entries ->
  iriChecked urlHostname key value = inr tt /\
  nestedChecked urlHostname room key value = inr tt /\
  value <> VDate /\ forall str, value <> VFunction str.
Proof.
  induction entries as [|[key' value'] entries IH]; intros Hok Hin; [inversion Hin|].
  rewrite validate_cons in Hok.
  destruct (iriChecked urlHostname key' value') as [?|[]] eqn:Hiri; [discriminate|].
  destruct (nestedChecked urlHostname room key' value') as [?|[]] eqn:Hnested;
    [discriminate|].
  destruct Hin as [Heq|Hin].
  - inversion Heq; subst. repeat split; auto; destruct value; discriminate.
  - apply IH; [|exact Hin]. destruct value'; try exact Hok; discriminate.
Qed.

Lemma accepted_item room key items index item :
  itemsChecked urlHostname room key items index = inr tt -> In item items ->
  isObjectLike item = true -> validateMutationInput urlHostname room item = inr tt.
Proof.
  revert index. induction items as [|item' items IH]; intros index Hok Hin Hobj;
    [inversion Hin|].
  simpl in Hok.
  destruct (if isObjectLike item' then _ else _) as [?|[]] eqn:Hitem; [discriminate|].
  destruct Hin as [->|Hin].
  - rewrite Hobj in Hitem. eapply rethrow_inr, Hitem.
  - eapply IH; eauto.
Qed.

Lemma entryOf_object input key value :
  entryOf input key value -> exists entries, input = VObj entries.
Proof. intros H. inversion H; eauto. Qed.

(** X15. In an input that [validateMutationInput] accepts, every entry of
    the object, of the objects among its values and of the objects among
    the items of its arrays, at any depth, is sound: a string under a key
    that holds [id] in any letter case passes [validateIri], and no value
    is a [Date] or a function. *)
Theorem accepted_input_holds_valid_iris (stack : nat) (input : JsValue) (key : string)
    (value : JsValue) :
  validateMutationInput urlHostname stack input = inr tt ->
  entryOf input key value ->
  (forall s, value = VStr s -> includes "id" (toLowerCase key) = true ->
             IriValidator.validateIri urlHostname s = inr tt) /\
  value <> VDate /\ (forall str, value <> VFunction str).
Proof.
  intros Hok Hentry. revert stack Hok. induction Hentry as
    [entries key value Hin
    |entries field nested key value Hin Hentry IH
    |entries field items item key value Hin Hitem Hentry IH];
    intros [|room] Hok; try discriminate.
  - destruct (accepted_entry _ _ _ _ Hok Hin) as (Hiri & _ & Hdate & Hfun).
    split; [|auto]. intros s -> Hid. unfold iriChecked in Hiri. rewrite Hid in Hiri.
    eapply rethrow_inr, Hiri.
  - apply (IH room). destruct (accepted_entry _ _ _ _ Hok Hin) as (_ & Hnested & _).
    destruct (entryOf_object _ _ _ Hentry) as [entries' ->].
    eapply rethrow_inr, Hnested.
  - apply (IH room). destruct (accepted_entry _ _ _ _ Hok Hin) as (_ & Hnested & _).
    destruct (entryOf_object _ _ _ Hentry) as [entries' ->].
    eapply accepted_item; [exact Hnested | exact Hitem | reflexivity].
Qed.

(** X16. The items of an array that are neither objects nor arrays are
    not looked at, whatever the key: an object whose only value is an array
    of strings, numbers, booleans, nulls or functions is accepted, so the
    strings of an array under a key such as [ids] are not validated as
    IRIs. The call needs no room on the stack but its own. *)
Theorem array_items_that_are_no_objects_are_skipped (room : nat) (key : string)
    (items : list JsValue) :
  Forall (fun item => isObjectLike item = false) items ->
  validateMutationInput urlHostname (S room) (VObj [(key, VArr items)]) = inr tt.
Proof.
  intros Hitems. rewrite validate_cons. simpl.
  assert (Hskip : forall index, itemsChecked urlHostname room key items index = inr tt).
  { induction Hitems as [|item items Hitem _ IH]; intros index; simpl; [reflexivity|].
    rewrite Hitem. apply IH. }
  rewrite Hskip. reflexivity.
Qed.

End InputValidation.

Lemma validateMutationInput_throws_validation_or_range_error_witness :
  (exists error,
     GraphQLInputValidator.validateMutationInput noUrl 2
       (VObj [("user", VObj [("id", VStr "not-a-uri")])]) = inl error /\
     err_code error = Some "VALIDATION_ERROR") /\
  GraphQLInputValidator.validateMutationInput noUrl 1
    (VObj [("user", VObj [("id", VStr "not-a-uri")])])
    = inl GraphQLInputValidator.RangeError /\
  (1 < nesting (VObj [("user", VObj [("id", VStr "not-a-uri")])]))%nat.
Proof.
  split.
  - eexists. split; [reflexivity|].
    destruct (validateMutationInput_throws_validation_or_range_error noUrl 2
                (VObj [("user", VObj [("id", VStr "not-a-uri")])]) _ eq_refl)
      as [[_ Hcode]|[Hrange _]]; [exact Hcode | discriminate].
  - split; [reflexivity|].
    destruct (validateMutationInput_throws_validation_or_range_error noUrl 1
                (VObj [("user", VObj [("id", VStr "not-a-uri")])]) _ eq_refl)
      as [[Hname _]|[_ Hdeep]]; [discriminate | exact Hdeep].
Defined.

Lemma accepted_input_holds_valid_iris_witness :
  IriValidator.validateIri noUrl "urn:isbn:1" = inr tt.
Proof.
  refine (proj1 (accepted_input_holds_valid_iris noUrl 2
                   (VObj [("mixed", VArr [VObj [("id", VStr "urn:isbn:1")]])])
                   "id" (VStr "urn:isbn:1") eq_refl _) "urn:isbn:1" eq_refl eq_refl).
  apply (entry_item _ "mixed" [VObj [("id", VStr "urn:isbn:1")]]
                    (VObj [("id", VStr "urn:isbn:1")])).
  - left. reflexivity.
  - left. reflexivity.
  - apply entry_here. left. reflexivity.
Defined.

Lemma array_items_that_are_no_objects_are_skipped_witness :
  GraphQLInputValidator.validateMutationInput noUrl 1
    (VObj [("userIds", VArr [VStr "<"; VNull; VFunction "f"])]) = inr tt.
Proof.
  apply array_items_that_are_no_objects_are_skipped.
  repeat constructor.
Defined.

(* --------------------------------------------------------------------- *)
(** ** QueryEngineSparqlEndpoint: what query and update settle with *)
(* --------------------------------------------------------------------- *)

Section EndpointResults.

Import QueryEngineSparqlEndpoint.

Lemma prop_assign_eq k v props : prop k (assign k v props) = Some v.
Proof.
  induction props as [|[k' v'] props IH]; simpl.
  - rewrite String.eqb_refl. reflexivity.
  - destruct (String.eqb_spec k k') as [->|Hne]; simpl.
    + rewrite String.eqb_refl. reflexivity.
    + destruct (String.eqb_spec k k'); [contradiction | exact IH].
Qed.

Lemma prop_assign_ne k k' v props :
  k' <> k -> prop k' (assign k v props) = prop k' props.
Proof.
  intros Hne. induction props as [|[k0 v0] props IH]; simpl.
  - destruct (String.eqb_spec k' k); [contradiction | reflexivity].
  - destruct (String.eqb_spec k k0) as [->|Hk]; simpl.
    + destruct (String.eqb_spec k' k0); [contradiction | reflexivity].
    + destruct (String.eqb_spec k' k0); [reflexivity | exact IH].
Qed.

Lemma isSparqlQueryResult_inv result :
  isSparqlQueryResult result = true ->
  exists props head rprops bindings,
    result = JObj props /\
    prop "head" props = Some head /\
    prop "results" props = Some (JObj rprops) /\
    prop "bindings" rprops = Some (JArr bindings).
Proof.
  unfold isSparqlQueryResult. intros H.
  repeat (apply andb_prop in H as [H ?]).
  destruct result as [| | | | |props]; simpl in *; try discriminate.
  destruct (prop "head" props) as [head|] eqn:Hhead; [|discriminate].
  destruct (prop "results" props) as [[| | | | |rprops]|] eqn:Hres; simpl in *;
    try discriminate.
  destruct (prop "bindings" rprops) as [[| | | |bindings|]|] eqn:Hb; try discriminate.
  eauto 10.
Qed.

(** The truncation keeps a well-formed result well formed, keeps its head,
    and leaves the first [maxResults] bindings *)
Lemma applyMaxResults_spec maxResults result :
  isSparqlQueryResult result = true ->
  isSparqlQueryResult (applyMaxResults maxResults result) = true /\
  headOf (applyMaxResults maxResults result) = headOf result /\
  exists bindings kept,
    bindingsOf result = Some bindings /\
    bindingsOf (applyMaxResults maxResults result) = Some kept /\
    (forall n, maxResults = Some n -> (0 < n)%Z ->
               kept = firstn (Z.to_nat n) bindings).
Proof.
  intros Hok.
  destruct (isSparqlQueryResult_inv result Hok)
    as (props & head & rprops & bindings & -> & Hhead & Hres & Hb).
  assert (Hbind : bindingsOf (JObj props) = Some bindings).
  { unfold bindingsOf. simpl. rewrite Hres. simpl. rewrite Hb. reflexivity. }
  unfold applyMaxResults. destruct maxResults as [n|].
  2:{ split; [exact Hok|]. split; [reflexivity|]. exists bindings, bindings.
      repeat split; auto. discriminate. }
  rewrite Hres, Hb.
  destruct (negb (n =? 0)%Z && (n <? Z.of_nat (length bindings))%Z) eqn:Hcut.
  - apply andb_prop in Hcut as [Hnz Hlt]. apply Z.ltb_lt in Hlt.
    split; [|split].
    + unfold isSparqlQueryResult in *. simpl.
      rewrite prop_assign_ne by discriminate. rewrite Hhead in *.
      rewrite prop_assign_eq. simpl. rewrite prop_assign_eq. simpl.
      simpl in Hok. rewrite Hhead in Hok.
      repeat (apply andb_prop in Hok as [Hok ?]). simpl in *.
      repeat (apply andb_true_intro; split); auto.
    + unfold headOf. simpl. apply prop_assign_ne. discriminate.
    + exists bindings, (slice0 n bindings). split; [exact Hbind|]. split.
      * unfold bindingsOf. simpl. rewrite prop_assign_eq. simpl.
        rewrite prop_assign_eq. reflexivity.
      * intros n' Hn' Hpos. inversion Hn'; subst. unfold slice0.
        destruct (Z.leb_spec 0 n'); [reflexivity | lia].
  - split; [exact Hok|]. split; [reflexivity|]. exists bindings, bindings.
    split; [exact Hbind|]. split; [exact Hbind|].
    intros n' Hn' Hpos. inversion Hn'; subst.
    apply andb_false_iff in Hcut as [Hz|Hge].
    + apply negb_false_iff, Z.eqb_eq in Hz. lia.
    + apply Z.ltb_ge in Hge. symmetry. apply firstn_all2. lia.
Qed.

(** X17. When [query] resolves, the endpoint has answered the POST of the
    serialized algebra with an ok status and a JSON document of the SPARQL
    results shape; the result has that shape, the head of the document,
    and, under a positive [maxResults] (1000 unless the options say
    otherwise), the first [maxResults] bindings of the document in their
    order. *)
Theorem query_resolves_with_bounded_results {Operation : Type}
    (toSparql : Operation -> Thrown + string) (endpointUrl : string)
    (fetch : Request -> Z -> Settled Response) (sparqlAlgebra : Operation)
    (options : option QueryEngineOptions) (result : Json) :
  query toSparql endpointUrl fetch sparqlAlgebra options = Resolved result ->
  exists sparql response sent bindings kept,
    toSparql sparqlAlgebra = inr sparql /\
    fetch (mkRequest endpointUrl "POST"
             [("Content-Type", "application/sparql-query");
              ("Accept", "application/sparql-results+json")]
             sparql)
          (timeoutOf (mergeOptions options)) = Resolved response /\
    ok response = true /\ json response = Resolved sent /\
    isSparqlQueryResult result = true /\
    headOf result = headOf sent /\
    bindingsOf sent = Some bindings /\ bindingsOf result = Some kept /\
    forall n, maxResults (mergeOptions options) = Some n -> (0 < n)%Z ->
              kept = firstn (Z.to_nat n) bindings.
Proof.
  unfold query. destruct (toSparql sparqlAlgebra) as [thrown|sparql] eqn:Hsparql;
    [discriminate|].
  destruct (fetch _ _) as [response|error] eqn:Hfetch.
  2:{ destruct error as [| e |]; simpl; try discriminate.
      destruct (String.eqb (err_name e) "AbortError"); discriminate. }
  unfold queryResponse. destruct (ok response) eqn:Hok; simpl.
  2:{ destruct (text response) as [t|error]; simpl; [discriminate|].
      destruct error as [| e |]; simpl; try discriminate.
      destruct (String.eqb (err_name e) "AbortError"); discriminate. }
  destruct (json response) as [sent|error] eqn:Hjson.
  2:{ destruct error as [| e |]; simpl; try discriminate.
      destruct (String.eqb (err_name e) "AbortError"); discriminate. }
  destruct (isSparqlQueryResult sent) eqn:Hvalid; simpl; [|discriminate].
  intros H. inversion H; subst; clear H.
  destruct (applyMaxResults_spec (maxResults (mergeOptions options)) sent Hvalid)
    as (Hvalid' & Hhead & bindings & kept & Hb & Hk & Hcut).
  exists sparql, response, sent, bindings, kept.
  split; [reflexivity|]. repeat (split; [assumption|]). exact Hcut.
Qed.

Lemma queryCatch_rejects mergedOptions error :
  exists message code,
    queryCatch mergedOptions error = Rejected (QueryEngineError message code).
Proof.
  destruct error as [message code | e | str]; simpl; eauto.
  destruct (String.eqb (err_name e) "AbortError"); eauto.
Qed.

Lemma updateCatch_rejects mergedOptions error :
  exists message code,
    updateCatch mergedOptions error = Rejected (QueryEngineError message code).
Proof.
  destruct error as [message code | e | str]; simpl; eauto.
  destruct (String.eqb (err_name e) "AbortError"); eauto.
Qed.

(** X18. A rejection of [query] is a [QueryEngineError] or what
    [toSparql] threw. The algebra is serialized before the [try] block, so
    an exception of the serializer reaches the caller as it is, whatever
    it is; once the algebra is serialized, a failure of the network, a
    timeout, a status that is not ok, a body that is no JSON or has
    another shape all reach the caller as [QueryEngineError]s. *)
Theorem query_rejection_is_wrapped_or_of_toSparql {Operation : Type}
    (toSparql : Operation -> Thrown + string) (endpointUrl : string)
    (fetch : Request -> Z -> Settled Response) (sparqlAlgebra : Operation)
    (options : option QueryEngineOptions) :
  (forall thrown,
     toSparql sparqlAlgebra = inl thrown ->
     query toSparql endpointUrl fetch sparqlAlgebra options = Rejected thrown) /\
  (forall error,
     query toSparql endpointUrl fetch sparqlAlgebra options = Rejected error ->
     toSparql sparqlAlgebra = inl error \/
     exists sparql message code,
       toSparql sparqlAlgebra = inr sparql /\ error = QueryEngineError message code).
Proof.
  unfold query. destruct (toSparql sparqlAlgebra) as [thrown|sparql].
  { split; [intros t Ht | intros error H; left]; congruence. }
  split; [discriminate|]. intros error.
  match goal with
  | |- match ?attempt with _ => _ end = _ -> _ => destruct attempt as [r|e]
  end; [discriminate|].
  destruct (queryCatch_rejects (mergeOptions options) e) as (message & code & ->).
  intros H. inversion H. right. eauto.
Qed.

(** What [update] settles with, by the answer of the endpoint *)
Lemma update_outcome (endpointUrl : string) (updateEndpointUrlArg : option string)
    (fetch : Request -> Z -> Settled Response) (sparqlUpdate : string)
    (options : option QueryEngineOptions) :
  match update endpointUrl updateEndpointUrlArg fetch sparqlUpdate options with
  | Resolved result =>
      result = mkUpdateResult true "Update operation completed successfully." /\
      exists response,
        fetch (mkRequest (updateEndpointUrl endpointUrl updateEndpointUrlArg) "POST"
                 [("Content-Type", "application/sparql-update")] sparqlUpdate)
              (timeoutOf (mergeOptions options)) = Resolved response /\
        ok response = true
  | Rejected error =>
      (exists message code, error = QueryEngineError message code) /\
      forall response,
        fetch (mkRequest (updateEndpointUrl endpointUrl updateEndpointUrlArg) "POST"
                 [("Content-Type", "application/sparql-update")] sparqlUpdate)
              (timeoutOf (mergeOptions options)) = Resolved response ->
        ok response = false
  end.
Proof.
  unfold update.
  destruct (fetch _ _) as [response|error] eqn:Hfetch.
  - unfold updateResponse. destruct (ok response) eqn:Hok; simpl.
    + split; [reflexivity|]. eauto.
    + destruct (text response) as [errorText|error]; simpl.
      * split; [eauto|]. intros r Hr. inversion Hr; subst. exact Hok.
      * destruct (updateCatch_rejects (mergeOptions options) error)
          as (message & code & ->).
        split; [eauto|]. intros r Hr. inversion Hr; subst. exact Hok.
  - destruct (updateCatch_rejects (mergeOptions options) error)
      as (message & code & ->).
    split; [eauto|]. intros r Hr. discriminate.
Qed.

(** X19. [update] posts the update string as it is to the update endpoint,
    which is the query endpoint when none was given or the empty string
    was. It resolves, with the fixed success record, exactly when the
    endpoint answers with an ok status, and reads nothing of that answer;
    in every other case it rejects with a [QueryEngineError]. *)
Theorem update_succeeds_iff_the_endpoint_accepts (endpointUrl : string)
    (updateEndpointUrlArg : option string)
    (fetch : Request -> Z -> Settled Response) (sparqlUpdate : string)
    (options : option QueryEngineOptions) :
  let request :=
    mkRequest (match updateEndpointUrlArg with
               | Some u => if String.eqb u "" then endpointUrl else u
               | None => endpointUrl
               end)
              "POST" [("Content-Type", "application/sparql-update")] sparqlUpdate in
  let answer := fetch request (timeoutOf (mergeOptions options)) in
  match update endpointUrl updateEndpointUrlArg fetch sparqlUpdate options with
  | Resolved result =>
      result = mkUpdateResult true "Update operation completed successfully." /\
      exists response, answer = Resolved response /\ ok response = true
  | Rejected error =>
      (exists message code, error = QueryEngineError message code) /\
      forall response, answer = Resolved response -> ok response = false
  end.
Proof.
  cbv zeta. exact (update_outcome endpointUrl updateEndpointUrlArg fetch sparqlUpdate options).
Qed.

End EndpointResults.

Lemma query_resolves_with_bounded_results_witness :
  bindingsOf
    (JObj [("head", JObj [("vars", JArr [JStr "s"])]);
           ("results", JObj [("bindings", JArr [JNum 1; JNum 2])])])
  = Some [JNum 1; JNum 2].
Proof.
  destruct (query_resolves_with_bounded_results
              (fun _ : unit => inr "SELECT") "http://example.org/sparql"
              (answering threeBindings) tt
              (Some (mkOptions None (Some 2%Z) None))
              (JObj [("head", JObj [("vars", JArr [JStr "s"])]);
                     ("results", JObj [("bindings", JArr [JNum 1; JNum 2])])])
              eq_refl)
    as (sparql & response & sent & bindings & kept & _ & Hfetch & _ & Hjson & _ & _
        & Hb & Hk & Hcut).
  inversion Hfetch; subst response. inversion Hjson; subst sent.
  inversion Hb; subst bindings. rewrite Hk. f_equal.
  exact (Hcut 2%Z eq_refl eq_refl).
Defined.

Lemma query_rejection_is_wrapped_or_of_toSparql_witness :
  QueryEngineSparqlEndpoint.query
        (fun _ : unit => inl (OtherError (Error "Unknown operation")))
        "http://example.org/sparql" (answering emptyResult) tt None
    = Rejected (OtherError (Error "Unknown operation")) /\
  exists sparql message code,
    inr (A := Thrown) "SELECT" = inr sparql /\
    QueryEngineError "Query execution failed: Network error" "EXECUTION_ERROR"
      = QueryEngineError message code.
Proof.
  split.
  - exact (proj1 (query_rejection_is_wrapped_or_of_toSparql
                    (fun _ : unit => inl (OtherError (Error "Unknown operation")))
                    "http://example.org/sparql" (answering emptyResult) tt None)
                 _ eq_refl).
  - destruct (proj2 (query_rejection_is_wrapped_or_of_toSparql
                       (fun _ : unit => inr "SELECT") "http://example.org/sparql"
                       (fun _ _ => Rejected networkError) tt None)
                    _ eq_refl) as [Hthrown|Hwrapped]; [discriminate | exact Hwrapped].
Defined.

(* --------------------------------------------------------------------- *)
(** ** Client: what query and mutate settle with *)
(* --------------------------------------------------------------------- *)

Section ClientOutcomes.

Context {Source Operation Singularize SparqlJson UpdateResult Tree : Type}.

(** X20. [Client.query] settles in one of two ways: it resolves with a
    result that holds data and no errors, or it rejects with a
    [QueryEngineError]; a failure of the conversion, of the engine or of
    the construction of the tree never reaches the caller as another kind
    of error, and never as an [errors] array. *)
Theorem client_query_outcomes
    (queryEngine : Client.QueryEngine Operation SparqlJson UpdateResult)
    (graphqlToSparqlAlgebra :
       Source -> list (string * Json) -> Settled (Operation * Singularize))
    (sparqlJsonResultsToTree : SparqlJson -> Singularize -> Thrown + Tree)
    (args : Client.QueryArgs Source Operation Singularize) :
  match Client.query queryEngine graphqlToSparqlAlgebra sparqlJsonResultsToTree args with
  | Resolved result =>
      Client.errors result = None /\ exists tree, Client.data result = Some tree
  | Rejected error => exists message code, error = QueryEngineError message code
  end.
Proof.
  assert (Hcatch : forall error,
             exists message code,
               Client.queryCatch (A := Client.ExecutionResult Tree) error
                 = Rejected (QueryEngineError message code)).
  { intros [message code | e | str]; simpl; eauto. }
  assert (Hexec : forall algebra singularize options,
             match Client.executeQuery queryEngine sparqlJsonResultsToTree
                     algebra singularize options with
             | Resolved result =>
                 Client.errors result = None /\
                 exists tree, Client.data result = Some tree
             | Rejected error => exists message code, error = QueryEngineError message code
             end).
  { intros algebra singularize options. unfold Client.executeQuery.
    destruct (Client.query_ queryEngine algebra options) as [json|error].
    - destruct (sparqlJsonResultsToTree json singularize) as [error|tree].
      + destruct (Hcatch error) as (message & code & ->). eauto.
      + simpl. eauto.
    - destruct (Hcatch error) as (message & code & ->). eauto. }
  destruct args as [query variables options | algebra singularize options]; simpl.
  - unfold Client.graphQlToSparql.
    destruct (graphqlToSparqlAlgebra query (default [] variables))
      as [[algebra singularize]|error]; [apply Hexec|].
    simpl. eauto.
  - apply Hexec.
Qed.

End ClientOutcomes.

(** X21. Over the SPARQL endpoint engine, a result of [mutate] never holds
    an [errors] array: the engine's [update] rejects with
    [QueryEngineError]s only, which [mutate] throws again, so when [mutate]
    resolves, the result holds the success record of the engine and no
    errors. *)
Theorem mutate_over_the_endpoint_reports_no_errors
    {Source Operation Singularize SparqlJson : Type}
    (context : gmap string Json)
    (query_ : Operation -> option QueryEngineOptions -> Settled SparqlJson)
    (random16 : nat -> N) (parse : Source -> JsError + DocumentNode)
    (toSparql : CompositeUpdate -> string)
    (endpointUrl : string) (updateEndpointUrlArg : option string)
    (fetch : QueryEngineSparqlEndpoint.Request -> Z
             -> Settled QueryEngineSparqlEndpoint.Response)
    (args : Client.QueryArgs Source Operation Singularize)
    (result : Client.ExecutionResult
                (Client.MutateData QueryEngineSparqlEndpoint.SparqlUpdateResult)) :
  Client.mutate context
    (Client.mkQueryEngine query_
       (Some (QueryEngineSparqlEndpoint.update endpointUrl updateEndpointUrlArg fetch)))
    random16 parse toSparql args = Resolved result ->
  Client.errors result = None /\
  Client.data result =
    Some (Client.mkMutateData true
            (QueryEngineSparqlEndpoint.mkUpdateResult
               true "Update operation completed successfully.")).
Proof.
  destruct args as [query variables options | algebra singularize options];
    simpl; [|discriminate].
  destruct (0 <? _)%nat; [discriminate|].
  destruct (parse query) as [syntaxError|ast]; [discriminate|].
  destruct (convertToSparql _ _ _ _ _ _) as [sparqlUpdate fx|e fx]; [|discriminate].
  unfold Client.executeUpdate.
  pose proof (update_outcome endpointUrl updateEndpointUrlArg fetch sparqlUpdate
                options) as Hupdate.
  destruct (QueryEngineSparqlEndpoint.update _ _ _ _ _) as [r|error].
  - destruct Hupdate as [-> _]. intros H. inversion H. split; reflexivity.
  - destruct Hupdate as [(message & code & ->) _]. discriminate.
Qed.

Lemma mutate_over_the_endpoint_reports_no_errors_witness :
  Client.errors
    (Client.mkExecutionResult
       (Some (Client.mkMutateData true
                (QueryEngineSparqlEndpoint.mkUpdateResult
                   true "Update operation completed successfully.")))
       None) = None.
Proof.
  refine (proj1 (mutate_over_the_endpoint_reports_no_errors
                   (Source := unit) (Operation := unit) (Singularize := unit)
                   (SparqlJson := unit)
                   exampleContext (fun _ _ => Rejected networkError) (fun _ => 7%N)
                   (fun _ => inr deleteUserMutation) (fun _ => "DELETE")
                   "http://example.org/sparql" None (answering JNull)
                   (Client.QueryArgsRaw tt None None) _ _)).
  vm_compute. reflexivity.
Defined.

(** X22. [valueToValueNode] keeps the values of JSON apart: two values
    built from null, booleans, numbers, strings, arrays and objects that
    give the same value node are the same value. (Outside JSON it does
    not: [undefined] gives the node of the string [undefined].) *)
Theorem valueToValueNode_keeps_json_values_apart (v1 v2 : JsValue) :
  isJsonValue v1 = true -> isJsonValue v2 = true ->
  Client.valueToValueNode v1 = Client.valueToValueNode v2 -> v1 = v2.
Proof.
  revert v2.
  induction v1 as [| | b | i str | s | items IH | entries IH | | str]
    using JsValue_nested_ind;
    intros v2 H1 H2 Heq; try discriminate;
    destruct v2 as [| | b2 | i2 str2 | s2 | items2 | entries2 | | str2];
    try discriminate; simpl in Heq;
    repeat match goal with
           | H : context [if ?c then _ else _] |- _ => destruct c
           end;
    try discriminate; try (inversion Heq; subst; reflexivity).
  - f_equal. inversion Heq as [Hmap]; clear Heq. simpl in H1, H2.
    revert items2 H1 H2 Hmap.
    induction IH as [|item items Hitem _ IHitems]; intros [|item2 items2] H1 H2 Hmap;
      try discriminate; [reflexivity|].
    simpl in *. apply andb_prop in H1 as [H1 H1']. apply andb_prop in H2 as [H2 H2'].
    inversion Hmap. f_equal; auto.
  - f_equal. inversion Heq as [Hmap]; clear Heq. simpl in H1, H2.
    revert entries2 H1 H2 Hmap.
    induction IH as [|[key value] entries Hentry _ IHentries];
      intros [|[key2 value2] entries2] H1 H2 Hmap; try discriminate; [reflexivity|].
    simpl in *. apply andb_prop in H1 as [H1 H1']. apply andb_prop in H2 as [H2 H2'].
    inversion Hmap; subst. f_equal; [f_equal|]; auto.
Qed.

Lemma valueToValueNode_keeps_json_values_apart_witness :
  Client.valueToValueNode (VObj [("limit", VNum true "10"); ("tags", VArr [VStr "a"])])
    = ObjectValue [("limit", IntValue "10"); ("tags", ListValue [StringValue "a"])] /\
  VObj [("limit", VNum true "10"); ("tags", VArr [VStr "a"])]
    = VObj [("limit", VNum true "10"); ("tags", VArr [VStr "a"])].
Proof.
  split; [reflexivity|].
  exact (valueToValueNode_keeps_json_values_apart
           (VObj [("limit", VNum true "10"); ("tags", VArr [VStr "a"])])
           (VObj [("limit", VNum true "10"); ("tags", VArr [VStr "a"])])
           eq_refl eq_refl eq_refl).
Defined.

(* --------------------------------------------------------------------- *)
(** ** Logger *)
(* --------------------------------------------------------------------- *)

Section LoggerProperties.

Import Logger.

Context {Context_ : Type}.
Variable stringify : Context_ -> option string.

(** The index of a level in [Object.values(LogLevel)] is its place in the
    order debug, info, warn, error *)
Lemma shouldLog_severity level logger :
  shouldLog level logger = (severity (minLevel (config logger)) <=? severity level)%nat.
Proof.
  unfold shouldLog. destruct (minLevel (config logger)), level; reflexivity.
Qed.

(** X23. With the metrics enabled, every call of [error] adds one to the
    counter [errors_total] (from 0 when the counter is new) and changes no
    other counter and nothing of the configuration, whatever the minimum
    level is, since no level lies above ERROR; it writes one line with
    [console.error] when the console is enabled and none otherwise. *)
Theorem error_is_counted_at_every_level (message : string)
    (error : option ErrorValue) (context : option Context_) (now : string)
    (logger : Logger) (console : Console) :
  enableMetrics (config logger) = true ->
  error_ stringify message error context now (logger, console)
    = (mkLogger (config logger)
                (<["errors_total" :=
                     (default 0 (getMetrics logger !! "errors_total") + 1)%Z]>
                   (getMetrics logger)),
       if enableConsole (config logger)
       then console ++ [(ERROR, output stringify
                                  (mkLogEntry now ERROR message context error))]
       else console).
Proof.
  intros Hmetrics. unfold error_, log. rewrite shouldLog_severity.
  replace (severity (minLevel (config logger)) <=? severity ERROR)%nat with true
    by (destruct (minLevel (config logger)); reflexivity).
  unfold incrementMetric. rewrite Hmetrics. reflexivity.
Qed.

(** X24. A message of a level below the minimum level, in the order debug,
    info, warn, error, changes nothing: no line is written, no counter
    moves. *)
Theorem log_below_minLevel_changes_nothing (level : LogLevel) (message : string)
    (context : option Context_) (error : option ErrorValue) (now : string)
    (logger : Logger) (console : Console) :
  (severity level < severity (minLevel (config logger)))%nat ->
  log stringify level message context error now (logger, console) = (logger, console).
Proof.
  intros Hlow. unfold log. rewrite shouldLog_severity.
  destruct (Nat.leb_spec (severity (minLevel (config logger))) (severity level));
    [lia | reflexivity].
Qed.

End LoggerProperties.

Lemma error_is_counted_at_every_level_witness :
  Logger.getMetrics
    (fst (Logger.error_ (fun _ : unit => None) "failed" None None "2024-01-01T00:00:00.000Z"
            (quietCountingLogger, [])))
    !! "errors_total" = Some 1%Z.
Proof.
  exact (f_equal (fun state => Logger.getMetrics (fst state) !! "errors_total")
           (error_is_counted_at_every_level (fun _ : unit => None) "failed" None None
              "2024-01-01T00:00:00.000Z" quietCountingLogger [] eq_refl)).
Defined.

Lemma log_below_minLevel_changes_nothing_witness :
  Logger.info (fun _ : unit => None) "started" None "2024-01-01T00:00:00.000Z"
              (quietCountingLogger, [])
    = (quietCountingLogger, []).
Proof.
  apply (log_below_minLevel_changes_nothing (fun _ : unit => None) Logger.INFO).
  vm_compute. lia.
Defined.

(* --------------------------------------------------------------------- *)
(** ** MutationConverter: documents, deletes, updates and refused inputs *)
(* --------------------------------------------------------------------- *)

Lemma forEach_throws {A S} (body : A -> S -> M S) (x : A) (xs : list A) (s : S) fx :
  In x xs -> (forall s' fx', exists e fx1, body x s' fx' = Throw e fx1) ->
  exists e fx1, forEach body xs s fx = Throw e fx1.
Proof.
  intros Hin Hx. revert s fx. induction xs as [|y xs IH]; intros s fx; [inversion Hin|].
  simpl. unfold bind. destruct Hin as [->|Hin].
  - destruct (Hx s fx) as (e & fx1 & ->). eauto.
  - destruct (body y s fx) as [s1 fx1|e fx1]; [apply IH, Hin | eauto].
Qed.

Lemma forEach_Ok_each {A S} (body : A -> S -> M S) (xs : list A) (s : S) fx s1 fx1 x :
  forEach body xs s fx = Ok s1 fx1 -> In x xs ->
  exists s' fx' s'' fx'', body x s' fx' = Ok s'' fx''.
Proof.
  revert s fx. induction xs as [|y xs IH]; intros s fx H Hin; [inversion Hin|].
  simpl in H. apply bind_Ok in H as (s0 & fx0 & Hy & H).
  destruct Hin as [->|Hin]; [eauto 6 | eapply IH; eassumption].
Qed.

Lemma Forall2_In_left {A B} (R : A -> B -> Prop) xs ys x :
  Forall2 R xs ys -> In x xs -> exists y, R x y.
Proof.
  intros H. induction H as [|x0 y0 xs ys Hxy _ IH]; intros Hin; [inversion Hin|].
  destruct Hin as [->|Hin]; [eauto | apply IH, Hin].
Qed.

Section FurtherCompilation.

Variable context : gmap string Json.
Variable random16 : nat -> N.

(** X25. A document that holds an operation other than a mutation, a query
    or a subscription, at any place, never compiles: [convert] throws. *)
Theorem other_operations_never_compile (ast : DocumentNode)
    (op : OperationDefinitionNode) (fx : Effects) :
  In op ast -> operation op <> OpMutation ->
  exists e fx1, convert context random16 ast fx = Throw e fx1.
Proof.
  intros Hin Hop. unfold convert, visit, bind.
  destruct (forEach_throws (visitOperation context random16) op ast initialLocals fx Hin)
    as (e & fx1 & ->); [|eauto].
  intros s' fx'. unfold visitOperation.
  destruct (operation op); [eauto | contradiction | eauto].
Qed.

(** The visit of a document of mutations is the visit of its root fields *)
Lemma visit_onlyMutations ast st fx :
  onlyMutations ast ->
  visit context random16 ast st fx
    = forEach (visitField context random16) (rootFields ast) st fx.
Proof.
  unfold visit, rootFields. intros Hall. revert st fx.
  induction Hall as [|op ast Hop _ IH]; intros st fx; simpl; [reflexivity|].
  rewrite forEach_app. unfold bind, visitOperation. rewrite Hop.
  destruct (forEach _ (selections op) st fx); [apply IH | reflexivity].
Qed.

(** Once the operation is a delete, every root field adds the same quad
    and the same pattern *)
Lemma visitFields_delete subject nodes st fx :
  operationType st = Some delete -> subjectHint st = Some subject ->
  exists fx1,
    forEach (visitField context random16) nodes st fx
      = Ok (setDeleteArrays
              (deleteQuads st ++
               replicate (length nodes)
                         (quad subject (VariableTerm "p_del") (VariableTerm "o_del")))
              (deleteWherePatterns st ++ replicate (length nodes) (anyTripleOf subject))
              st) fx1.
Proof.
  revert st fx. induction nodes as [|node nodes IH]; intros st fx Hop Hhint; simpl.
  - exists fx. rewrite !app_nil_r. destruct st; reflexivity.
  - unfold bind, visitField at 1, processField, handleDelete, quadToAlgebraPattern,
      createPattern, bind, ret. rewrite Hop. simpl. rewrite Hop, Hhint. simpl.
    match goal with
    | |- context [forEach _ nodes ?st1 ?fx1] =>
        destruct (IH st1 fx1 Hop Hhint) as (fx2 & ->)
    end.
    exists fx2. simpl. rewrite <- !app_assoc. reflexivity.
Qed.

Lemma buildOperation_delete st fx :
  operationType st = Some delete -> deleteQuads st <> [] ->
  exists fx1,
    buildOperation st fx
      = Ok (mkCompositeUpdate
              [mkDeleteInsert (Some (map quadPattern (deleteQuads st))) None
                              (Some (mkBgp (deleteWherePatterns st)))])
           fx1.
Proof.
  intros Hop Hne. unfold buildOperation. rewrite Hop.
  destruct (deleteQuads st) as [|q qs] eqn:Hq; [contradiction|].
  unfold nonEmpty. cbn [length Nat.eqb negb].
  unfold bind at 1. unfold createBgp at 1.
  destruct (mapQuadToAlgebraPattern_Ok (q :: qs)
              (mkEffects (randomCalls fx) (S (algebraNodes fx)))) as (fx1 & Hmap).
  unfold bind at 1. rewrite Hmap.
  unfold bind, createDeleteInsert, createCompositeUpdate. eauto.
Qed.

(** X26. A document of mutations whose first root field is a delete with a
    legal string [id] always compiles, whatever the entity is and whether
    the context maps it: to one [DeleteInsert] whose delete patterns and
    where patterns are the pattern [<subject> ?p_del ?o_del], once per root
    field of the document. The root fields after the first one add nothing
    else, whatever their names and arguments are. *)
Theorem delete_compiles_to_one_pattern_per_root_field (ast : DocumentNode)
    (first : FieldNode) (rest : list FieldNode) (entity iriValue : string)
    (fx : Effects) :
  onlyMutations ast -> rootFields ast = first :: rest ->
  classify (name first) = Some (delete, entity) ->
  find "id" (arguments first) = Some (StringValue iriValue) ->
  hasIllegalIriChar iriValue = false ->
  baseWellTyped context ->
  let patterns :=
    replicate (S (length rest))
              (anyTripleOf (NamedNode (expand_iri_spec context iriValue))) in
  exists fx1,
    convert context random16 ast fx
      = Ok (mkCompositeUpdate
              [mkDeleteInsert (Some patterns) None (Some (mkBgp patterns))])
           fx1.
Proof.
  intros Hall Hroot Hclass Hid Hlegal Hbase. cbv zeta.
  unfold convert, bind. rewrite (visit_onlyMutations _ _ _ Hall), Hroot.
  set (subject := NamedNode (expand_iri_spec context iriValue)).
  assert (Hident : identifyOperation context first initialLocals fx
                   = Ok (setOperation delete entity (Some subject) initialLocals) fx).
  { unfold identifyOperation. rewrite Hclass, Hid, Hlegal.
    unfold bind. rewrite (expandIri_ok _ _ _ Hbase). reflexivity. }
  destruct (visitFields_delete subject (first :: rest)
              (setOperation delete entity (Some subject) initialLocals) fx
              eq_refl eq_refl) as (fx1 & Hvisit).
  assert (Hsame : forEach (visitField context random16) (first :: rest) initialLocals fx
                  = forEach (visitField context random16) (first :: rest)
                      (setOperation delete entity (Some subject) initialLocals) fx).
  { simpl. unfold bind, visitField at 1 3. simpl. unfold bind. rewrite Hident.
    reflexivity. }
  rewrite Hsame, Hvisit.
  match goal with
  | |- context [buildOperation ?st fx1] =>
      destruct (buildOperation_delete st fx1 eq_refl) as (fx2 & Hbuild);
        [simpl; discriminate|]
  end.
  exists fx2. rewrite Hbuild. simpl.
  change (map quadPattern) with (fmap (M := list) quadPattern). rewrite fmap_replicate.
  reflexivity.
Qed.

Lemma buildOperation_update st fx :
  operationType st = Some update ->
  updateInsertQuads st <> [] -> updateDeleteQuads st <> [] ->
  exists fx1,
    buildOperation st fx
      = Ok (mkCompositeUpdate
              [mkDeleteInsert (Some (map quadPattern (updateDeleteQuads st)))
                              (Some (map quadPattern (updateInsertQuads st)))
                              (Some (mkBgp (updateWherePatterns st)))])
           fx1.
Proof.
  intros Hop Hins Hdel. unfold buildOperation. rewrite Hop.
  destruct (updateInsertQuads st) as [|qi qis] eqn:Hqi; [contradiction|].
  destruct (updateDeleteQuads st) as [|qd qds] eqn:Hqd; [contradiction|].
  unfold nonEmpty. cbn [length Nat.eqb negb orb andb].
  unfold bind at 1. unfold createBgp at 1.
  destruct (mapQuadToAlgebraPattern_Ok (qd :: qds)
              (mkEffects (randomCalls fx) (S (algebraNodes fx)))) as (fx1 & Hdels).
  unfold bind at 1. unfold bind at 1. rewrite Hdels. unfold ret at 1.
  destruct (mapQuadToAlgebraPattern_Ok (qi :: qis) fx1) as (fx2 & Hinss).
  unfold bind at 1. unfold bind at 1. rewrite Hinss. unfold ret at 1.
  unfold bind, createDeleteInsert, createCompositeUpdate. eauto.
Qed.

(** The loop of [handleUpdate] over fields that are mapped and hold
    scalars: one insert quad, one delete quad and one where pattern per
    field, in the order of the fields *)
Lemma forEach_updateField_total subject fields rows arrays fx :
  Forall2 (fun field row =>
             fst field <> "id" /\
             termIri (context !! fst field) = Some (fst row) /\
             pureM (parseValueNode (snd field)) (snd row)) fields rows ->
  exists fx1,
    forEach (updateField context subject) fields arrays fx
      = Ok (mkUpdateArrays
              (insertQuads arrays ++
               map (fun row => quad subject (NamedNode (fst row)) (snd row)) rows)
              (deleteQuads_ arrays ++
               zip_with (fun field row =>
                           quad subject (NamedNode (fst row))
                                (VariableTerm ("old_" +:+ fst field))) fields rows)
              (wherePatterns arrays ++
               zip_with (fun field row =>
                           mkPattern subject (NamedNode (fst row))
                                     (VariableTerm ("old_" +:+ fst field)) DefaultGraph)
                        fields rows))
           fx1.
Proof.
  intros Hrows. revert arrays fx.
  induction Hrows as [|field row fields rows (Hid & Hiri & Hlit) _ IH]; intros arrays fx;
    simpl.
  - exists fx. rewrite !app_nil_r. destruct arrays; reflexivity.
  - unfold bind at 1. unfold updateField at 1.
    destruct (String.eqb_spec (fst field) "id") as [Heq|_]; [contradiction|].
    unfold bind at 1. unfold getPredicateIri. rewrite Hiri. unfold ret at 1.
    unfold bind at 1. rewrite (Hlit fx).
    unfold bind at 1. unfold quadToAlgebraPattern, createPattern, ret. simpl.
    match goal with
    | |- context [forEach _ fields ?arrays1 ?fx1] =>
        destruct (IH arrays1 fx1) as (fx2 & ->)
    end.
    exists fx2. simpl. rewrite <- !app_assoc. reflexivity.
Qed.

(** X27. An update with one root field, a legal string [id] and a
    non-empty input whose fields are other than [id], mapped by the context
    and hold strings, integers, floats or booleans always compiles: to one
    [DeleteInsert] with, per input field and in the order of the fields,
    the delete pattern [<subject> p ?old_f], the insert pattern
    [<subject> p literal], where [p] is the IRI of the field and the
    literal that of its value with the datatype of its kind, and with the
    delete patterns as where clause. *)
Theorem update_compiles_field_by_field (node : FieldNode) (entity iriValue : string)
    (fields : list (string * ValueNode)) (rows : list (string * Term))
    (fx : Effects) :
  classify (name node) = Some (update, entity) ->
  find "id" (arguments node) = Some (StringValue iriValue) ->
  hasIllegalIriChar iriValue = false ->
  baseWellTyped context ->
  find "input" (arguments node) = Some (ObjectValue fields) ->
  fields <> [] ->
  Forall2 (fun field row =>
             fst field <> "id" /\
             termIri (context !! fst field) = Some (fst row) /\
             pureM (parseValueNode (snd field)) (snd row)) fields rows ->
  let subject := NamedNode (expand_iri_spec context iriValue) in
  let deletes :=
    zip_with (fun field row =>
                mkPattern subject (NamedNode (fst row))
                          (VariableTerm ("old_" +:+ fst field)) DefaultGraph)
             fields rows in
  let inserts :=
    map (fun row => mkPattern subject (NamedNode (fst row)) (snd row) DefaultGraph)
        rows in
  exists fx1,
    convert context random16 (singleMutation node) fx
      = Ok (mkCompositeUpdate
              [mkDeleteInsert (Some deletes) (Some inserts) (Some (mkBgp deletes))])
           fx1.
Proof.
  intros Hclass Hid Hlegal Hbase Hinput Hne Hrows. cbv zeta.
  set (subject := NamedNode (expand_iri_spec context iriValue)).
  destruct (forEach_updateField_total subject fields rows (mkUpdateArrays [] [] []) fx
              Hrows) as (fx1 & Hfields).
  assert (Hrows_ne : rows <> []).
  { destruct Hrows; [contradiction | discriminate]. }
  set (arrays1 := mkUpdateArrays
         (map (fun row => quad subject (NamedNode (fst row)) (snd row)) rows)
         (zip_with (fun field row =>
                      quad subject (NamedNode (fst row))
                           (VariableTerm ("old_" +:+ fst field))) fields rows)
         (zip_with (fun field row =>
                      mkPattern subject (NamedNode (fst row))
                                (VariableTerm ("old_" +:+ fst field)) DefaultGraph)
                   fields rows)) in *.
  simpl in Hfields.
  set (st0 := setOperation update entity (Some subject) initialLocals).
  assert (Hident : identifyOperation context node initialLocals fx = Ok st0 fx).
  { unfold identifyOperation. rewrite Hclass, Hid, Hlegal.
    unfold bind. rewrite (expandIri_ok _ _ _ Hbase). reflexivity. }
  assert (Hupdate : handleUpdate context node subject entity
                      (mkUpdateArrays [] [] []) fx = Ok arrays1 fx1).
  { unfold handleUpdate. rewrite Hinput. unfold bind. rewrite Hfields.
    subst arrays1. simpl. destruct rows; [contradiction | reflexivity]. }
  assert (Hvisit : visit context random16 (singleMutation node) initialLocals fx
                   = Ok (setUpdateArrays (deleteQuads_ arrays1) (insertQuads arrays1)
                                         (wherePatterns arrays1) st0) fx1).
  { unfold visit, singleMutation. simpl. unfold bind, visitOperation. simpl.
    unfold bind, visitField. simpl. unfold bind. rewrite Hident.
    unfold processField. simpl. unfold bind. fold subject.
    change (entityNameOf st0) with entity. rewrite Hupdate. reflexivity. }
  unfold convert, bind. rewrite Hvisit.
  match goal with
  | |- context [buildOperation ?st fx1] =>
      destruct (buildOperation_update st fx1 eq_refl) as (fx2 & Hbuild)
  end.
  { simpl. destruct rows; [contradiction | discriminate]. }
  { simpl. destruct fields, rows; try contradiction; discriminate. }
  exists fx2. rewrite Hbuild. simpl. do 4 f_equal.
  - f_equal.
    clear. revert rows. induction fields as [|f fields IH]; intros [|r rows]; simpl;
      try reflexivity. f_equal. apply IH.
  - f_equal. f_equal. rewrite map_map. reflexivity.
Qed.

Lemma parseValueNode_supported value fx lit fx1 :
  parseValueNode value fx = Ok lit fx1 -> supportedValue value = true.
Proof. destruct value; simpl; try discriminate; reflexivity. Qed.

(** X28. No input field is dropped in silence: a create or an update with
    one root field whose input holds a field other than [id] that the
    context does not map to an IRI, or whose value is a variable, null, an
    enum value, a list or an object, does not compile: [convert] throws. *)
Theorem unmapped_or_unsupported_input_fails (node : FieldNode)
    (opType : OperationType) (entity : string)
    (fields : list (string * ValueNode)) (f : string) (value : ValueNode)
    (fx : Effects) :
  classify (name node) = Some (opType, entity) -> opType <> delete ->
  find "input" (arguments node) = Some (ObjectValue fields) ->
  In (f, value) fields -> f <> "id" ->
  termIri (context !! f) = None \/ supportedValue value = false ->
  exists e fx1, convert context random16 (singleMutation node) fx = Throw e fx1.
Proof.
  intros Hclass Hop Hinput Hin Hid Hbad.
  destruct (convert context random16 (singleMutation node) fx) as [operation fx1|e fx1]
    eqn:Hconvert; [exfalso | eauto].
  assert (Hgood : exists iri, termIri (context !! f) = Some iri /\
                              supportedValue value = true).
  { destruct opType; [| |contradiction].
    - apply convert_create_Ok with (entityName := entity) in Hconvert; [|exact Hclass].
      destruct Hconvert as (fields' & _ & localSubject & blocks & _ & Hinput' & _ & _
                            & Hblocks & _).
      rewrite Hinput in Hinput'. inversion Hinput'; subst fields'.
      destruct (Forall2_In_left _ _ _ _ Hblocks Hin) as (block & Hemits).
      inversion Hemits as [v | f0 v p0 p inv _ _ Hp0 _ _ | f0 val p lit _ _ Hp Hlit]; subst.
      + contradiction.
      + eauto.
      + exists p. split; [exact Hp|].
        eapply parseValueNode_supported. apply (Hlit noEffects).
    - unfold convert in Hconvert.
      apply bind_Ok in Hconvert as (st & fxa & Hvisit & _).
      apply visit_Ok in Hvisit. simpl in Hvisit.
      apply bind_Ok in Hvisit as (st1 & fxb & Hfield & _).
      unfold visitField in Hfield. simpl in Hfield.
      apply bind_Ok in Hfield as (st0 & fxc & Hident & Hproc).
      apply identifyOperation_Ok in Hident
        as (-> & opType & entity0 & hint & Hclass0 & -> & Hhint).
      rewrite Hclass in Hclass0. inversion Hclass0; subst opType entity0.
      destruct Hhint as [[Habs _]|(_ & s & _ & _ & ->)]; [discriminate|].
      unfold processField in Hproc. simpl in Hproc.
      apply bind_Ok in Hproc as (arrays & fxd & Hupdate & _).
      unfold handleUpdate in Hupdate. rewrite Hinput in Hupdate.
      apply bind_Ok in Hupdate as (arrays0 & fxe & Hfields & _).
      destruct (forEach_Ok_each _ _ _ _ _ _ (f, value) Hfields Hin)
        as (a & fa & b & fb & Hone).
      pose proof Hone as Hone'.
      apply updateField_Ok in Hone' as (_ & iri & _ & _ & Hiri & _).
      exists iri. split; [exact Hiri|].
      unfold updateField in Hone. simpl in Hone.
      destruct (String.eqb f "id"); [discriminate|].
      apply bind_Ok in Hone as (p & fp & _ & Hone).
      apply bind_Ok in Hone as (lit & fl & Hlit & _).
      eapply parseValueNode_supported, Hlit. }
  destruct Hgood as (iri & Hiri & Hvalue).
  destruct Hbad as [Hbad|Hbad]; congruence.
Qed.

End FurtherCompilation.

Lemma other_operations_never_compile_witness :
  exists e fx1,
    convert exampleContext (fun _ => 7%N) queryDocument noEffects = Throw e fx1.
Proof.
  apply (other_operations_never_compile exampleContext (fun _ => 7%N) queryDocument
           (mkOperation OpQuery [mkField "users" []]) noEffects).
  - left. reflexivity.
  - discriminate.
Defined.

Lemma delete_compiles_to_one_pattern_per_root_field_witness :
  exists fx1,
    convert exampleContext (fun _ => 7%N) deleteUserMutation noEffects
      = Ok (mkCompositeUpdate
              [mkDeleteInsert
                 (Some [anyTripleOf (NamedNode "http://example.org/ex:user1")])
                 None
                 (Some (mkBgp [anyTripleOf (NamedNode "http://example.org/ex:user1")]))])
           fx1.
Proof.
  apply (delete_compiles_to_one_pattern_per_root_field exampleContext (fun _ => 7%N)
           deleteUserMutation (mkField "deleteUser" [("id", StringValue "ex:user1")])
           [] "User" "ex:user1" noEffects).
  - repeat constructor.
  - reflexivity.
  - reflexivity.
  - reflexivity.
  - reflexivity.
  - exact I.
Defined.

Lemma update_compiles_field_by_field_witness :
  exists fx1,
    convert exampleContext (fun _ => 7%N) updateUserMutation noEffects
      = Ok (mkCompositeUpdate
              [mkDeleteInsert
                 (Some [mkPattern (NamedNode "http://example.org/ex:user1")
                                  (NamedNode "http://xmlns.com/foaf/0.1/name")
                                  (VariableTerm "old_name") DefaultGraph;
                        mkPattern (NamedNode "http://example.org/ex:user1")
                                  (NamedNode "http://example.org/age")
                                  (VariableTerm "old_age") DefaultGraph])
                 (Some [mkPattern (NamedNode "http://example.org/ex:user1")
                                  (NamedNode "http://xmlns.com/foaf/0.1/name")
                                  (Literal "Alicia" XSD_STRING) DefaultGraph;
                        mkPattern (NamedNode "http://example.org/ex:user1")
                                  (NamedNode "http://example.org/age")
                                  (Literal "31" XSD_INTEGER) DefaultGraph])
                 (Some (mkBgp
                    [mkPattern (NamedNode "http://example.org/ex:user1")
                               (NamedNode "http://xmlns.com/foaf/0.1/name")
                               (VariableTerm "old_name") DefaultGraph;
                     mkPattern (NamedNode "http://example.org/ex:user1")
                               (NamedNode "http://example.org/age")
                               (VariableTerm "old_age") DefaultGraph]))])
           fx1.
Proof.
  apply (update_compiles_field_by_field exampleContext (fun _ => 7%N) updateUserField
           "User" "ex:user1"
           [("name", StringValue "Alicia"); ("age", IntValue "31")]
           [("http://xmlns.com/foaf/0.1/name", Literal "Alicia" XSD_STRING);
            ("http://example.org/age", Literal "31" XSD_INTEGER)]
           noEffects).
  - reflexivity.
  - reflexivity.
  - reflexivity.
  - exact I.
  - reflexivity.
  - discriminate.
  - repeat constructor; try discriminate; intros fx; reflexivity.
Defined.

Lemma unmapped_or_unsupported_input_fails_witness :
  exists e fx1,
    convert exampleContext (fun _ => 7%N) (singleMutation createNicknameField) noEffects
      = Throw e fx1.
Proof.
  apply (unmapped_or_unsupported_input_fails exampleContext (fun _ => 7%N)
           createNicknameField create "User"
           [("id", StringValue "ex:user1"); ("nickname", StringValue "Al")]
           "nickname" (StringValue "Al") noEffects).
  - reflexivity.
  - discriminate.
  - reflexivity.
  - right. left. reflexivity.
  - discriminate.
  - left. reflexivity.
Defined.

(* --------------------------------------------------------------------- *)
(** ** MutationConverter: the generated identifier and the expansion *)
(* --------------------------------------------------------------------- *)

Section UuidLayout.

Variable random16 : nat -> N.
Hypothesis random16_range : forall i, (random16 i < 16)%N.

Lemma variant_digit (r : N) :
  (r < 16)%N ->
  exists d, toString16 (N.lor (N.land r 3) 8) = String d EmptyString /\
            In d ["8"; "9"; "a"; "b"]%char.
Proof.
  intros Hr.
  assert (Hcases : List.In r [0; 1; 2; 3; 4; 5; 6; 7; 8; 9; 10; 11; 12; 13; 14; 15]%N).
  { simpl. lia. }
  simpl in Hcases.
  repeat (destruct Hcases as [<-|Hcases];
          [eexists; split; [reflexivity | simpl; tauto]|]).
  contradiction.
Qed.

(** One replacement: one character, one draw for [x] and [y] and none
    otherwise *)
Lemma uuidChar_layout c fx :
  exists d,
    uuidChar random16 c fx
      = Ok (String d EmptyString)
           (mkEffects (randomCalls fx +
                       (if Ascii.eqb c "x" || Ascii.eqb c "y" then 1 else 0))
                      (algebraNodes fx)) /\
    (Ascii.eqb c "x" || Ascii.eqb c "y" = false -> d = c) /\
    (c = "y"%char -> In d ["8"; "9"; "a"; "b"]%char).
Proof.
  unfold uuidChar. destruct (Ascii.eqb c "x" || Ascii.eqb c "y") eqn:Hxy.
  - unfold bind, nextRandom16, ret.
    pose proof (random16_range (randomCalls fx)) as Hr.
    replace (randomCalls fx + 1) with (S (randomCalls fx)) by lia.
    destruct (Ascii.eqb_spec c "x") as [->|Hx].
    + destruct (toString16_digit (random16 (randomCalls fx)) Hr) as (d & -> & _).
      exists d. split; [reflexivity|]. split; [discriminate|]. discriminate.
    + destruct (variant_digit _ Hr) as (d & -> & Hd).
      exists d. split; [reflexivity|]. split; [discriminate|]. auto.
  - exists c. replace (randomCalls fx + 0) with (randomCalls fx) by lia.
    split; [destruct fx; reflexivity|]. split; [reflexivity|].
    intros ->. discriminate.
Qed.

Lemma replaceXY_layout template fx :
  exists u,
    replaceXY random16 template fx
      = Ok u (mkEffects (randomCalls fx + placeholders template) (algebraNodes fx)) /\
    String.length u = String.length template /\
    forall i c, String.get i template = Some c ->
      exists d, String.get i u = Some d /\
                (Ascii.eqb c "x" || Ascii.eqb c "y" = false -> d = c) /\
                (c = "y"%char -> In d ["8"; "9"; "a"; "b"]%char).
Proof.
  revert fx. induction template as [|c rest IH]; intros fx; simpl.
  - exists EmptyString. replace (randomCalls fx + 0) with (randomCalls fx) by lia.
    split; [destruct fx; reflexivity|]. split; [reflexivity|]. intros i c H. discriminate.
  - destruct (uuidChar_layout c fx) as (d & Hd & Hkeep & Hvariant).
    unfold bind. rewrite Hd.
    match goal with
    | |- context [replaceXY random16 rest ?fx1] =>
        destruct (IH fx1) as (ds & Hds & Hlen & Hget)
    end.
    rewrite Hds. exists (String d ds). simpl. split.
    + unfold ret. do 2 f_equal. lia.
    + split; [congruence|]. intros [|i] c0 Hc0; simpl in *.
      * inversion Hc0; subst. eauto.
      * apply Hget, Hc0.
Qed.

(** X29. When the random draws lie in 0..15, [generateUUID] returns, after
    exactly 31 calls of [Math.random] and without building an algebra node,
    a string of 36 characters with hyphens at the places 8, 13, 18 and 23,
    the version digit 4 at the place 14 and one of 8, 9, a, b at the place
    19: the layout of a version 4 UUID. *)
Theorem generateUUID_has_the_version_4_layout (fx : Effects) :
  exists uuid,
    generateUUID random16 fx
      = Ok uuid (mkEffects (randomCalls fx + 31) (algebraNodes fx)) /\
    String.length uuid = 36 /\
    (forall i, In i [8; 13; 18; 23] -> String.get i uuid = Some "-"%char) /\
    String.get 14 uuid = Some "4"%char /\
    exists variant, String.get 19 uuid = Some variant /\
                    In variant ["8"; "9"; "a"; "b"]%char.
Proof.
  unfold generateUUID.
  destruct (replaceXY_layout UUID_TEMPLATE fx) as (u & Hu & Hlen & Hget).
  exists u. split; [exact Hu|]. split; [exact Hlen|]. split; [|split].
  - intros i Hi. simpl in Hi.
    destruct Hi as [<-|[<-|[<-|[<-|[]]]]];
      match goal with
      | |- String.get ?i u = _ =>
          destruct (Hget i "-"%char eq_refl) as (d & -> & Hkeep & _);
            rewrite (Hkeep eq_refl); reflexivity
      end.
  - destruct (Hget 14 "4"%char eq_refl) as (d & -> & Hkeep & _).
    rewrite (Hkeep eq_refl). reflexivity.
  - destruct (Hget 19 "y"%char eq_refl) as (d & Hd & _ & Hvariant).
    exists d. split; [exact Hd | apply Hvariant; reflexivity].
Qed.

End UuidLayout.

Lemma generateUUID_has_the_version_4_layout_witness :
  exists uuid,
    generateUUID (fun _ => 7%N) noEffects = Ok uuid (mkEffects 31 0) /\
    String.length uuid = 36 /\
    (forall i, In i [8; 13; 18; 23] -> String.get i uuid = Some "-"%char) /\
    String.get 14 uuid = Some "4"%char /\
    exists variant, String.get 19 uuid = Some variant /\
                    In variant ["8"; "9"; "a"; "b"]%char.
Proof.
  apply (generateUUID_has_the_version_4_layout (fun _ => 7%N)).
  intros i. reflexivity.
Defined.

Lemma append_assoc_ a b c : (a +:+ b) +:+ c = a +:+ b +:+ c.
Proof.
  induction a as [|x a IH]; [reflexivity|].
  change (String x ((a +:+ b) +:+ c) = String x (a +:+ b +:+ c)). f_equal. exact IH.
Qed.

Lemma prefix_append p a b : String.prefix p a = true -> String.prefix p (a +:+ b) = true.
Proof.
  revert a. induction p as [|x p IH]; intros a.
  - intros _. destruct (a +:+ b); reflexivity.
  - destruct a as [|y a]; simpl; [discriminate|].
    destruct (ascii_dec x y); [apply IH | discriminate].
Qed.

Lemma substring_last s :
  s <> "" ->
  substring 0 (String.length s - 1) s +:+ substring (String.length s - 1) 1 s = s.
Proof.
  induction s as [|c s IH]; [contradiction|]. intros _.
  replace (String.length (String c s) - 1) with (String.length s) by (simpl; lia).
  destruct s as [|c' s']; [reflexivity|].
  assert (Hlen : String.length (String c' s') = S (String.length (String c' s') - 1))
    by (simpl; lia).
  rewrite Hlen at 1 2.
  change (String c (substring 0 (String.length (String c' s') - 1) (String c' s')
                    +:+ substring (String.length (String c' s') - 1) 1 (String c' s'))
          = String c (String c' s')).
  f_equal. apply IH. discriminate.
Qed.

(** A base that ends with a slash is its clean form and the slash *)
Lemma dropLast_slash base :
  endsWith "/" base = true -> dropLast 1 base +:+ "/" = base.
Proof.
  unfold endsWith, dropLast. intros H. apply andb_prop in H as [Hlen H].
  apply String.eqb_eq in H. simpl String.length in H.
  rewrite <- H at 1. apply substring_last. intros ->. discriminate.
Qed.

(** X30. Under a base that starts with http:// or https://, what
    [expandIri] returns starts so too, and expanding it again returns it
    unchanged: the expansion of an expanded IRI adds no second base. *)
Theorem expandIri_is_stable_under_an_absolute_base (context : gmap string Json)
    (base v : string) (fx : Effects) :
  baseWellTyped context ->
  definedBase context = Some base ->
  startsWith "http://" base || startsWith "https://" base = true ->
  exists expanded,
    expandIri context v fx = Ok expanded fx /\
    startsWith "http://" expanded || startsWith "https://" expanded = true /\
    expandIri context expanded fx = Ok expanded fx.
Proof.
  intros Hwf Hbase Habs. exists (expand_iri_spec context v).
  rewrite !(expandIri_ok _ _ _ Hwf).
  assert (Hexp : startsWith "http://" (expand_iri_spec context v)
                 || startsWith "https://" (expand_iri_spec context v) = true).
  { unfold expand_iri_spec at 1 2.
    destruct (startsWith "http://" v || startsWith "https://" v) eqn:Hv; [exact Hv|].
    rewrite Hbase.
    assert (Hshape : exists tail,
               (if endsWith "/" base then dropLast 1 base else base) +:+ "/" +:+ v
               = base +:+ tail).
    { destruct (endsWith "/" base) eqn:Hslash.
      - exists v. rewrite <- append_assoc_, (dropLast_slash _ Hslash). reflexivity.
      - eauto. }
    destruct Hshape as [tail ->]. unfold startsWith in *.
    apply orb_prop in Habs as [H|H]; rewrite (prefix_append _ _ tail H);
      [reflexivity | apply orb_true_r]. }
  split; [reflexivity|]. split; [exact Hexp|].
  f_equal. unfold expand_iri_spec at 1. rewrite Hexp. reflexivity.
Qed.

Lemma expandIri_is_stable_under_an_absolute_base_witness :
  exists expanded,
    expandIri exampleContext "ex:user1" noEffects = Ok expanded noEffects /\
    startsWith "http://" expanded || startsWith "https://" expanded = true /\
    expandIri exampleContext expanded noEffects = Ok expanded noEffects.
Proof.
  apply (expandIri_is_stable_under_an_absolute_base exampleContext
           "http://example.org/" "ex:user1" noEffects).
  - exact I.
  - reflexivity.
  - reflexivity.
Defined.
